(** * Temporal matrix factorization with VAR regularisation

    A shallow embedding of the Python functions of
    [TemporalMatrixFactorization.ipynb]: the conjugate-gradient solver,
    the temporal operators, the alternating fit ([tmf], [notmf],
    [notmf_dic]), the VAR extrapolation ([var4cast]) and the rolling
    controller ([rolling4cast]).

    Python integers are [Z]; a 2-D numpy array is a shape with its rows;
    a 1-D numpy array is a list; an exception is a [Raise] result.  The
    scalars are kept abstract ([Scalar]), with IEEE binary64 as the
    instance used to run the functions.

    What the embedding leaves out: the printing and the progress bar of
    the fit functions (the indexing [mat_hat[pos_test]] that feeds the
    printed errors is kept, since it can raise).  What it fixes: sums of
    products run in index order; [np.random.randn] reads a stream of
    draws at a running position; [np.linalg.pinv] is a parameter
    ([LinAlg]).  The two [update_cg] of the notebook are bound per part,
    each solver to the one defined in its own part. *)

From Stdlib Require Import PrimFloat String List ZArith Lia Bool.
From Stdlib Require Qcanon.
Import ListNotations.

Set Implicit Arguments.

(** ** Exceptions and results *)

Inductive exn : Type :=
| UnboundLocalError (name : string)
| ValueError
| IndexError
| ZeroDivisionError
| LinAlgError.

Inductive result (A : Type) : Type :=
| Ok (a : A)
| Raise (e : exn).

Arguments Ok {A} a.
Arguments Raise {A} e.

Definition bind {A B : Type} (m : result A) (k : A -> result B) : result B :=
  match m with
  | Ok a => k a
  | Raise e => Raise e
  end.

Notation "x <- m ;; k" := (bind m (fun x => k))
  (at level 61, m at next level, right associativity).
Notation "' pat <- m ;; k" := (bind m (fun x => match x with pat => k end))
  (at level 61, pat pattern, m at next level, right associativity).

(** Reading a local variable that no assignment has reached yet. *)
Definition read_local {A : Type} (name : string) (v : option A) : result A :=
  match v with
  | Some a => Ok a
  | None => Raise (UnboundLocalError name)
  end.

(** [for i in l: s = body(i, s)], stopping at the first exception. *)
Fixpoint for_each {I S : Type} (l : list I) (body : I -> S -> result S) (s : S)
  : result S :=
  match l with
  | [] => Ok s
  | i :: l' =>
      match body i s with
      | Ok s' => for_each l' body s'
      | Raise e => Raise e
      end
  end.

(** [range(a, b)] *)
Definition py_range (a b : Z) : list Z :=
  map (fun i => (a + Z.of_nat i)%Z) (seq 0 (Z.to_nat (b - a))).

Fixpoint mapM {A B : Type} (f : A -> result B) (l : list A) : result (list B) :=
  match l with
  | [] => Ok []
  | a :: l' => b <- f a ;; bs <- mapM f l' ;; Ok (b :: bs)
  end.

(** [l[k]] on a Python list: a negative index counts from the end. *)
Definition norm_index (n : nat) (k : Z) : result nat :=
  if ((0 <=? k) && (k <? Z.of_nat n))%Z then Ok (Z.to_nat k)
  else if ((- Z.of_nat n <=? k) && (k <? 0))%Z then Ok (Z.to_nat (k + Z.of_nat n))
  else Raise IndexError.

Definition list_index {A : Type} (l : list A) (k : Z) : result A :=
  i <- norm_index (length l) k ;;
  match nth_error l i with
  | Some a => Ok a
  | None => Raise IndexError
  end.

(** The bound of a slice [a[lo:hi]] on an axis of length [n]. *)
Definition slice_bound (n : nat) (i : Z) : nat :=
  Z.to_nat (if (i <? 0)%Z then Z.max (i + Z.of_nat n) 0 else Z.min i (Z.of_nat n)).

(** ** Scalars

    The element type of the arrays with the operations the code uses.
    [hundredth] is the literal [0.01]; [is_zero x] is [x == 0]. *)

Class Scalar (F : Type) : Type := {
  zero : F;
  one : F;
  add : F -> F -> F;
  sub : F -> F -> F;
  mul : F -> F -> F;
  div : F -> F -> F;
  opp : F -> F;
  hundredth : F;
  is_zero : F -> bool;
  is_nan : F -> bool
}.

(** ** Arrays *)

Record ndarray (A : Type) : Type := mk_array {
  nrows : nat;
  ncols : nat;
  rows : list (list A)
}.

(** A new array of shape [(r, c)] filled by [f]. *)
Definition tab {A : Type} (r c : nat) (f : nat -> nat -> A) : ndarray A :=
  mk_array r c (map (fun i => map (f i) (seq 0 c)) (seq 0 r)).

Definition get {A : Type} (dflt : A) (M : ndarray A) (i j : nat) : A :=
  nth j (nth i (rows M) []) dflt.

(** The buffer of an array matches its shape. *)
Definition wf {A : Type} (M : ndarray A) : Prop :=
  length (rows M) = nrows M /\ Forall (fun r => length r = ncols M) (rows M).

Definition wfb {A : Type} (M : ndarray A) : bool :=
  (length (rows M) =? nrows M) && forallb (fun r => length r =? ncols M) (rows M).

Definition has_shape {A : Type} (M : ndarray A) (r c : nat) : Prop :=
  wf M /\ nrows M = r /\ ncols M = c.

(** Broadcasting of one axis: equal lengths, or one of them is 1. *)
Definition bdim (a b : nat) : result nat :=
  if a =? b then Ok a
  else if a =? 1 then Ok b
  else if b =? 1 then Ok a
  else Raise ValueError.

Definition bidx (n i : nat) : nat := if n =? 1 then 0 else i.

(** An elementwise binary operation on two 2-D arrays. *)
Definition broadcast2 {A B C : Type} (da : A) (db : B) (f : A -> B -> C)
  (M : ndarray A) (N : ndarray B) : result (ndarray C) :=
  r <- bdim (nrows M) (nrows N) ;;
  c <- bdim (ncols M) (ncols N) ;;
  Ok (tab r c (fun i j =>
        f (get da M (bidx (nrows M) i) (bidx (ncols M) j))
          (get db N (bidx (nrows N) i) (bidx (ncols N) j)))).

(** The value assigned to a target of shape [(r, c)]. *)
Definition broadcast_to {A : Type} (da : A) (M : ndarray A) (r c : nat)
  : result (ndarray A) :=
  if ((nrows M =? r) || (nrows M =? 1)) && ((ncols M =? c) || (ncols M =? 1))
  then Ok (tab r c (fun i j => get da M (bidx (nrows M) i) (bidx (ncols M) j)))
  else Raise ValueError.

Definition map_array {A B : Type} (da : A) (f : A -> B) (M : ndarray A) : ndarray B :=
  tab (nrows M) (ncols M) (fun i j => f (get da M i j)).

(** [M.T] *)
Definition transpose {A : Type} (da : A) (M : ndarray A) : ndarray A :=
  tab (ncols M) (nrows M) (fun i j => get da M j i).

(** [np.append(M, N, axis = 1)] *)
Definition append_cols {A : Type} (da : A) (M N : ndarray A) : result (ndarray A) :=
  if nrows M =? nrows N
  then Ok (tab (nrows M) (ncols M + ncols N) (fun i j =>
             if j <? ncols M then get da M i j else get da N i (j - ncols M)))
  else Raise ValueError.

(** [M[:, lo:hi]], [M[:, :hi]] and [M[:, lo:]] *)
Definition cols_between {A : Type} (da : A) (M : ndarray A) (s e : nat) : ndarray A :=
  tab (nrows M) (e - s) (fun i j => get da M i (s + j)).

Definition slice_cols {A : Type} (da : A) (M : ndarray A) (lo hi : Z) : ndarray A :=
  cols_between da M (slice_bound (ncols M) lo) (slice_bound (ncols M) hi).

Definition slice_cols_to {A : Type} (da : A) (M : ndarray A) (hi : Z) : ndarray A :=
  cols_between da M 0 (slice_bound (ncols M) hi).

Definition slice_cols_from {A : Type} (da : A) (M : ndarray A) (lo : Z) : ndarray A :=
  cols_between da M (slice_bound (ncols M) lo) (ncols M).

(** [M[lo:hi, :] = V] *)
Definition set_row_slice {A : Type} (da : A) (M : ndarray A) (lo hi : Z)
  (V : ndarray A) : result (ndarray A) :=
  let s := slice_bound (nrows M) lo in
  let e := slice_bound (nrows M) hi in
  V' <- broadcast_to da V (e - s) (ncols M) ;;
  Ok (tab (nrows M) (ncols M) (fun i j =>
        if (s <=? i) && (i <? e) then get da V' (i - s) j else get da M i j)).

(** [M[:, lo:hi] = V] *)
Definition set_col_slice {A : Type} (da : A) (M : ndarray A) (lo hi : Z)
  (V : ndarray A) : result (ndarray A) :=
  let s := slice_bound (ncols M) lo in
  let e := slice_bound (ncols M) hi in
  V' <- broadcast_to da V (nrows M) (e - s) ;;
  Ok (tab (nrows M) (ncols M) (fun i j =>
        if (s <=? j) && (j <? e) then get da V' i (j - s) else get da M i j)).

(** [M[:, k]], a 1-D array *)
Definition get_col {A : Type} (da : A) (M : ndarray A) (k : Z) : result (list A) :=
  j <- norm_index (ncols M) k ;;
  Ok (map (fun i => get da M i j) (seq 0 (nrows M))).

(** [M[:, k] = v] for a 1-D array [v] *)
Definition set_col {A : Type} (da : A) (M : ndarray A) (k : Z) (v : list A)
  : result (ndarray A) :=
  jj <- norm_index (ncols M) k ;;
  if (length v =? nrows M) || (length v =? 1)
  then Ok (tab (nrows M) (ncols M) (fun i j =>
             if j =? jj then nth (bidx (length v) i) v da else get da M i j))
  else Raise ValueError.

(** [M[:, ks]] for an integer array [ks] *)
Definition take_cols {A : Type} (da : A) (M : ndarray A) (ks : list Z)
  : result (ndarray A) :=
  js <- mapM (norm_index (ncols M)) ks ;;
  Ok (tab (nrows M) (length js) (fun i j => get da M i (nth j js 0))).

(** The elements in row-major order, [M.reshape(-1)]. *)
Definition ravel_C {A : Type} (da : A) (M : ndarray A) : list A :=
  flat_map (fun i => map (fun j => get da M i j) (seq 0 (ncols M))) (seq 0 (nrows M)).

(** [M.reshape(n)] to one axis, where [-1] stands for the size. *)
Definition reshape_1d {A : Type} (da : A) (M : ndarray A) (n : Z) : result (list A) :=
  if ((n =? -1) || (n =? Z.of_nat (nrows M * ncols M)))%Z
  then Ok (ravel_C da M)
  else Raise ValueError.

(** [np.reshape(M, -1, order = 'F')]: the columns one after the other. *)
Definition ravel_F {A : Type} (da : A) (M : ndarray A) : list A :=
  flat_map (fun j => map (fun i => get da M i j) (seq 0 (nrows M))) (seq 0 (ncols M)).

(** [np.reshape(v, (r, c), order = 'F')] *)
Definition reshape_F {A : Type} (da : A) (v : list A) (r c : nat) : result (ndarray A) :=
  if length v =? r * c
  then Ok (tab r c (fun i j => nth (j * r + i) v da))
  else Raise ValueError.

(** [np.where(B)]: the positions of the true entries, row by row. *)
Definition np_where (B : ndarray bool) : list (nat * nat) :=
  flat_map (fun i =>
    flat_map (fun j => if get false B i j then [(i, j)] else []) (seq 0 (ncols B)))
    (seq 0 (nrows B)).

(** [M[pos]] for the pair of index arrays that [np.where] returns. *)
Definition take_at {A : Type} (da : A) (M : ndarray A) (pos : list (nat * nat))
  : result (list A) :=
  mapM (fun p => if (fst p <? nrows M) && (snd p <? ncols M)
                 then Ok (get da M (fst p) (snd p)) else Raise IndexError) pos.

Definition any (B : ndarray bool) : bool :=
  existsb (fun r => existsb (fun b => b) r) (rows B).

(** ** Numeric operations of numpy *)

Section Numeric.
Context {F : Type} {SF : Scalar F}.

(** [np.zeros((r, c))]; a negative dimension is refused. *)
Definition np_zeros (r c : Z) : result (ndarray F) :=
  if ((r <? 0) || (c <? 0))%Z then Raise ValueError
  else Ok (tab (Z.to_nat r) (Z.to_nat c) (fun _ _ => zero)).

(** [np.eye(n)] *)
Definition np_eye (n : Z) : result (ndarray F) :=
  if (n <? 0)%Z then Raise ValueError
  else Ok (tab (Z.to_nat n) (Z.to_nat n) (fun i j => if i =? j then one else zero)).

(** [np.random.randn(r, c)], reading the generator's samples from [pos] on. *)
Definition randn (draws : nat -> F) (pos : nat) (r c : Z) : result (ndarray F) :=
  if ((r <? 0) || (c <? 0))%Z then Raise ValueError
  else Ok (tab (Z.to_nat r) (Z.to_nat c) (fun i j => draws (pos + i * Z.to_nat c + j))).

(** Sums are taken in index order. *)
Definition sum_to (n : nat) (f : nat -> F) : F :=
  fold_left add (map f (seq 0 n)) zero.

(** [M @ N] on 2-D arrays: the product, once the shapes are checked. *)
Definition mat_product (M N : ndarray F) : ndarray F :=
  tab (nrows M) (ncols N) (fun i j =>
    sum_to (ncols M) (fun k => mul (get zero M i k) (get zero N k j))).

Definition matmul (M N : ndarray F) : result (ndarray F) :=
  if ncols M =? nrows N then Ok (mat_product M N) else Raise ValueError.

(** [M @ v] for a 1-D array [v] *)
Definition matvec (M : ndarray F) (v : list F) : result (list F) :=
  if ncols M =? length v
  then Ok (map (fun i => sum_to (ncols M) (fun k => mul (get zero M i k) (nth k v zero)))
             (seq 0 (nrows M)))
  else Raise ValueError.

(** [a * M] for a scalar [a] *)
Definition scale (a : F) (M : ndarray F) : ndarray F := map_array zero (mul a) M.

Definition mat_add : ndarray F -> ndarray F -> result (ndarray F) :=
  broadcast2 zero zero add.

Definition mat_sub : ndarray F -> ndarray F -> result (ndarray F) :=
  broadcast2 zero zero sub.

(** [M * ind] for a boolean array [ind]: [True] is 1 and [False] is 0. *)
Definition mask_mul (M : ndarray F) (ind : ndarray bool) : result (ndarray F) :=
  broadcast2 zero false (fun x b => mul x (if b then one else zero)) M ind.

(** [M += V] *)
Definition inplace_add (M V : ndarray F) : result (ndarray F) :=
  V' <- broadcast_to zero V (nrows M) (ncols M) ;;
  Ok (tab (nrows M) (ncols M) (fun i j => add (get zero M i j) (get zero V' i j))).

(** [np.inner(u, v)] on 1-D arrays *)
Definition inner (u v : list F) : result F :=
  if length u =? length v
  then Ok (sum_to (length u) (fun k => mul (nth k u zero) (nth k v zero)))
  else Raise ValueError.

Definition vscale (a : F) (v : list F) : list F := map (mul a) v.

Definition vbroadcast2 (f : F -> F -> F) (u v : list F) : result (list F) :=
  n <- bdim (length u) (length v) ;;
  Ok (map (fun i => f (nth (bidx (length u) i) u zero) (nth (bidx (length v) i) v zero))
        (seq 0 n)).

Definition vadd : list F -> list F -> result (list F) := vbroadcast2 add.
Definition vsub : list F -> list F -> result (list F) := vbroadcast2 sub.

(** [M != 0], [M == 0], [np.isnan(M)] and [~B] *)
Definition nonzero (M : ndarray F) : ndarray bool :=
  map_array zero (fun x => negb (is_zero x)) M.

Definition iszero (M : ndarray F) : ndarray bool := map_array zero is_zero M.

Definition isnan (M : ndarray F) : ndarray bool := map_array zero is_nan M.

Definition invert (B : ndarray bool) : ndarray bool := map_array false negb B.

Definition logical_and : ndarray bool -> ndarray bool -> result (ndarray bool) :=
  broadcast2 false false andb.

(** [M[np.isnan(M)] = 0], as the array reads after the assignment. *)
Definition nan_to_zero (M : ndarray F) : ndarray F :=
  map_array zero (fun x => if is_nan x then zero else x) M.

End Numeric.

(** [np.linalg.pinv], the Moore-Penrose pseudoinverse, is a library
    routine (it goes through an SVD): it is a parameter of the model. *)
Class LinAlg (F : Type) : Type := {
  pinv : ndarray F -> result (ndarray F)
}.

(** ** The conjugate-gradient solver

    [ell_w], [conj_grad_w], [ell_x] and [conj_grad_x] are written twice
    in the notebook, with the same text.  They call the [update_cg] of
    their own section, which is the parameter here. *)

Section Solver.
Context {F : Type} {SF : Scalar F}.

Definition cg_state : Type := (list F * list F * list F * F)%type.

Variable update_cg : list F -> list F -> list F -> list F -> F -> result cg_state.

Definition ell_w (ind : ndarray bool) (W X : ndarray F) (rho : F)
  : result (ndarray F) :=
  WtX <- matmul (transpose zero W) X ;;
  P <- mask_mul WtX ind ;;
  L <- matmul X (transpose zero P) ;;
  mat_add L (scale rho W).

Definition conj_grad_w (sparse_mat : ndarray F) (ind : ndarray bool)
  (W X : ndarray F) (rho : F) (maxiter : Z) : result (ndarray F) :=
  let rank := nrows W in
  let dim1 := ncols W in
  let w := ravel_F zero W in
  B <- matmul X (transpose zero sparse_mat) ;;
  L <- ell_w ind W X rho ;;
  R <- mat_sub B L ;;
  let r := ravel_F zero R in
  let q := r in
  rold <- inner r r ;;
  st <- for_each (py_range 0 maxiter)
          (fun _ (st : cg_state) =>
             let '(w, r, q, rold) := st in
             Q <- reshape_F zero q rank dim1 ;;
             LQ <- ell_w ind Q X rho ;;
             let Aq := ravel_F zero LQ in
             update_cg w r q Aq rold)
          (w, r, q, rold) ;;
  let '(w, _, _, _) := st in
  reshape_F zero w rank dim1.

Definition ell_x (ind : ndarray bool) (W X A : ndarray F) (Psi : list (ndarray F))
  (d : Z) (lambda0 rho : F) : result (ndarray F) :=
  let rank := nrows X in
  let dim2 := ncols X in
  Psi0 <- list_index Psi 0 ;;
  temp <- np_zeros (d * Z.of_nat rank) (Z.of_nat (nrows Psi0)) ;;
  temp <- for_each (py_range 1 (d + 1))
            (fun k temp =>
               Psik <- list_index Psi k ;;
               V <- matmul X (transpose zero Psik) ;;
               set_row_slice zero temp ((k - 1) * Z.of_nat rank) (k * Z.of_nat rank) V)
            temp ;;
  Psi0 <- list_index Psi 0 ;;
  XP <- matmul X (transpose zero Psi0) ;;
  AT <- matmul A temp ;;
  temp1 <- mat_sub XP AT ;;
  temp2 <- np_zeros (Z.of_nat rank) (Z.of_nat dim2) ;;
  temp2 <- for_each (py_range 0 d)
             (fun k temp2 =>
                let Ak := slice_cols zero A (k * Z.of_nat rank) ((k + 1) * Z.of_nat rank) in
                M1 <- matmul (transpose zero Ak) temp1 ;;
                Psik1 <- list_index Psi (k + 1) ;;
                M2 <- matmul M1 Psik1 ;;
                inplace_add temp2 M2)
             temp2 ;;
  WtX <- matmul (transpose zero W) X ;;
  P <- mask_mul WtX ind ;;
  T1 <- matmul W P ;;
  T3 <- mat_add T1 (scale rho X) ;;
  Psi0 <- list_index Psi 0 ;;
  T4 <- matmul temp1 Psi0 ;;
  T5 <- mat_sub T4 temp2 ;;
  mat_add T3 (scale lambda0 T5).

Definition conj_grad_x (sparse_mat : ndarray F) (ind : ndarray bool)
  (W X A : ndarray F) (Psi : list (ndarray F)) (d : Z) (lambda0 rho : F)
  (maxiter : Z) : result (ndarray F) :=
  let rank := nrows X in
  let dim2 := ncols X in
  let x := ravel_F zero X in
  B <- matmul W sparse_mat ;;
  L <- ell_x ind W X A Psi d lambda0 rho ;;
  R <- mat_sub B L ;;
  let r := ravel_F zero R in
  let q := r in
  rold <- inner r r ;;
  st <- for_each (py_range 0 maxiter)
          (fun _ (st : cg_state) =>
             let '(x, r, q, rold) := st in
             Q <- reshape_F zero q rank dim2 ;;
             LQ <- ell_x ind W Q A Psi d lambda0 rho ;;
             let Aq := ravel_F zero LQ in
             update_cg x r q Aq rold)
          (x, r, q, rold) ;;
  let '(x, _, _, _) := st in
  reshape_F zero x rank dim2.

(** The lines that fill [temp] with the lagged factors, block by block:
    [for k in range(1, d + 1): temp[(k - 1) * rank : k * rank, :] = X @ Psi[k].T]
    They stand, with the same text, in [tmf], [notmf] and [notmf_dic]. *)
Definition fill_temp (rank d : Z) (Psi : list (ndarray F)) (X temp : ndarray F)
  : result (ndarray F) :=
  for_each (py_range 1 (d + 1))
    (fun k temp =>
       Psik <- list_index Psi k ;;
       V <- matmul X (transpose zero Psik) ;;
       set_row_slice zero temp ((k - 1) * rank) (k * rank) V)
    temp.

End Solver.

Definition fit_result (F : Type) : Type :=
  (ndarray F * ndarray F * ndarray F * ndarray F)%type.

(** The state of the outer loop of a fit: [W], [X], [A], [temp] and
    [mat_hat], which is unbound until the first pass assigns it. *)
Definition fit_state (F : Type) : Type :=
  (ndarray F * ndarray F * ndarray F * ndarray F * option (ndarray F))%type.

(** ** Temporal matrix factorization (first part of the notebook) *)

Module TMF.
Local Open Scope Z_scope.
Section Defs.
Context {F : Type} {SF : Scalar F} {LA : LinAlg F}.

(** The parameter is spelled [ver], so [var] is a local variable that
    the second line reads before any assignment. *)
Definition update_cg (ver r q Aq : list F) (rold : F) : result (cg_state (F := F)) :=
  let var : option (list F) := None in
  d0 <- inner q Aq ;;
  let alpha := div rold d0 in
  var0 <- read_local "var" var ;;
  var <- vadd var0 (vscale alpha q) ;;
  r <- vsub r (vscale alpha Aq) ;;
  rnew <- inner r r ;;
  q <- vadd r (vscale (div rnew rold) q) ;;
  Ok (var, r, q, rnew).

Definition conj_grad_w := conj_grad_w update_cg.
Definition conj_grad_x := conj_grad_x update_cg.

Definition generate_Psi (T d : Z) : result (list (ndarray F)) :=
  for_each (py_range 0 (d + 1))
    (fun k Psi =>
       if (k =? 0)%Z then
         Z0 <- np_zeros (T - d) d ;;
         I <- np_eye (T - d) ;;
         P <- append_cols zero Z0 I ;;
         Ok (Psi ++ [P])
       else
         Z1 <- np_zeros (T - d) (d - k) ;;
         I <- np_eye (T - d) ;;
         P1 <- append_cols zero Z1 I ;;
         Z2 <- np_zeros (T - d) k ;;
         P <- append_cols zero P1 Z2 ;;
         Ok (Psi ++ [P]))
    [].

(** One pass of the outer loop of [tmf]. *)
Definition tmf_body (sparse_mat : ndarray F) (ind : ndarray bool)
  (Psi : list (ndarray F)) (rank d : Z) (lambda0 rho : F) (st : fit_state F)
  : result (fit_state F) :=
  let '(W, X, A, temp, _) := st in
  W <- conj_grad_w sparse_mat ind W X rho 5 ;;
  X <- conj_grad_x sparse_mat ind W X A Psi d lambda0 rho 5 ;;
  temp <- fill_temp rank d Psi X temp ;;
  Psi0 <- list_index Psi 0 ;;
  XP <- matmul X (transpose zero Psi0) ;;
  P <- pinv temp ;;
  A <- matmul XP P ;;
  mat_hat <- matmul (transpose zero W) X ;;
  Ok (W, X, A, temp, Some mat_hat).

Definition tmf (draws : nat -> F) (sparse_mat : ndarray F) (rank d : Z)
  (lambda0 rho : F) (maxiter : Z) : result (fit_result F) :=
  let dim1 := Z.of_nat (nrows sparse_mat) in
  let dim2 := Z.of_nat (ncols sparse_mat) in
  let ind := nonzero sparse_mat in
  G <- randn draws 0 rank dim1 ;;
  let W := scale hundredth G in
  G <- randn draws (Z.to_nat (rank * dim1)) rank dim2 ;;
  let X := scale hundredth G in
  G <- randn draws (Z.to_nat (rank * dim1) + Z.to_nat (rank * dim2))%nat rank (d * rank) ;;
  let A := scale hundredth G in
  Psi <- generate_Psi dim2 d ;;
  temp <- np_zeros (d * rank) (dim2 - d) ;;
  st <- for_each (py_range 0 maxiter)
          (fun _ => tmf_body sparse_mat ind Psi rank d lambda0 rho)
          (W, X, A, temp, None) ;;
  let '(W, X, A, _, mat_hat) := st in
  mat_hat <- read_local "mat_hat" mat_hat ;;
  Ok (mat_hat, W, X, A).

Definition var4cast (X A : ndarray F) (d delta : Z) : result (ndarray F) :=
  let dim1 := Z.of_nat (nrows X) in
  let dim2 := Z.of_nat (ncols X) in
  Z0 <- np_zeros dim1 delta ;;
  X_hat <- append_cols zero X Z0 ;;
  X_hat <- for_each (py_range 0 delta)
             (fun t X_hat =>
                L <- take_cols zero X_hat (map (fun k => dim2 + t - k) (py_range 1 (d + 1))) ;;
                v <- reshape_1d zero (transpose zero L) (dim1 * d) ;;
                c <- matvec A v ;;
                set_col zero X_hat (dim2 + t) c)
             X_hat ;;
  Ok (slice_cols_from zero X_hat (- delta)).

End Defs.
End TMF.

(** ** Nonstationary temporal matrix factorization (second part) *)

Module NoTMF.
Local Open Scope Z_scope.
Section Defs.
Context {F : Type} {SF : Scalar F} {LA : LinAlg F}.

Definition generate_Psi (T d season : Z) : result (list (ndarray F)) :=
  for_each (py_range 0 (d + 1))
    (fun k Psi =>
       if k =? 0 then
         Z0 <- np_zeros (T - d - season) d ;;
         I <- np_eye (T - d - season) ;;
         Zs <- np_zeros (T - d - season) season ;;
         N <- append_cols zero (scale (opp one) I) Zs ;;
         Zs <- np_zeros (T - d - season) season ;;
         I <- np_eye (T - d - season) ;;
         E <- append_cols zero Zs I ;;
         D <- mat_add N E ;;
         P <- append_cols zero Z0 D ;;
         Ok (Psi ++ [P])
       else
         Z1 <- np_zeros (T - d - season) (d - k) ;;
         I <- np_eye (T - d - season) ;;
         Zs <- np_zeros (T - d - season) season ;;
         N <- append_cols zero (scale (opp one) I) Zs ;;
         Zs <- np_zeros (T - d - season) season ;;
         I <- np_eye (T - d - season) ;;
         E <- append_cols zero Zs I ;;
         D <- mat_add N E ;;
         P1 <- append_cols zero Z1 D ;;
         Z2 <- np_zeros (T - d - season) k ;;
         P <- append_cols zero P1 Z2 ;;
         Ok (Psi ++ [P]))
    [].

Definition update_cg (var r q Aq : list F) (rold : F) : result (cg_state (F := F)) :=
  d0 <- inner q Aq ;;
  let alpha := div rold d0 in
  var <- vadd var (vscale alpha q) ;;
  r <- vsub r (vscale alpha Aq) ;;
  rnew <- inner r r ;;
  q <- vadd r (vscale (div rnew rold) q) ;;
  Ok (var, r, q, rnew).

Definition conj_grad_w := conj_grad_w update_cg.
Definition conj_grad_x := conj_grad_x update_cg.

(** The mask of the observed entries and the positions held out for the
    report, by the two branches on whether the data holds a NaN. *)
Definition observed (dense_mat sparse_mat : ndarray F)
  : result (ndarray bool * list (nat * nat) * ndarray F) :=
  if negb (any (isnan sparse_mat)) then
    let ind := nonzero sparse_mat in
    B <- logical_and (nonzero dense_mat) (iszero sparse_mat) ;;
    Ok (ind, np_where B, sparse_mat)
  else
    B <- logical_and (nonzero dense_mat) (isnan sparse_mat) ;;
    let ind := invert (isnan sparse_mat) in
    Ok (ind, np_where B, nan_to_zero sparse_mat).

Definition show_iter : Z := 100.

(** One pass of the outer loop of [notmf].  The report that every
    [show_iter]-th pass prints is left out, but for the indexing
    [mat_hat[pos_test]] it starts with. *)
Definition notmf_body (sparse_mat : ndarray F) (ind : ndarray bool)
  (pos_test : list (nat * nat)) (Psi : list (ndarray F)) (rank d : Z)
  (lambda0 rho : F) (it : Z) (st : fit_state F) : result (fit_state F) :=
  let '(W, X, A, temp, _) := st in
  W <- conj_grad_w sparse_mat ind W X rho 5 ;;
  X <- conj_grad_x sparse_mat ind W X A Psi d lambda0 rho 5 ;;
  temp <- fill_temp rank d Psi X temp ;;
  Psi0 <- list_index Psi 0 ;;
  XP <- matmul X (transpose zero Psi0) ;;
  P <- pinv temp ;;
  A <- matmul XP P ;;
  mat_hat <- matmul (transpose zero W) X ;;
  _ <- (if (it + 1) mod show_iter =? 0
        then take_at zero mat_hat pos_test else Ok []) ;;
  Ok (W, X, A, temp, Some mat_hat).

Definition notmf (draws : nat -> F) (dense_mat sparse_mat : ndarray F)
  (rank d : Z) (lambda0 rho : F) (season maxiter : Z) : result (fit_result F) :=
  let dim1 := Z.of_nat (nrows sparse_mat) in
  let dim2 := Z.of_nat (ncols sparse_mat) in
  G <- randn draws 0 rank dim1 ;;
  let W := scale hundredth G in
  G <- randn draws (Z.to_nat (rank * dim1)) rank dim2 ;;
  let X := scale hundredth G in
  G <- randn draws (Z.to_nat (rank * dim1) + Z.to_nat (rank * dim2))%nat rank (d * rank) ;;
  let A := scale hundredth G in
  '(ind, pos_test, sparse_mat) <- observed dense_mat sparse_mat ;;
  dense_test <- take_at zero dense_mat pos_test ;;
  Psi <- generate_Psi dim2 d season ;;
  temp <- np_zeros (d * rank) (dim2 - d - season) ;;
  st <- for_each (py_range 0 maxiter)
          (notmf_body sparse_mat ind pos_test Psi rank d lambda0 rho)
          (W, X, A, temp, None) ;;
  let '(W, X, A, _, mat_hat) := st in
  mat_hat <- read_local "mat_hat" mat_hat ;;
  Ok (mat_hat, W, X, A).

(** The mask of [notmf_dic], and [obs] as the function leaves it. *)
Definition observed_dic (obs : ndarray F) : ndarray bool * ndarray F :=
  if negb (any (isnan obs)) then (nonzero obs, obs)
  else (invert (isnan obs), nan_to_zero obs).

Definition notmf_dic (obs W X A : ndarray F) (d : Z) (lambda0 rho : F) (season : Z)
  : result (ndarray F * ndarray F) :=
  let dim2 := Z.of_nat (ncols obs) in
  let rank := Z.of_nat (nrows X) in
  let '(ind, obs) := observed_dic obs in
  Psi <- generate_Psi dim2 d season ;;
  X <- conj_grad_x obs ind W X A Psi d lambda0 rho 5 ;;
  temp <- np_zeros (d * rank) (dim2 - d - season) ;;
  temp <- fill_temp rank d Psi X temp ;;
  Psi0 <- list_index Psi 0 ;;
  XP <- matmul X (transpose zero Psi0) ;;
  P <- pinv temp ;;
  A <- matmul XP P ;;
  Ok (X, A).

Definition var4cast (X A : ndarray F) (d delta season : Z) : result (ndarray F) :=
  let dim1 := Z.of_nat (nrows X) in
  let dim2 := Z.of_nat (ncols X) in
  D <- mat_sub (slice_cols_from zero X season) (slice_cols_to zero X (- season)) ;;
  Z0 <- np_zeros dim1 delta ;;
  X_hat <- append_cols zero D Z0 ;;
  X_hat <- for_each (py_range 0 delta)
             (fun t X_hat =>
                L <- take_cols zero X_hat
                       (map (fun k => dim2 - season + t - k) (py_range 1 (d + 1))) ;;
                v <- reshape_1d zero (transpose zero L) (dim1 * d) ;;
                c <- matvec A v ;;
                set_col zero X_hat (dim2 - season + t) c)
             X_hat ;;
  Z0 <- np_zeros dim1 delta ;;
  X <- append_cols zero X Z0 ;;
  for_each (py_range 0 delta)
    (fun t X =>
       a <- get_col zero X (dim2 - season + t) ;;
       b <- get_col zero X_hat (dim2 - season + t) ;;
       c <- vadd a b ;;
       set_col zero X (dim2 + t) c)
    X.

(** [int(np.ceil(pred_step / delta))] on Python integers: the quotient
    is taken exactly (the float division is exact enough at the sizes of
    a time axis). *)
Definition ceil_div (pred_step delta : Z) : result Z :=
  if delta =? 0 then Raise ZeroDivisionError
  else Ok (- ((- pred_step) / delta)).

(** The variables of the loop of [rolling4cast]: [mat_hat], the caller's
    [sparse_mat] (the fits overwrite its NaN entries through the views
    they are handed), and [W], [X], [A], [X_new], unbound at first. *)
Record rolling_state (F : Type) : Type := mk_rolling {
  r_mat_hat : ndarray F;
  r_sparse : ndarray F;
  r_W : option (ndarray F);
  r_X : option (ndarray F);
  r_A : option (ndarray F);
  r_X_new : option (ndarray F)
}.

Definition rolling_step (draws : nat -> F) (dense_mat : ndarray F)
  (start_time delta rank d : Z) (lambda0 rho : F) (season maxiter : Z)
  (t : Z) (st : rolling_state F) : result (rolling_state F) :=
  '(sparse_mat, W, X, A) <-
     (if t =? 0 then
        let view := slice_cols_to zero (r_sparse st) start_time in
        '(_, W, X, A) <- notmf draws (slice_cols_to zero dense_mat start_time) view
                           rank d lambda0 rho season maxiter ;;
        sparse_mat <- set_col_slice zero (r_sparse st) 0 start_time (nan_to_zero view) ;;
        Ok (sparse_mat, W, X, A)
      else
        let view := slice_cols_to zero (r_sparse st) (start_time + t * delta) in
        W <- read_local "W" (r_W st) ;;
        X_new <- read_local "X_new" (r_X_new st) ;;
        A <- read_local "A" (r_A st) ;;
        '(X, A) <- notmf_dic view W X_new A d lambda0 rho season ;;
        sparse_mat <- set_col_slice zero (r_sparse st) 0 (start_time + t * delta)
                        (nan_to_zero view) ;;
        Ok (sparse_mat, W, X, A)) ;;
  X_new <- var4cast X A d delta season ;;
  V <- matmul (transpose zero W) (slice_cols_from zero X_new (- delta)) ;;
  mat_hat <- set_col_slice zero (r_mat_hat st) (t * delta) ((t + 1) * delta) V ;;
  Ok (mk_rolling mat_hat sparse_mat (Some W) (Some X) (Some A) (Some X_new)).

Definition rolling4cast (draws : nat -> F) (dense_mat sparse_mat : ndarray F)
  (pred_step delta rank d : Z) (lambda0 rho : F) (season maxiter : Z)
  : result (fit_result F) :=
  let dim1 := Z.of_nat (nrows sparse_mat) in
  let T := Z.of_nat (ncols sparse_mat) in
  let start_time := T - pred_step in
  max_count <- ceil_div pred_step delta ;;
  mat_hat <- np_zeros dim1 (max_count * delta) ;;
  st <- for_each (py_range 0 max_count)
          (rolling_step draws dense_mat start_time delta rank d lambda0 rho season maxiter)
          (mk_rolling mat_hat sparse_mat None None None None) ;;
  let small_dense_mat := slice_cols zero dense_mat start_time T in
  pos <- (B <- logical_and (nonzero small_dense_mat) (invert (isnan small_dense_mat)) ;;
          Ok (np_where B)) ;;
  _ <- take_at zero small_dense_mat pos ;;
  _ <- take_at zero (r_mat_hat st) pos ;;
  W <- read_local "W" (r_W st) ;;
  X <- read_local "X" (r_X st) ;;
  A <- read_local "A" (r_A st) ;;
  Ok (r_mat_hat st, W, X, A).

End Defs.
End NoTMF.

(** ** IEEE binary64, the scalars of numpy *)

Module Float64.

#[export] Instance float_scalar : Scalar PrimFloat.float := {|
  zero := 0%float;
  one := 1%float;
  add := PrimFloat.add;
  sub := PrimFloat.sub;
  mul := PrimFloat.mul;
  div := PrimFloat.div;
  opp := PrimFloat.opp;
  hundredth := 0x1.47ae147ae147bp-7%float;
  is_zero := fun x => PrimFloat.eqb x 0%float;
  is_nan := PrimFloat.is_nan
|}.

(** The pseudoinverse in closed form, where there is one: an array with
    no row or no column, and an array [v] with a single row or column,
    whose pseudoinverse is [v.T / (v . v)] (and zero for [v = 0]).  The
    other shapes are outside this instance, which the runs below stay
    within. *)
Definition pinv_vector (M : ndarray PrimFloat.float) : result (ndarray PrimFloat.float) :=
  if any (isnan M) then Raise LinAlgError
  else if (nrows M =? 0) || (ncols M =? 0) || (nrows M =? 1) || (ncols M =? 1) then
    let n2 := sum_to (nrows M) (fun i =>
                sum_to (ncols M) (fun j => mul (get zero M i j) (get zero M i j))) in
    Ok (tab (ncols M) (nrows M) (fun i j =>
          if is_zero n2 then zero else div (get zero M j i) n2))
  else Raise LinAlgError.

#[export] Instance float_linalg : LinAlg PrimFloat.float := {| pinv := pinv_vector |}.

Fixpoint float_of_nat (n : nat) : PrimFloat.float :=
  match n with
  | O => 0%float
  | S k => PrimFloat.add (float_of_nat k) 1%float
  end.

(** A fixed sequence of samples for the runs. *)
Definition draws (n : nat) : PrimFloat.float :=
  PrimFloat.div (PrimFloat.sub (float_of_nat (Nat.modulo (5 * n + 2) 7)) 3%float) 2%float.

(** An array from its rows. *)
Definition of_rows (l : list (list PrimFloat.float)) : ndarray PrimFloat.float :=
  mk_array (length l) (length (hd [] l)) l.

(** Two series over eight steps, with an entry missing in each. *)
Definition Y : ndarray PrimFloat.float :=
  of_rows [[1; 2; 3; 0; 5; 6; 7; 8]; [2; 0; 6; 8; 10; 12; 14; 16]]%float.

(** One factor over three steps, and the coefficient that doubles it. *)
Definition X3 : ndarray PrimFloat.float := of_rows [[1; 2; 3]]%float.
Definition A3 : ndarray PrimFloat.float := of_rows [[2]]%float.

(** One series with nothing observed, and a start for its factors. *)
Definition Y0 : ndarray PrimFloat.float := of_rows [[0; 0]]%float.
Definition W1 : ndarray PrimFloat.float := of_rows [[1]]%float.
Definition X1 : ndarray PrimFloat.float := of_rows [[1; 1]]%float.

(** One factor over four steps. *)
Definition X4 : ndarray PrimFloat.float := of_rows [[1; 2; 3; 4]]%float.

End Float64.

(** ** The operators and the stack in closed form

    What the statements below compare the code with. *)

Section ClosedForms.
Context {F : Type} {SF : Scalar F}.

(** The operator of lag [k] for a VAR of order [d] on [T] steps: row [i]
    selects column [i + (d - k)]. *)
Definition plain_Psi (T d k : Z) : ndarray F :=
  tab (Z.to_nat (T - d)) (Z.to_nat T)
    (fun i j => if j =? i + Z.to_nat (d - k) then one else zero).

(** The same with a season [m]: row [i] holds [-1] in column [i + (d - k)]
    and [+1] in column [i + (d - k) + m]. *)
Definition seasonal_Psi (T d m k : Z) : ndarray F :=
  tab (Z.to_nat (T - d - m)) (Z.to_nat T)
    (fun i j => if j =? i + Z.to_nat (d - k) then opp one
                else if j =? i + Z.to_nat (d - k) + Z.to_nat m then one
                else zero).

(** The seasonal operator as [generate_Psi(T, d, m)] computes it: the sum
    of the blocks [-1 * I | 0] and [0 | I], which start at column [d - k]. *)
Definition seasonal_block_entry (n m i j : nat) : F :=
  add (if j <? n then mul (opp one) (if i =? j then one else zero) else zero)
      (if j <? m then zero else if i =? j - m then one else zero).

Definition computed_Psi (T d m k : Z) : ndarray F :=
  let n := Z.to_nat (T - d - m) in
  let dk := Z.to_nat (d - k) in
  tab n (Z.to_nat T)
    (fun i j => if (dk <=? j) && (j <? dk + (n + Z.to_nat m))
                then seasonal_block_entry n (Z.to_nat m) i (j - dk)
                else zero).

(** The arithmetic that building the seasonal operators goes through. *)
Record sign_laws : Prop := {
  minus_one_plus_zero : add (mul (opp one) one) zero = opp one;
  minus_zero_plus_one : add (mul (opp one) zero) one = one;
  zero_plus_one : add zero one = one;
  minus_zero_plus_zero : add (mul (opp one) zero) zero = zero;
  zero_plus_zero : add zero zero = zero;
  one_not_zero : one <> zero;
  minus_one_not_zero : opp one <> zero;
  minus_one_not_one : opp one <> one
}.

(** Column [j] of an array, and the columns [j - 1], ..., [j - d] one
    after the other, the most recent first. *)
Definition column (M : ndarray F) (j : nat) : list F :=
  map (fun i => get zero M i j) (seq 0 (nrows M)).

Definition lags (M : ndarray F) (j d : nat) : list F :=
  flat_map (fun k => column M (j - k)) (seq 1 d).

(** What the loop of [var4cast] has established after [t] steps: the
    array extends [X] by [delta] columns, of which the first [t] are the
    forecasts. *)
Definition forecast_upto (X A : ndarray F) (d delta : nat) (t : nat) (M : ndarray F)
  : Prop :=
  has_shape M (nrows X) (ncols X + delta) /\
  (forall i j, i < nrows X -> j < ncols X -> get zero M i j = get zero X i j) /\
  (forall s, s < t -> matvec A (lags M (ncols X + s) d) = Ok (column M (ncols X + s))).




(** The length shared by the vectors of a solver state. *)
Definition cg_lengths (n : nat) (st : cg_state (F := F)) : Prop :=
  let '(w, r, q, _) := st in length w = n /\ length r = n /\ length q = n.

End ClosedForms.

(** ** Exact arithmetic

    The rationals stand for the arithmetic without rounding, where the
    products with the temporal operators can be read off. *)

Module Exact.

#[export] Instance rational_scalar : Scalar Qcanon.Qc := {|
  zero := Qcanon.Q2Qc (QArith_base.Qmake 0 1);
  one := Qcanon.Q2Qc (QArith_base.Qmake 1 1);
  add := Qcanon.Qcplus;
  sub := Qcanon.Qcminus;
  mul := Qcanon.Qcmult;
  div := Qcanon.Qcdiv;
  opp := Qcanon.Qcopp;
  hundredth := Qcanon.Q2Qc (QArith_base.Qmake 1 100);
  is_zero := fun x =>
    if Qcanon.Qc_eq_dec x (Qcanon.Q2Qc (QArith_base.Qmake 0 1)) then true else false;
  is_nan := fun _ => false
|}.

Definition of_Z (z : Z) : Qcanon.Qc := Qcanon.Q2Qc (QArith_base.inject_Z z).

(** One factor over five steps: 1, 4, 9, 16, 25. *)
Definition X5 : ndarray Qcanon.Qc :=
  tab 1 5 (fun _ j => of_Z ((Z.of_nat j + 1) * (Z.of_nat j + 1))).

End Exact.

Section ExactArithmetic.
Context {F : Type} {SF : Scalar F}.

(** The laws of exact arithmetic that a product with a temporal operator
    goes through.  IEEE arithmetic has them on finite entries up to the
    sign of zero, and not on NaN or infinite entries. *)
Record exact_laws : Prop := {
  add_zero_l : forall x, add zero x = x;
  add_zero_r : forall x, add x zero = x;
  mul_zero_r : forall x, mul x zero = zero;
  mul_one_r : forall x, mul x one = x;
  mul_minus_one_r : forall x, mul x (opp one) = opp x;
  add_opp_l : forall x y, add (opp x) y = sub y x
}.

End ExactArithmetic.

(** ** What the fits and the rolling forecast keep *)

Section Kept.
Context {F : Type} {SF : Scalar F}.

(** A mask [ind] and the data [obs'] that go to the solver, for the data
    [obs] that the fit was given: no NaN is left, the entries that the
    mask keeps are those of [obs], and the others are zero. *)
Definition masked (obs : ndarray F) (ind : ndarray bool) (obs' : ndarray F) : Prop :=
  nrows ind = nrows obs /\ ncols ind = ncols obs /\
  nrows obs' = nrows obs /\ ncols obs' = ncols obs /\
  forall i j, i < nrows obs -> j < ncols obs ->
    is_nan (get zero obs' i j) = false /\
    (get false ind i j = false -> is_zero (get zero obs' i j) = true) /\
    (get false ind i j = true -> get zero obs' i j = get zero obs i j) /\
    (is_nan (get zero obs i j) = false -> get zero obs' i j = get zero obs i j).

(** What a pass of the loop of [notmf] leaves. *)
Definition fitted (rank dim1 dim2 : nat) (st : fit_state F) : Prop :=
  let '(W, X, A, _, mat_hat) := st in
  nrows W = rank /\ ncols W = dim1 /\ nrows X = rank /\ ncols X = dim2 /\
  forall M, mat_hat = Some M ->
    wf W /\ wf X /\ nrows A = rank /\ matmul (transpose zero W) X = Ok M.

(** What the second loop of the seasonal [var4cast] has established after
    [t] steps: the array extends [X] by [delta] columns, of which the first
    [t] are the column one season earlier plus the forecast difference. *)
Definition integrated_upto (X X_hat : ndarray F) (m delta t : nat) (M : ndarray F)
  : Prop :=
  has_shape M (nrows X) (ncols X + delta) /\
  (forall i j, i < nrows X -> j < ncols X -> get zero M i j = get zero X i j) /\
  (forall s i, s < t -> i < nrows X ->
     get zero M i (ncols X + s)
     = add (get zero M i (ncols X - m + s)) (get zero X_hat i (ncols X - m + s))).

(** The shapes that the loop of [rolling4cast] keeps.  Before the first
    step the data is the caller's; after [t >= 1] steps, [W] is
    [(rank, dim1)], the last fit [X] has the columns of the first window
    and [delta] more for every step before the last one made, and [X_new]
    has [delta] more. *)
Definition rolled (sparse_mat : ndarray F) (start_time : Z) (rank delta width : nat)
  (t : nat) (st : NoTMF.rolling_state F) : Prop :=
  let c0 := ncols (slice_cols_to zero sparse_mat start_time) in
  has_shape (NoTMF.r_mat_hat st) (nrows sparse_mat) width /\
  match t with
  | 0 => NoTMF.r_sparse st = sparse_mat
  | S t' =>
      exists W X A X_new,
        NoTMF.r_W st = Some W /\ NoTMF.r_X st = Some X /\ NoTMF.r_A st = Some A /\
        NoTMF.r_X_new st = Some X_new /\
        has_shape W rank (nrows sparse_mat) /\
        has_shape X rank (c0 + t' * delta) /\
        nrows A = rank /\
        has_shape X_new rank (c0 + t * delta)
  end.

(** An array whose NaN entries in the first [e] columns are overwritten
    with 0. *)
Definition nan_cleared (M : ndarray F) (e : nat) : ndarray F :=
  tab (nrows M) (ncols M)
    (fun i j => if j <? e
                then (if is_nan (get zero M i j) then zero else get zero M i j)
                else get zero M i j).

(** Two results that raise the same, or return values that [R] relates. *)
Definition same_upto {A : Type} (R : A -> A -> Prop) (r1 r2 : result A) : Prop :=
  match r1, r2 with
  | Ok a, Ok b => R a b
  | Raise e1, Raise e2 => e1 = e2
  | _, _ => False
  end.

(** Two states of the loop of [rolling4cast] that differ at most in the
    data from column [B] on. *)
Definition agree (B : nat) (s1 s2 : NoTMF.rolling_state F) : Prop :=
  NoTMF.r_mat_hat s1 = NoTMF.r_mat_hat s2 /\
  NoTMF.r_W s1 = NoTMF.r_W s2 /\ NoTMF.r_X s1 = NoTMF.r_X s2 /\
  NoTMF.r_A s1 = NoTMF.r_A s2 /\ NoTMF.r_X_new s1 = NoTMF.r_X_new s2 /\
  nrows (NoTMF.r_sparse s1) = nrows (NoTMF.r_sparse s2) /\
  ncols (NoTMF.r_sparse s1) = ncols (NoTMF.r_sparse s2) /\
  forall i j, i < nrows (NoTMF.r_sparse s1) -> j < ncols (NoTMF.r_sparse s1) -> j < B ->
    get zero (NoTMF.r_sparse s1) i j = get zero (NoTMF.r_sparse s2) i j.

End Kept.

(** ** The error measures

    [np.abs], [np.sqrt] and [np.sum] are numpy's; the order in which
    [np.sum] adds is numpy's own, so the sum is a parameter.  [of_int] is
    the conversion of a Python integer that divides a float. *)

Class Metric (F : Type) : Type := {
  np_abs : F -> F;
  np_sqrt : F -> F;
  np_sum : list F -> F;
  of_int : Z -> F
}.

Section Evaluation.
Context {F : Type} {SF : Scalar F} {MF : Metric F}.

Definition vdiv : list F -> list F -> result (list F) := vbroadcast2 div.

(** [np.sum(np.abs(var - var_hat) / var) / var.shape[0]] *)
Definition compute_mape (var var_hat : list F) : result F :=
  e <- vsub var var_hat ;;
  q <- vdiv (map np_abs e) var ;;
  Ok (div (np_sum q) (of_int (Z.of_nat (length var)))).

(** [np.sqrt(np.sum((var - var_hat) ** 2) / var.shape[0])] *)
Definition compute_rmse (var var_hat : list F) : result F :=
  e <- vsub var var_hat ;;
  Ok (np_sqrt (div (np_sum (map (fun x => mul x x) e)) (of_int (Z.of_nat (length var))))).

(** The two measures that [rolling4cast] prints before it returns. *)
Definition forecast_report (dense_mat mat_hat : ndarray F) (start_time T : Z)
  : result (F * F) :=
  let small_dense_mat := slice_cols zero dense_mat start_time T in
  B <- logical_and (nonzero small_dense_mat) (invert (isnan small_dense_mat)) ;;
  let pos := np_where B in
  var <- take_at zero small_dense_mat pos ;;
  var_hat <- take_at zero mat_hat pos ;;
  mape <- compute_mape var var_hat ;;
  var <- take_at zero small_dense_mat pos ;;
  var_hat <- take_at zero mat_hat pos ;;
  rmse <- compute_rmse var var_hat ;;
  Ok (mape, rmse).

(** The two measures in closed form, on arrays of one length. *)
Definition mape_of (var var_hat : list F) : F :=
  div (np_sum (map (fun i => div (np_abs (sub (nth i var zero) (nth i var_hat zero)))
                                 (nth i var zero))
                 (seq 0 (length var))))
      (of_int (Z.of_nat (length var))).

Definition rmse_of (var var_hat : list F) : F :=
  np_sqrt (div (np_sum (map (fun i => mul (sub (nth i var zero) (nth i var_hat zero))
                                          (sub (nth i var zero) (nth i var_hat zero)))
                          (seq 0 (length var))))
               (of_int (Z.of_nat (length var)))).

End Evaluation.

(** The series of [Y] with other values at the last step. *)
Definition Y_last : ndarray PrimFloat.float :=
  Float64.of_rows [[1; 2; 3; 0; 5; 6; 7; 80]; [2; 0; 6; 8; 10; 12; 14; 0]]%float.

(** A series with missing steps marked by NaN, and the same series with
    the marks of its first seven steps replaced by 0. *)
Definition Y_gaps : ndarray PrimFloat.float :=
  Float64.of_rows [[1; 2; nan; 0; 5; 6; 7; 8]; [2; 0; 6; 8; 10; nan; 14; nan]]%float.

Definition Y_filled : ndarray PrimFloat.float :=
  Float64.of_rows [[1; 2; 0; 0; 5; 6; 7; 8]; [2; 0; 6; 8; 10; 0; 14; nan]]%float.

(** The measures on binary64, the sum taken in index order. *)
#[global] Instance float_metric : Metric PrimFloat.float := {|
  np_abs := PrimFloat.abs;
  np_sqrt := PrimFloat.sqrt;
  np_sum := fun l => fold_left PrimFloat.add l 0%float;
  of_int := fun z => match z with
                     | Z0 => 0%float
                     | Zpos p => Float64.float_of_nat (Pos.to_nat p)
                     | Zneg p => PrimFloat.opp (Float64.float_of_nat (Pos.to_nat p))
                     end
|}.

(** * Properties *)

Unset Implicit Arguments.

(** ** Results, loops and ranges *)

Lemma bind_ok {A B : Type} (a : A) (k : A -> result B) : bind (Ok a) k = k a.
Proof. reflexivity. Qed.

Lemma bind_raise {A B : Type} (e : exn) (k : A -> result B) : bind (Raise e) k = Raise e.
Proof. reflexivity. Qed.

Lemma bind_inv {A B : Type} (m : result A) (k : A -> result B) (b : B) :
  bind m k = Ok b -> exists a, m = Ok a /\ k a = Ok b.
Proof.
  destruct m as [a|e]; simpl; intro H.
  - exists a; split; [reflexivity | exact H].
  - discriminate H.
Qed.

Lemma for_each_app {I S : Type} (l1 l2 : list I) (body : I -> S -> result S) (s : S) :
  for_each (l1 ++ l2) body s = bind (for_each l1 body s) (for_each l2 body).
Proof.
  revert s; induction l1 as [|i l1 IH]; intro s; simpl.
  - reflexivity.
  - destruct (body i s) as [s'|e]; simpl; [apply IH | reflexivity].
Qed.

(** An invariant of the loop holds of its final state. *)
Lemma for_each_invariant {I S : Type} (Inv : S -> Prop) (l : list I)
  (body : I -> S -> result S) :
  (forall i s s', In i l -> Inv s -> body i s = Ok s' -> Inv s') ->
  forall s s', Inv s -> for_each l body s = Ok s' -> Inv s'.
Proof.
  induction l as [|i l IH]; intros Hstep s s' Hs Hrun; simpl in Hrun.
  - injection Hrun as <-; exact Hs.
  - destruct (body i s) as [s1|e] eqn:Hb; [|discriminate Hrun].
    apply (IH (fun j t t' Hj => Hstep j t t' (or_intror Hj)) s1 s').
    + apply (Hstep i s s1); [left; reflexivity | exact Hs | exact Hb].
    + exact Hrun.
Qed.

Lemma py_range_nil (a b : Z) : (b <= a)%Z -> py_range a b = [].
Proof.
  intro H; unfold py_range.
  replace (Z.to_nat (b - a)) with 0 by lia; reflexivity.
Qed.

Lemma py_range_cons (a b : Z) : (a < b)%Z -> py_range a b = a :: py_range (a + 1) b.
Proof.
  intro H; unfold py_range.
  replace (Z.to_nat (b - a)) with (S (Z.to_nat (b - (a + 1)))) by lia.
  simpl; f_equal; [lia|].
  rewrite <- seq_shift, map_map.
  apply map_ext; intro i; lia.
Qed.

Lemma py_range_snoc (a b : Z) : (a <= b)%Z -> py_range a (b + 1) = py_range a b ++ [b].
Proof.
  intro H; unfold py_range.
  replace (Z.to_nat (b + 1 - a)) with (Z.to_nat (b - a) + 1) by lia.
  rewrite seq_app, map_app; simpl.
  do 2 f_equal; lia.
Qed.

Lemma py_range_length (a b : Z) : length (py_range a b) = Z.to_nat (b - a).
Proof. unfold py_range; rewrite length_map, length_seq; reflexivity. Qed.

Lemma py_range_In (a b k : Z) : In k (py_range a b) <-> (a <= k < b)%Z.
Proof.
  unfold py_range; rewrite in_map_iff; split.
  - intros [i [<- Hi]]; apply in_seq in Hi; lia.
  - intro H; exists (Z.to_nat (k - a)); split; [lia | apply in_seq; lia].
Qed.

Lemma py_range_nat (n : nat) :
  py_range 0 (Z.of_nat n) = map Z.of_nat (seq 0 n).
Proof.
  unfold py_range; rewrite Z.sub_0_r, Nat2Z.id.
  apply map_ext; intro i; lia.
Qed.

(** ** Arrays built by [tab] *)

Lemma tab_wf {A : Type} (r c : nat) (f : nat -> nat -> A) : wf (tab r c f).
Proof.
  split; simpl.
  - rewrite length_map, length_seq; reflexivity.
  - apply Forall_forall; intros x Hx.
    apply in_map_iff in Hx; destruct Hx as [i [<- _]].
    rewrite length_map, length_seq; reflexivity.
Qed.

Lemma tab_shape {A : Type} (r c : nat) (f : nat -> nat -> A) : has_shape (tab r c f) r c.
Proof. split; [apply tab_wf | split; reflexivity]. Qed.

Lemma get_tab {A : Type} (dflt : A) (r c : nat) (f : nat -> nat -> A) (i j : nat) :
  i < r -> j < c -> get dflt (tab r c f) i j = f i j.
Proof.
  intros Hi Hj; unfold get, tab; simpl.
  rewrite (nth_indep _ [] (map (f 0) (seq 0 c))).
  2:{ rewrite length_map, length_seq; exact Hi. }
  rewrite (map_nth (fun i => map (f i) (seq 0 c)) (seq 0 r) 0 i), seq_nth by exact Hi.
  simpl.
  rewrite (nth_indep _ dflt (f i 0)).
  2:{ rewrite length_map, length_seq; exact Hj. }
  rewrite (map_nth (f i) (seq 0 c) 0 j), seq_nth by exact Hj.
  reflexivity.
Qed.

Lemma tab_ext {A : Type} (r c : nat) (f g : nat -> nat -> A) :
  (forall i j, i < r -> j < c -> f i j = g i j) -> tab r c f = tab r c g.
Proof.
  intro H; unfold tab; f_equal.
  apply map_ext_in; intros i Hi; apply in_seq in Hi.
  apply map_ext_in; intros j Hj; apply in_seq in Hj.
  apply H; lia.
Qed.

Lemma list_eq_nth_map {A : Type} (dflt : A) (l : list A) :
  map (fun i => nth i l dflt) (seq 0 (length l)) = l.
Proof.
  induction l as [|a l IH]; simpl; [reflexivity|].
  f_equal. rewrite <- seq_shift, map_map. exact IH.
Qed.

(** A well-formed array is the table of its entries. *)
Lemma tab_get {A : Type} (dflt : A) (M : ndarray A) :
  wf M -> tab (nrows M) (ncols M) (get dflt M) = M.
Proof.
  destruct M as [r c rs]; unfold wf, tab, get; simpl; intros [Hr Hc].
  f_equal; subst r.
  rewrite <- (list_eq_nth_map [] rs) at 2.
  apply map_ext_in; intros i Hi; apply in_seq in Hi.
  assert (Hlen : length (nth i rs []) = c).
  { rewrite Forall_forall in Hc; apply Hc, nth_In; lia. }
  rewrite <- Hlen; apply list_eq_nth_map.
Qed.

Lemma wfb_wf {A : Type} (M : ndarray A) : wfb M = true -> wf M.
Proof.
  unfold wfb, wf; intro H; apply andb_prop in H; destruct H as [H1 H2]; split.
  - apply Nat.eqb_eq; exact H1.
  - apply Forall_forall; intros x Hx.
    rewrite forallb_forall in H2; apply Nat.eqb_eq, H2, Hx.
Qed.

(** ** Shapes of the array operations *)

Lemma slice_bound_nonneg (n : nat) (i : Z) :
  (0 <= i)%Z -> slice_bound n i = Z.to_nat (Z.min i (Z.of_nat n)).
Proof.
  intro H; unfold slice_bound.
  destruct (Z.ltb_spec i 0); [lia | reflexivity].
Qed.

Lemma slice_bound_neg (n : nat) (i : Z) :
  (i < 0)%Z -> slice_bound n i = Z.to_nat (Z.max (i + Z.of_nat n) 0).
Proof.
  intro H; unfold slice_bound.
  destruct (Z.ltb_spec i 0); [reflexivity | lia].
Qed.

Lemma bdim_same (a : nat) : bdim a a = Ok a.
Proof. unfold bdim; rewrite Nat.eqb_refl; reflexivity. Qed.

Lemma np_zeros_nat {F : Type} {SF : Scalar F} (r c : nat) :
  np_zeros (Z.of_nat r) (Z.of_nat c) = Ok (tab r c (fun _ _ => zero)).
Proof.
  unfold np_zeros.
  destruct (Z.ltb_spec (Z.of_nat r) 0); [lia|].
  destruct (Z.ltb_spec (Z.of_nat c) 0); [lia|].
  simpl; rewrite !Nat2Z.id; reflexivity.
Qed.

Lemma np_zeros_ok {F : Type} {SF : Scalar F} (r c : Z) :
  (0 <= r)%Z -> (0 <= c)%Z ->
  np_zeros r c = Ok (tab (Z.to_nat r) (Z.to_nat c) (fun _ _ => zero)).
Proof.
  intros Hr Hc; unfold np_zeros.
  destruct (Z.ltb_spec r 0); [lia|].
  destruct (Z.ltb_spec c 0); [lia|].
  reflexivity.
Qed.

Lemma np_zeros_negative {F : Type} {SF : Scalar F} (r c : Z) :
  (r < 0 \/ c < 0)%Z -> np_zeros (F := F) r c = Raise ValueError.
Proof.
  intro H; unfold np_zeros.
  destruct (Z.ltb_spec r 0); [reflexivity|].
  destruct (Z.ltb_spec c 0); [reflexivity|lia].
Qed.

Lemma np_eye_ok {F : Type} {SF : Scalar F} (n : Z) :
  (0 <= n)%Z ->
  np_eye n = Ok (tab (Z.to_nat n) (Z.to_nat n) (fun i j => if i =? j then one else zero)).
Proof.
  intro H; unfold np_eye.
  destruct (Z.ltb_spec n 0); [lia | reflexivity].
Qed.

(** Appending no column leaves a well-formed array as it is. *)
Lemma append_cols_none {A : Type} (da : A) (M N : ndarray A) :
  wf M -> nrows N = nrows M -> ncols N = 0 -> append_cols da M N = Ok M.
Proof.
  intros HM Hr Hc; unfold append_cols.
  rewrite Hr, Nat.eqb_refl, Hc, Nat.add_0_r.
  f_equal.
  transitivity (tab (nrows M) (ncols M) (get da M)); [|apply tab_get; exact HM].
  apply tab_ext; intros i j Hi Hj.
  destruct (Nat.ltb_spec j (ncols M)); [reflexivity | lia].
Qed.

Lemma cols_between_all {A : Type} (da : A) (M : ndarray A) :
  wf M -> cols_between da M 0 (ncols M) = M.
Proof.
  intro HM; unfold cols_between.
  rewrite Nat.sub_0_r.
  transitivity (tab (nrows M) (ncols M) (get da M)); [|apply tab_get; exact HM].
  apply tab_ext; intros; reflexivity.
Qed.

(** ** C9: a forecast over no step *)

Lemma var4cast_plain_zero {F : Type} {SF : Scalar F} (X A : ndarray F) (d : Z) :
  wf X -> TMF.var4cast X A d 0 = Ok X.
Proof.
  intro HX; unfold TMF.var4cast.
  change 0%Z with (Z.of_nat 0) at 1.
  rewrite np_zeros_nat, bind_ok.
  rewrite append_cols_none by (solve [exact HX | reflexivity]).
  rewrite bind_ok, py_range_nil by lia.
  simpl for_each; rewrite bind_ok.
  f_equal; unfold slice_cols_from, slice_bound; simpl.
  replace (Z.to_nat (Z.min 0 (Z.of_nat (ncols X)))) with 0%nat by lia.
  apply cols_between_all; exact HX.
Qed.

Lemma var4cast_seasonal_zero {F : Type} {SF : Scalar F} (X A : ndarray F)
  (d season : Z) :
  wf X -> (0 < season)%Z -> NoTMF.var4cast X A d 0 season = Ok X.
Proof.
  intros HX Hs; unfold NoTMF.var4cast.
  unfold mat_sub, broadcast2, slice_cols_from, slice_cols_to, cols_between; simpl.
  rewrite bdim_same, bind_ok.
  replace (slice_bound (ncols X) (- season) - 0)
    with (ncols X - slice_bound (ncols X) season)
    by (rewrite (@slice_bound_neg (ncols X) (- season)),
          (@slice_bound_nonneg (ncols X) season); lia).
  rewrite bdim_same, !bind_ok.
  change 0%Z with (Z.of_nat 0).
  rewrite !np_zeros_nat, !bind_ok.
  unfold append_cols at 1; simpl; rewrite Nat.eqb_refl, bind_ok.
  rewrite append_cols_none by (solve [exact HX | reflexivity]).
  reflexivity.
Qed.

(** C9. With [delta = 0] the VAR extrapolation returns the fitted [X] as
    it is: [var4cast(X, A, d, 0)] on the path without season, and
    [var4cast(X, A, d, 0, season)] with a season [m > 0]. *)
Theorem var4cast_zero_horizon :
  forall (F : Type) (SF : Scalar F) (X A : ndarray F) (d : Z),
    wf X ->
    TMF.var4cast X A d 0 = Ok X /\
    (forall season : Z, (0 < season)%Z -> NoTMF.var4cast X A d 0 season = Ok X).
Proof.
  intros F SF X A d HX; split.
  - apply var4cast_plain_zero; exact HX.
  - intros season Hs; apply var4cast_seasonal_zero; assumption.
Qed.

Lemma matmul_ok {F : Type} {SF : Scalar F} (M N : ndarray F) :
  ncols M = nrows N -> matmul M N = Ok (mat_product M N).
Proof. intro H; unfold matmul; rewrite H, Nat.eqb_refl; reflexivity. Qed.

Lemma broadcast2_same {A B C : Type} (da : A) (db : B) (f : A -> B -> C)
  (M : ndarray A) (N : ndarray B) :
  nrows M = nrows N -> ncols M = ncols N ->
  exists P, broadcast2 da db f M N = Ok P /\ nrows P = nrows M /\ ncols P = ncols M.
Proof.
  intros Hr Hc; unfold broadcast2.
  rewrite <- Hr, <- Hc, !bdim_same; simpl.
  eexists; split; [reflexivity | split; reflexivity].
Qed.

Lemma length_flat_map_const {A B : Type} (f : A -> list B) (n : nat) (l : list A) :
  (forall x, In x l -> length (f x) = n) -> length (flat_map f l) = length l * n.
Proof.
  induction l as [|a l IH]; intro H; simpl; [reflexivity|].
  rewrite length_app, (H a) by (left; reflexivity).
  rewrite IH by (intros x Hx; apply H; right; exact Hx).
  reflexivity.
Qed.

Lemma nth_flat_map_const {A B : Type} (f : A -> list B) (n : nat) (l : list A)
  (da : A) (db : B) (j i : nat) :
  (forall x, length (f x) = n) -> j < length l -> i < n ->
  nth (j * n + i) (flat_map f l) db = nth i (f (nth j l da)) db.
Proof.
  intros Hf; revert j; induction l as [|a l IH]; intros j Hj Hi; simpl in *; [lia|].
  destruct j as [|j]; simpl.
  - rewrite app_nth1 by (rewrite Hf; exact Hi); reflexivity.
  - rewrite app_nth2 by (rewrite Hf; lia).
    rewrite Hf.
    replace (n + j * n + i - n) with (j * n + i) by lia.
    apply IH; [lia | exact Hi].
Qed.

Lemma ravel_F_length {A : Type} (da : A) (M : ndarray A) :
  length (ravel_F da M) = ncols M * nrows M.
Proof.
  unfold ravel_F.
  rewrite (length_flat_map_const _ (nrows M) _).
  - rewrite length_seq; reflexivity.
  - intros x _; rewrite length_map, length_seq; reflexivity.
Qed.

Lemma ravel_F_nth {A : Type} (da : A) (M : ndarray A) (i j : nat) :
  i < nrows M -> j < ncols M -> nth (j * nrows M + i) (ravel_F da M) da = get da M i j.
Proof.
  intros Hi Hj; unfold ravel_F.
  rewrite (nth_flat_map_const _ (nrows M) _ 0 da j i).
  - rewrite seq_nth by exact Hj; simpl.
    rewrite (nth_indep _ da (get da M 0 j)) by (rewrite length_map, length_seq; exact Hi).
    rewrite (map_nth (fun i => get da M i j) (seq 0 (nrows M)) 0 i), seq_nth by exact Hi.
    reflexivity.
  - intro x; rewrite length_map, length_seq; reflexivity.
  - rewrite length_seq; exact Hj.
  - exact Hi.
Qed.

(** Flattening by columns and reshaping back is the identity. *)
Lemma reshape_F_ravel_F {A : Type} (da : A) (M : ndarray A) :
  wf M -> reshape_F da (ravel_F da M) (nrows M) (ncols M) = Ok M.
Proof.
  intro HM; unfold reshape_F.
  rewrite ravel_F_length, (Nat.mul_comm (ncols M)), Nat.eqb_refl.
  f_equal.
  transitivity (tab (nrows M) (ncols M) (get da M)); [|apply tab_get; exact HM].
  apply tab_ext; intros i j Hi Hj.
  apply ravel_F_nth; assumption.
Qed.

Lemma reshape_F_ok {A : Type} (da : A) (v : list A) (r c : nat) :
  length v = c * r ->
  exists Q, reshape_F da v r c = Ok Q /\ nrows Q = r /\ ncols Q = c.
Proof.
  intro H; unfold reshape_F.
  rewrite H, (Nat.mul_comm c), Nat.eqb_refl.
  eexists; split; [reflexivity | split; reflexivity].
Qed.

Lemma reshape_F_shape {A : Type} (da : A) (v : list A) (r c : nat) (Q : ndarray A) :
  reshape_F da v r c = Ok Q -> has_shape Q r c.
Proof.
  unfold reshape_F; destruct (length v =? r * c); intro H; [|discriminate H].
  injection H as <-; apply tab_shape.
Qed.

Lemma inner_ok {F : Type} {SF : Scalar F} (u v : list F) :
  length u = length v ->
  inner u v = Ok (sum_to (length u) (fun k => mul (nth k u zero) (nth k v zero))).
Proof. intro H; unfold inner; rewrite H, Nat.eqb_refl; reflexivity. Qed.

Lemma vbroadcast2_same {F : Type} {SF : Scalar F} (f : F -> F -> F) (u v : list F) :
  length u = length v ->
  exists w, vbroadcast2 f u v = Ok w /\ length w = length u.
Proof.
  intro H; unfold vbroadcast2.
  rewrite <- H, bdim_same; simpl.
  eexists; split; [reflexivity|].
  rewrite length_map, length_seq; reflexivity.
Qed.

Lemma vscale_length {F : Type} {SF : Scalar F} (a : F) (v : list F) :
  length (vscale a v) = length v.
Proof. apply length_map. Qed.

(** The W-operator is defined on conforming shapes. *)
Lemma ell_w_total {F : Type} {SF : Scalar F} (ind : ndarray bool) (W X : ndarray F)
  (rho : F) :
  nrows X = nrows W -> nrows ind = ncols W -> ncols ind = ncols X ->
  exists L, ell_w ind W X rho = Ok L /\ nrows L = nrows W /\ ncols L = ncols W.
Proof.
  intros HX Hi1 Hi2; unfold ell_w.
  rewrite matmul_ok by (simpl; symmetry; exact HX).
  rewrite bind_ok; unfold mask_mul.
  destruct (broadcast2_same zero false (fun x (b : bool) => mul x (if b then one else zero))
              (mat_product (transpose zero W) X) ind) as [P [HP [HPr HPc]]];
    [simpl; symmetry; exact Hi1 | simpl; symmetry; exact Hi2 |].
  rewrite HP, bind_ok.
  rewrite matmul_ok by (simpl; rewrite HPc; reflexivity).
  rewrite bind_ok; unfold mat_add.
  destruct (broadcast2_same zero zero add (mat_product X (transpose zero P)) (scale rho W))
    as [L [HL [HLr HLc]]];
    [simpl; exact HX | simpl; rewrite HPr; reflexivity |].
  exists L; split; [exact HL|].
  simpl in HLr, HLc; rewrite HLr, HLc, HPr; split; [exact HX | reflexivity].
Qed.

(** ** The conjugate-gradient solver *)

Lemma for_each_total {I S : Type} (Inv : S -> Prop) (l : list I)
  (body : I -> S -> result S) :
  (forall i s, Inv s -> exists s', body i s = Ok s' /\ Inv s') ->
  forall s, Inv s -> exists s', for_each l body s = Ok s' /\ Inv s'.
Proof.
  intro Hstep; induction l as [|i l IH]; intros s Hs; simpl.
  - exists s; split; [reflexivity | exact Hs].
  - destruct (Hstep i s Hs) as [s1 [Hb Hs1]]; rewrite Hb.
    apply IH; exact Hs1.
Qed.

(** A loop whose first pass raises, raises. *)
Lemma for_each_first_raises {I S : Type} (i : I) (l : list I)
  (body : I -> S -> result S) (s : S) (e : exn) :
  body i s = Raise e -> for_each (i :: l) body s = Raise e.
Proof. intro H; simpl; rewrite H; reflexivity. Qed.

(** Splits a goal [exists e, (x <- m ;; k) = Raise e] on the result of [m]. *)
Ltac step_raise :=
  match goal with
  | |- exists e, bind ?m _ = Raise e =>
      destruct m; simpl bind; [| eexists; reflexivity]
  end.

(** [update_cg], as the second part of the notebook writes it, has no
    failing branch: on vectors of one length it returns the updated state. *)
Lemma update_cg_total {F : Type} {SF : Scalar F} (var r q Aq : list F) (rold : F) (n : nat) :
  length var = n -> length r = n -> length q = n -> length Aq = n ->
  exists x var' r' rnew q',
    inner q Aq = Ok x /\
    vadd var (vscale (div rold x) q) = Ok var' /\
    vsub r (vscale (div rold x) Aq) = Ok r' /\
    inner r' r' = Ok rnew /\
    vadd r' (vscale (div rnew rold) q) = Ok q' /\
    NoTMF.update_cg var r q Aq rold = Ok (var', r', q', rnew) /\
    cg_lengths n (var', r', q', rnew).
Proof.
  intros Hv Hr Hq HA.
  set (x := sum_to (length q) (fun k => mul (nth k q zero) (nth k Aq zero))).
  assert (Hx : inner q Aq = Ok x) by (apply inner_ok; congruence).
  destruct (vbroadcast2_same add var (vscale (div rold x) q)) as [var' [Hvar' Lvar']];
    [rewrite vscale_length; congruence|].
  destruct (vbroadcast2_same sub r (vscale (div rold x) Aq)) as [r' [Hr' Lr']];
    [rewrite vscale_length; congruence|].
  set (rnew := sum_to (length r') (fun k => mul (nth k r' zero) (nth k r' zero))).
  assert (Hrn : inner r' r' = Ok rnew) by (apply inner_ok; reflexivity).
  destruct (vbroadcast2_same add r' (vscale (div rnew rold) q)) as [q' [Hq' Lq']];
    [rewrite vscale_length; congruence|].
  fold (vadd (F := F)) in Hvar', Hq'; fold (vsub (F := F)) in Hr'.
  exists x, var', r', rnew, q'.
  repeat (split; [assumption|]).
  split.
  - unfold NoTMF.update_cg.
    rewrite Hx; simpl; rewrite Hvar'; simpl; rewrite Hr'; simpl.
    rewrite Hrn; simpl; rewrite Hq'; reflexivity.
  - simpl; repeat split; congruence.
Qed.

Lemma conj_grad_w_total {F : Type} {SF : Scalar F} (sparse_mat : ndarray F)
  (ind : ndarray bool) (W X : ndarray F) (rho : F) (maxiter : Z) :
  nrows X = nrows W -> ncols sparse_mat = ncols X -> nrows sparse_mat = ncols W ->
  nrows ind = ncols W -> ncols ind = ncols X ->
  exists W', NoTMF.conj_grad_w sparse_mat ind W X rho maxiter = Ok W' /\
             has_shape W' (nrows W) (ncols W).
Proof.
  intros HX Hs1 Hs2 Hi1 Hi2; unfold NoTMF.conj_grad_w, conj_grad_w.
  rewrite matmul_ok by (simpl; symmetry; exact Hs1).
  rewrite bind_ok.
  destruct (ell_w_total ind W X rho HX Hi1 Hi2) as [L [HL [HLr HLc]]].
  rewrite HL, bind_ok; unfold mat_sub.
  destruct (broadcast2_same zero zero sub (mat_product X (transpose zero sparse_mat)) L)
    as [R [HR [HRr HRc]]]; [simpl; congruence | simpl; congruence |].
  rewrite HR, bind_ok; simpl in HRr, HRc.
  set (n := ncols W * nrows W).
  assert (Hlen : length (ravel_F zero R) = n).
  { rewrite ravel_F_length, HRr, HRc, HX, Hs2; reflexivity. }
  rewrite (inner_ok _ _ eq_refl), bind_ok.
  match goal with |- context [for_each ?l ?b ?s0] =>
    assert (Hloop : exists st, for_each l b s0 = Ok st /\ cg_lengths n st);
    [apply for_each_total | destruct Hloop as [st [Hst Hinv]]] end.
  - intros _ [[[w r] q] rold] [Hw [Hr Hq]].
    destruct (reshape_F_ok zero q (nrows W) (ncols W) Hq) as [Q [HQ [HQr HQc]]].
    rewrite HQ, bind_ok.
    destruct (ell_w_total ind Q X rho) as [LQ [HLQ [HLQr HLQc]]]; try congruence.
    rewrite HLQ, bind_ok.
    destruct (update_cg_total w r q (ravel_F zero LQ) rold n) as
      [x [w' [r' [rnew [q' [_ [_ [_ [_ [_ [Hup Hinv]]]]]]]]]]]; try assumption.
    { rewrite ravel_F_length, HLQr, HLQc, HQr, HQc; reflexivity. }
    exists (w', r', q', rnew); split; assumption.
  - simpl; repeat split; try exact Hlen.
    apply ravel_F_length.
  - rewrite Hst, bind_ok.
    destruct st as [[[w r] q] rold]; destruct Hinv as [Hw _].
    destruct (reshape_F_ok zero w (nrows W) (ncols W) Hw) as [W' [HW' _]].
    exists W'; split; [exact HW' | exact (reshape_F_shape _ _ _ _ _ HW')].
Qed.

(** [update_cg], as the first part writes it, reads [var] unbound. *)
Lemma update_cg_ver_raises {F : Type} {SF : Scalar F} (ver r q Aq : list F) (rold : F) :
  exists e, TMF.update_cg ver r q Aq rold = Raise e.
Proof.
  unfold TMF.update_cg.
  destruct (inner q Aq); simpl; eexists; reflexivity.
Qed.

Lemma update_cg_ver_unbound_var {F : Type} {SF : Scalar F} (ver r q Aq : list F)
  (rold : F) :
  length q = length Aq -> TMF.update_cg ver r q Aq rold = Raise (UnboundLocalError "var").
Proof.
  intro H; unfold TMF.update_cg.
  rewrite (inner_ok q Aq H); reflexivity.
Qed.

(** On vectors of two lengths [np.inner] raises first. *)
Lemma update_cg_ver_value_error {F : Type} {SF : Scalar F} (ver r q Aq : list F)
  (rold : F) :
  length q <> length Aq -> TMF.update_cg ver r q Aq rold = Raise ValueError.
Proof.
  intro H; unfold TMF.update_cg, inner.
  destruct (Nat.eqb_spec (length q) (length Aq)) as [E|_]; [contradiction|reflexivity].
Qed.

Section FailingUpdate.
Context {F : Type} {SF : Scalar F}.
Variable update_cg : list F -> list F -> list F -> list F -> F -> result (cg_state (F := F)).
Hypothesis update_raises : forall v r q Aq rold, exists e, update_cg v r q Aq rold = Raise e.

Lemma conj_grad_w_needs_update (sparse_mat : ndarray F) (ind : ndarray bool)
  (W X : ndarray F) (rho : F) (maxiter : Z) :
  (1 <= maxiter)%Z ->
  exists e, conj_grad_w update_cg sparse_mat ind W X rho maxiter = Raise e.
Proof.
  intro Hm; unfold conj_grad_w.
  do 4 step_raise.
  rewrite py_range_cons by lia; simpl for_each.
  destruct (reshape_F _ _ _ _); simpl; [|eexists; reflexivity].
  destruct (ell_w _ _ _ _); simpl; [|eexists; reflexivity].
  match goal with |- context [update_cg ?a ?b ?c ?d ?e] =>
    destruct (update_raises a b c d e) as [e' He'] end.
  rewrite He'; simpl; eexists; reflexivity.
Qed.

Lemma conj_grad_x_needs_update (sparse_mat : ndarray F) (ind : ndarray bool)
  (W X A : ndarray F) (Psi : list (ndarray F)) (d : Z) (lambda0 rho : F) (maxiter : Z) :
  (1 <= maxiter)%Z ->
  exists e, conj_grad_x update_cg sparse_mat ind W X A Psi d lambda0 rho maxiter = Raise e.
Proof.
  intro Hm; unfold conj_grad_x.
  do 4 step_raise.
  rewrite py_range_cons by lia; simpl for_each.
  destruct (reshape_F _ _ _ _); simpl; [|eexists; reflexivity].
  destruct (ell_x _ _ _ _ _ _ _ _); simpl; [|eexists; reflexivity].
  match goal with |- context [update_cg ?a ?b ?c ?d ?e] =>
    destruct (update_raises a b c d e) as [e' He'] end.
  rewrite He'; simpl; eexists; reflexivity.
Qed.

End FailingUpdate.

(** ** The solver for [W] of the first part *)

Lemma conj_grad_w_ver_unbound {F : Type} {SF : Scalar F} (sparse_mat : ndarray F)
  (ind : ndarray bool) (W X : ndarray F) (rho : F) (maxiter : Z) :
  nrows X = nrows W -> ncols sparse_mat = ncols X -> nrows sparse_mat = ncols W ->
  nrows ind = ncols W -> ncols ind = ncols X -> (1 <= maxiter)%Z ->
  TMF.conj_grad_w sparse_mat ind W X rho maxiter = Raise (UnboundLocalError "var").
Proof.
  intros HX Hs1 Hs2 Hi1 Hi2 Hm; unfold TMF.conj_grad_w, conj_grad_w.
  rewrite matmul_ok by (simpl; symmetry; exact Hs1).
  rewrite bind_ok.
  destruct (ell_w_total ind W X rho HX Hi1 Hi2) as [L [HL [HLr HLc]]].
  rewrite HL, bind_ok; unfold mat_sub.
  destruct (broadcast2_same zero zero sub (mat_product X (transpose zero sparse_mat)) L)
    as [R [HR [HRr HRc]]]; [simpl; congruence | simpl; congruence |].
  rewrite HR, bind_ok; simpl in HRr, HRc.
  rewrite (inner_ok _ _ eq_refl), bind_ok.
  rewrite py_range_cons by lia.
  erewrite for_each_first_raises; [reflexivity|].
  destruct (reshape_F_ok zero (ravel_F zero R) (nrows W) (ncols W)) as [Q [HQ [HQr HQc]]].
  { rewrite ravel_F_length, HRr, HRc, HX, Hs2; reflexivity. }
  rewrite HQ, bind_ok.
  destruct (ell_w_total ind Q X rho) as [LQ [HLQ [HLQr HLQc]]]; try congruence.
  rewrite HLQ, bind_ok.
  apply update_cg_ver_unbound_var.
  rewrite !ravel_F_length; congruence.
Qed.

Lemma conj_grad_w_no_iteration {F : Type} {SF : Scalar F} (sparse_mat : ndarray F)
  (ind : ndarray bool) (W X : ndarray F) (rho : F) :
  wf W ->
  nrows X = nrows W -> ncols sparse_mat = ncols X -> nrows sparse_mat = ncols W ->
  nrows ind = ncols W -> ncols ind = ncols X ->
  TMF.conj_grad_w sparse_mat ind W X rho 0 = Ok W.
Proof.
  intros HW HX Hs1 Hs2 Hi1 Hi2; unfold TMF.conj_grad_w, conj_grad_w.
  rewrite matmul_ok by (simpl; symmetry; exact Hs1).
  rewrite bind_ok.
  destruct (ell_w_total ind W X rho HX Hi1 Hi2) as [L [HL [HLr HLc]]].
  rewrite HL, bind_ok; unfold mat_sub.
  destruct (broadcast2_same zero zero sub (mat_product X (transpose zero sparse_mat)) L)
    as [R [HR [HRr HRc]]]; [simpl; congruence | simpl; congruence |].
  rewrite HR, bind_ok.
  rewrite (inner_ok _ _ eq_refl), bind_ok.
  rewrite py_range_nil by lia; simpl for_each; rewrite bind_ok.
  apply reshape_F_ravel_F; exact HW.
Qed.


(** ** C4: the temporal operators *)

Lemma bidx_lt (n i : nat) : i < n -> bidx n i = i.
Proof.
  intro H; unfold bidx.
  destruct (Nat.eqb_spec n 1); [lia | reflexivity].
Qed.

Lemma append_cols_ok {A : Type} (da : A) (M N : ndarray A) :
  nrows M = nrows N ->
  append_cols da M N =
  Ok (tab (nrows M) (ncols M + ncols N) (fun i j =>
        if j <? ncols M then get da M i j else get da N i (j - ncols M))).
Proof. intro H; unfold append_cols; rewrite H, Nat.eqb_refl; reflexivity. Qed.

(** The loop of [generate_Psi] collects one operator for each [k]. *)
Lemma for_each_collect {B : Type} (mk : Z -> B) (body : Z -> list B -> result (list B))
  (n : nat) :
  (forall k acc, (0 <= k < Z.of_nat n)%Z -> body k acc = Ok (acc ++ [mk k])) ->
  for_each (py_range 0 (Z.of_nat n)) body [] = Ok (map (fun k => mk (Z.of_nat k)) (seq 0 n)).
Proof.
  induction n as [|n IH]; intro Hbody.
  - reflexivity.
  - rewrite Nat2Z.inj_succ, <- Z.add_1_r.
    rewrite py_range_snoc, for_each_app by lia.
    rewrite IH by (intros; apply Hbody; lia).
    rewrite bind_ok; simpl for_each.
    rewrite Hbody by lia.
    rewrite seq_S, map_app; reflexivity.
Qed.

(** The operator of lag [k] without season: row [i] holds its 1 in
    column [i + (d - k)]. *)
Lemma plain_operator {F : Type} {SF : Scalar F} (T d k : Z) (acc : list (ndarray F)) :
  (0 <= k <= d)%Z -> (d <= T)%Z ->
  (if (k =? 0)%Z then
     Z0 <- np_zeros (T - d) d ;;
     I <- np_eye (T - d) ;;
     P <- append_cols zero Z0 I ;;
     Ok (acc ++ [P])
   else
     Z1 <- np_zeros (T - d) (d - k) ;;
     I <- np_eye (T - d) ;;
     P1 <- append_cols zero Z1 I ;;
     Z2 <- np_zeros (T - d) k ;;
     P <- append_cols zero P1 Z2 ;;
     Ok (acc ++ [P]))
  = Ok (acc ++ [plain_Psi T d k]).
Proof.
  intros Hk HT; unfold plain_Psi.
  destruct (Z.eqb_spec k 0) as [->|Hk0].
  - rewrite np_zeros_ok, np_eye_ok by lia; rewrite !bind_ok.
    rewrite append_cols_ok by reflexivity; rewrite bind_ok; simpl.
    do 3 f_equal.
    replace (Z.to_nat d + Z.to_nat (T - d)) with (Z.to_nat T) by lia.
    apply tab_ext; intros i j Hi Hj.
    rewrite Z.sub_0_r.
    destruct (Nat.ltb_spec j (Z.to_nat d)).
    + rewrite get_tab by lia.
      destruct (Nat.eqb_spec j (i + Z.to_nat d)); [lia | reflexivity].
    + rewrite get_tab by lia.
      destruct (Nat.eqb_spec i (j - Z.to_nat d));
        destruct (Nat.eqb_spec j (i + Z.to_nat d)); solve [reflexivity | lia].
  - rewrite np_zeros_ok, np_eye_ok by lia; rewrite !bind_ok.
    rewrite append_cols_ok by reflexivity; rewrite bind_ok.
    rewrite np_zeros_ok by lia; rewrite bind_ok.
    rewrite append_cols_ok by reflexivity; rewrite bind_ok; simpl.
    do 3 f_equal.
    replace (Z.to_nat (d - k) + Z.to_nat (T - d) + Z.to_nat k) with (Z.to_nat T) by lia.
    apply tab_ext; intros i j Hi Hj.
    destruct (Nat.ltb_spec j (Z.to_nat (d - k) + Z.to_nat (T - d))).
    + rewrite get_tab by lia.
      destruct (Nat.ltb_spec j (Z.to_nat (d - k))).
      * rewrite get_tab by lia.
        destruct (Nat.eqb_spec j (i + Z.to_nat (d - k))); [lia | reflexivity].
      * rewrite get_tab by lia.
        destruct (Nat.eqb_spec i (j - Z.to_nat (d - k)));
          destruct (Nat.eqb_spec j (i + Z.to_nat (d - k))); solve [reflexivity | lia].
    + rewrite get_tab by lia.
      destruct (Nat.eqb_spec j (i + Z.to_nat (d - k))); [lia | reflexivity].
Qed.

Lemma generate_Psi_plain {F : Type} {SF : Scalar F} (T d : Z) :
  (0 <= d <= T)%Z ->
  TMF.generate_Psi T d =
  Ok (map (fun k => plain_Psi (F := F) T d (Z.of_nat k)) (seq 0 (Z.to_nat (d + 1)))).
Proof.
  intro H; unfold TMF.generate_Psi.
  replace (d + 1)%Z with (Z.of_nat (Z.to_nat (d + 1))) at 1 by lia.
  apply for_each_collect.
  intros k acc Hk; apply plain_operator; lia.
Qed.

(** Reads the entries of tables at positions that [lia] finds in range. *)
Ltac get_tabs :=
  repeat match goal with
    | |- context [get ?d (tab ?r ?c ?f) ?i ?j] => rewrite (get_tab d r c f i j) by lia
    end.

Lemma seasonal_entry {F : Type} {SF : Scalar F} (n m i j : nat) :
  sign_laws (SF := SF) -> 0 < m -> i < n ->
  seasonal_block_entry n m i j
  = if j =? i then opp one else if j =? i + m then one else zero.
Proof.
  intros L Hm Hi; unfold seasonal_block_entry.
  destruct (Nat.eqb_spec j i) as [->|Hji].
  - destruct (Nat.ltb_spec i n); [|lia].
    rewrite Nat.eqb_refl.
    destruct (Nat.ltb_spec i m); [apply L|].
    destruct (Nat.eqb_spec i (i - m)); [lia | apply L].
  - destruct (Nat.eqb_spec i j); [lia|].
    destruct (Nat.eqb_spec j (i + m)) as [->|Hjm].
    + destruct (Nat.ltb_spec (i + m) m); [lia|].
      destruct (Nat.eqb_spec i (i + m - m)); [|lia].
      destruct (Nat.ltb_spec (i + m) n); apply L.
    + assert (HE : (if j <? m then zero else if i =? j - m then one else zero) = zero).
      { destruct (Nat.ltb_spec j m); [reflexivity|].
        destruct (Nat.eqb_spec i (j - m)); [lia | reflexivity]. }
      rewrite HE.
      destruct (Nat.ltb_spec j n); apply L.
Qed.

(** The block [-I | 0] + [0 | I] that both branches of the seasonal
    [generate_Psi] build. *)
Lemma seasonal_block {F : Type} {SF : Scalar F} (n m : Z) :
  (0 <= n)%Z -> (0 <= m)%Z ->
  (I <- np_eye n ;;
   Zs <- np_zeros n m ;;
   N <- append_cols zero (scale (opp one) I) Zs ;;
   Zs <- np_zeros n m ;;
   I <- np_eye n ;;
   E <- append_cols zero Zs I ;;
   mat_add N E)
  = Ok (tab (Z.to_nat n) (Z.to_nat n + Z.to_nat m)
          (seasonal_block_entry (Z.to_nat n) (Z.to_nat m))).
Proof.
  intros Hn Hm.
  rewrite np_eye_ok, np_zeros_ok by lia; rewrite !bind_ok.
  rewrite append_cols_ok by reflexivity; rewrite !bind_ok.
  rewrite append_cols_ok by reflexivity; rewrite !bind_ok.
  unfold mat_add, broadcast2; cbn [nrows ncols scale map_array tab].
  rewrite (Nat.add_comm (Z.to_nat m)), !bdim_same, !bind_ok.
  f_equal; apply tab_ext; intros i j Hi Hj.
  rewrite !bidx_lt by lia.
  unfold seasonal_block_entry, scale, map_array; cbn [nrows ncols tab].
  get_tabs; f_equal.
  - destruct (Nat.ltb_spec j (Z.to_nat n)); get_tabs; reflexivity.
  - destruct (Nat.ltb_spec j (Z.to_nat m)); get_tabs; reflexivity.
Qed.

Lemma seasonal_block_then {F : Type} {SF : Scalar F} {B : Type} (n m : Z)
  (k : ndarray F -> result B) :
  (0 <= n)%Z -> (0 <= m)%Z ->
  (I <- np_eye n ;;
   Zs <- np_zeros n m ;;
   N <- append_cols zero (scale (opp one) I) Zs ;;
   Zs <- np_zeros n m ;;
   I <- np_eye n ;;
   E <- append_cols zero Zs I ;;
   D <- mat_add N E ;;
   k D)
  = k (tab (Z.to_nat n) (Z.to_nat n + Z.to_nat m)
         (seasonal_block_entry (Z.to_nat n) (Z.to_nat m))).
Proof.
  intros Hn Hm.
  pose proof (seasonal_block n m Hn Hm) as HB; revert HB.
  rewrite np_eye_ok, np_zeros_ok by lia; rewrite !bind_ok.
  rewrite append_cols_ok by reflexivity; rewrite !bind_ok.
  rewrite append_cols_ok by reflexivity; rewrite !bind_ok.
  intro HB; rewrite HB; reflexivity.
Qed.

(** The operator of lag [k] with a season [m], as it is computed. *)
Lemma seasonal_operator {F : Type} {SF : Scalar F} (T d m k : Z)
  (acc : list (ndarray F)) :
  (0 <= k <= d)%Z -> (0 <= m)%Z -> (d + m <= T)%Z ->
  (if (k =? 0)%Z then
     Z0 <- np_zeros (T - d - m) d ;;
     I <- np_eye (T - d - m) ;;
     Zs <- np_zeros (T - d - m) m ;;
     N <- append_cols zero (scale (opp one) I) Zs ;;
     Zs <- np_zeros (T - d - m) m ;;
     I <- np_eye (T - d - m) ;;
     E <- append_cols zero Zs I ;;
     D <- mat_add N E ;;
     P <- append_cols zero Z0 D ;;
     Ok (acc ++ [P])
   else
     Z1 <- np_zeros (T - d - m) (d - k) ;;
     I <- np_eye (T - d - m) ;;
     Zs <- np_zeros (T - d - m) m ;;
     N <- append_cols zero (scale (opp one) I) Zs ;;
     Zs <- np_zeros (T - d - m) m ;;
     I <- np_eye (T - d - m) ;;
     E <- append_cols zero Zs I ;;
     D <- mat_add N E ;;
     P1 <- append_cols zero Z1 D ;;
     Z2 <- np_zeros (T - d - m) k ;;
     P <- append_cols zero P1 Z2 ;;
     Ok (acc ++ [P]))
  = Ok (acc ++ [computed_Psi T d m k]).
Proof.
  intros Hk Hm HT; unfold computed_Psi.
  destruct (Z.eqb_spec k 0) as [->|Hk0].
  - rewrite np_zeros_ok by lia; rewrite bind_ok.
    rewrite seasonal_block_then by lia.
    rewrite append_cols_ok by reflexivity; rewrite bind_ok; simpl.
    do 3 f_equal.
    replace (Z.to_nat d + (Z.to_nat (T - d - m) + Z.to_nat m)) with (Z.to_nat T) by lia.
    apply tab_ext; intros i j Hi Hj.
    rewrite Z.sub_0_r.
    destruct (Nat.ltb_spec j (Z.to_nat d)).
    + rewrite get_tab by lia.
      destruct (Nat.leb_spec (Z.to_nat d) j); [lia | reflexivity].
    + rewrite get_tab by lia.
      destruct (Nat.leb_spec (Z.to_nat d) j); [|lia].
      destruct (Nat.ltb_spec j (Z.to_nat d + (Z.to_nat (T - d - m) + Z.to_nat m)));
        [reflexivity | lia].
  - rewrite np_zeros_ok by lia; rewrite bind_ok.
    rewrite seasonal_block_then by lia.
    rewrite append_cols_ok by reflexivity; rewrite bind_ok.
    rewrite np_zeros_ok by lia; rewrite bind_ok.
    rewrite append_cols_ok by reflexivity; rewrite bind_ok; simpl.
    do 3 f_equal.
    replace (Z.to_nat (d - k) + (Z.to_nat (T - d - m) + Z.to_nat m) + Z.to_nat k)
      with (Z.to_nat T) by lia.
    apply tab_ext; intros i j Hi Hj.
    destruct (Nat.ltb_spec j (Z.to_nat (d - k) + (Z.to_nat (T - d - m) + Z.to_nat m))).
    + rewrite get_tab by lia.
      destruct (Nat.ltb_spec j (Z.to_nat (d - k))).
      * rewrite get_tab by lia.
        destruct (Nat.leb_spec (Z.to_nat (d - k)) j); [lia | reflexivity].
      * rewrite get_tab by lia.
        destruct (Nat.leb_spec (Z.to_nat (d - k)) j); [reflexivity | lia].
    + rewrite get_tab by lia.
      destruct (Nat.leb_spec (Z.to_nat (d - k)) j); reflexivity.
Qed.

(** The operators that the seasonal [generate_Psi] returns. *)
Lemma generate_Psi_computed {F : Type} {SF : Scalar F} (T d m : Z) :
  (0 <= d)%Z -> (0 <= m)%Z -> (d + m <= T)%Z ->
  NoTMF.generate_Psi T d m =
  Ok (map (fun k => computed_Psi (F := F) T d m (Z.of_nat k)) (seq 0 (Z.to_nat (d + 1)))).
Proof.
  intros Hd Hm HT; unfold NoTMF.generate_Psi.
  replace (d + 1)%Z with (Z.of_nat (Z.to_nat (d + 1))) at 1 by lia.
  apply for_each_collect.
  intros k acc Hk; apply seasonal_operator; lia.
Qed.

(** With a season [m > 0] the two diagonals do not meet. *)
Lemma computed_Psi_seasonal {F : Type} {SF : Scalar F} (T d m k : Z) :
  sign_laws (SF := SF) -> (0 <= k <= d)%Z -> (0 < m)%Z -> (d + m <= T)%Z ->
  computed_Psi T d m k = seasonal_Psi T d m k.
Proof.
  intros L Hk Hm HT; unfold computed_Psi, seasonal_Psi.
  apply tab_ext; intros i j Hi Hj.
  destruct (Nat.leb_spec (Z.to_nat (d - k)) j) as [Hle|Hgt]; simpl.
  - destruct (Nat.ltb_spec j (Z.to_nat (d - k) + (Z.to_nat (T - d - m) + Z.to_nat m))).
    + rewrite seasonal_entry by (solve [exact L | lia]).
      destruct (Nat.eqb_spec (j - Z.to_nat (d - k)) i);
        destruct (Nat.eqb_spec j (i + Z.to_nat (d - k))); try lia; try reflexivity.
      destruct (Nat.eqb_spec (j - Z.to_nat (d - k)) (i + Z.to_nat m));
        destruct (Nat.eqb_spec j (i + Z.to_nat (d - k) + Z.to_nat m));
        solve [reflexivity | lia].
    + destruct (Nat.eqb_spec j (i + Z.to_nat (d - k))); [lia|].
      destruct (Nat.eqb_spec j (i + Z.to_nat (d - k) + Z.to_nat m)); [lia | reflexivity].
  - destruct (Nat.eqb_spec j (i + Z.to_nat (d - k))); [lia|].
    destruct (Nat.eqb_spec j (i + Z.to_nat (d - k) + Z.to_nat m)); [lia | reflexivity].
Qed.

Lemma generate_Psi_seasonal {F : Type} {SF : Scalar F} (T d m : Z) :
  sign_laws (SF := SF) -> (0 <= d)%Z -> (0 < m)%Z -> (d + m <= T)%Z ->
  NoTMF.generate_Psi T d m =
  Ok (map (fun k => seasonal_Psi (F := F) T d m (Z.of_nat k)) (seq 0 (Z.to_nat (d + 1)))).
Proof.
  intros L Hd Hm HT.
  rewrite generate_Psi_computed by lia.
  f_equal; apply map_ext_in; intros k Hk; apply in_seq in Hk.
  apply computed_Psi_seasonal; solve [exact L | lia].
Qed.

Lemma nth_error_map_seq {B : Type} (f : nat -> B) (n k : nat) :
  k < n -> nth_error (map f (seq 0 n)) k = Some (f k).
Proof.
  intro H.
  rewrite nth_error_map, nth_error_seq.
  destruct (Nat.ltb_spec k n); [reflexivity | lia].
Qed.

(** C4. For [T > d >= 1], [generate_Psi(T, d)] returns [d + 1] operators
    of shape [(T - d, T)] with entries 0 and 1, row [i] of the operator of
    lag [k] holding its single 1 in column [i + d - k]: the operator of
    lag 0 selects the last [T - d] columns.  For a season [m > 0] and
    [T > d + m], [generate_Psi(T, d, m)] returns [d + 1] operators of shape
    [(T - d - m, T)], row [i] holding one [+1], in column [i + d - k + m],
    and one [-1], [m] columns before it, and 0 elsewhere. *)
Theorem generate_Psi_selects :
  forall (F : Type) (SF : Scalar F),
    sign_laws (SF := SF) ->
    (forall T d : Z, (1 <= d)%Z -> (d < T)%Z ->
       exists Psi,
         TMF.generate_Psi T d = Ok Psi /\ length Psi = Z.to_nat (d + 1) /\
         forall k : nat, (Z.of_nat k <= d)%Z ->
           exists P,
             nth_error Psi k = Some P /\
             has_shape P (Z.to_nat (T - d)) (Z.to_nat T) /\
             forall i j, i < Z.to_nat (T - d) -> j < Z.to_nat T ->
               (get zero P i j = one <-> j = i + Z.to_nat (d - Z.of_nat k)) /\
               (get zero P i j = zero <-> j <> i + Z.to_nat (d - Z.of_nat k))) /\
    (forall T d m : Z, (1 <= d)%Z -> (0 < m)%Z -> (d + m < T)%Z ->
       exists Psi,
         NoTMF.generate_Psi T d m = Ok Psi /\ length Psi = Z.to_nat (d + 1) /\
         forall k : nat, (Z.of_nat k <= d)%Z ->
           exists P,
             nth_error Psi k = Some P /\
             has_shape P (Z.to_nat (T - d - m)) (Z.to_nat T) /\
             forall i j, i < Z.to_nat (T - d - m) -> j < Z.to_nat T ->
               (get zero P i j = one <->
                  j = i + Z.to_nat (d - Z.of_nat k) + Z.to_nat m) /\
               (get zero P i j = opp one <-> j = i + Z.to_nat (d - Z.of_nat k)) /\
               (get zero P i j = zero <->
                  j <> i + Z.to_nat (d - Z.of_nat k) /\
                  j <> i + Z.to_nat (d - Z.of_nat k) + Z.to_nat m)).
Proof.
  intros F SF L; split.
  - intros T d Hd HT.
    eexists; split; [apply generate_Psi_plain; lia|].
    split; [rewrite length_map, length_seq; reflexivity|].
    intros k Hk.
    exists (plain_Psi T d (Z.of_nat k)); split;
      [apply (nth_error_map_seq (fun k => plain_Psi T d (Z.of_nat k))); lia|].
    split; [apply tab_shape|].
    intros i j Hi Hj; unfold plain_Psi; rewrite get_tab by assumption.
    destruct (Nat.eqb_spec j (i + Z.to_nat (d - Z.of_nat k))) as [E|E]; split; split;
      intro H; try reflexivity; try assumption; try contradiction.
    + exfalso; exact (one_not_zero L H).
    + exfalso; symmetry in H; exact (one_not_zero L H).
  - intros T d m Hd Hm HT.
    eexists; split; [apply generate_Psi_seasonal; solve [exact L | lia]|].
    split; [rewrite length_map, length_seq; reflexivity|].
    intros k Hk.
    exists (seasonal_Psi T d m (Z.of_nat k)); split;
      [apply (nth_error_map_seq (fun k => seasonal_Psi T d m (Z.of_nat k))); lia|].
    split; [apply tab_shape|].
    intros i j Hi Hj; unfold seasonal_Psi; rewrite get_tab by assumption.
    pose proof (one_not_zero L) as N1.
    pose proof (minus_one_not_zero L) as N2.
    pose proof (minus_one_not_one L) as N3.
    destruct (Nat.eqb_spec j (i + Z.to_nat (d - Z.of_nat k))) as [E1|E1];
      [|destruct (Nat.eqb_spec j (i + Z.to_nat (d - Z.of_nat k) + Z.to_nat m)) as [E2|E2]].
    + split; [|split]; split; intro H; try reflexivity; try assumption;
        try (exfalso; congruence); try lia.
    + split; [|split]; split; intro H; try reflexivity; try assumption;
        try (exfalso; congruence); try lia.
    + split; [|split]; split; intro H; try reflexivity; try assumption;
        try (exfalso; congruence); try lia.
Qed.

(** ** C3: the extrapolation without season *)

Lemma for_each_range_ind {St : Type} (Inv : nat -> St -> Prop)
  (body : Z -> St -> result St) (s0 : St) (n : nat) :
  Inv 0 s0 ->
  (forall t s, t < n -> Inv t s -> exists s', body (Z.of_nat t) s = Ok s' /\ Inv (S t) s') ->
  exists s', for_each (py_range 0 (Z.of_nat n)) body s0 = Ok s' /\ Inv n s'.
Proof.
  intros H0; induction n as [|n IH]; intro Hstep.
  - exists s0; split; [reflexivity | exact H0].
  - destruct IH as [s1 [Hrun Hs1]]; [intros; apply Hstep; [lia | assumption]|].
    destruct (Hstep n s1 (Nat.lt_succ_diag_r n) Hs1) as [s2 [Hb Hs2]].
    exists s2; split; [|exact Hs2].
    rewrite Nat2Z.inj_succ, <- Z.add_1_r.
    rewrite py_range_snoc, for_each_app by lia.
    rewrite Hrun, bind_ok; simpl; rewrite Hb; reflexivity.
Qed.

Lemma mapM_ok {A B : Type} (f : A -> result B) (g : A -> B) (l : list A) :
  (forall x, In x l -> f x = Ok (g x)) -> mapM f l = Ok (map g l).
Proof.
  induction l as [|a l IH]; intro H; simpl; [reflexivity|].
  rewrite (H a) by (left; reflexivity).
  rewrite bind_ok, IH by (intros x Hx; apply H; right; exact Hx).
  reflexivity.
Qed.

Lemma norm_index_ok (n : nat) (k : Z) :
  (0 <= k < Z.of_nat n)%Z -> norm_index n k = Ok (Z.to_nat k).
Proof.
  intro H; unfold norm_index.
  destruct (Z.leb_spec 0 k); [|lia].
  destruct (Z.ltb_spec k (Z.of_nat n)); [reflexivity | lia].
Qed.

Lemma flat_map_ext_in {A B : Type} (f g : A -> list B) (l : list A) :
  (forall x, In x l -> f x = g x) -> flat_map f l = flat_map g l.
Proof.
  induction l as [|a l IH]; intro H; simpl; [reflexivity|].
  rewrite (H a) by (left; reflexivity).
  rewrite IH by (intros x Hx; apply H; right; exact Hx).
  reflexivity.
Qed.

Lemma flat_map_map {A B C : Type} (f : B -> list C) (g : A -> B) (l : list A) :
  flat_map f (map g l) = flat_map (fun x => f (g x)) l.
Proof.
  induction l as [|a l IH]; simpl; [reflexivity | rewrite IH; reflexivity].
Qed.

Lemma get_transpose {A : Type} (da : A) (M : ndarray A) (i j : nat) :
  i < ncols M -> j < nrows M -> get da (transpose da M) i j = get da M j i.
Proof.
  intros Hi Hj.
  exact (get_tab da (ncols M) (nrows M) (fun i j => get da M j i) i j Hi Hj).
Qed.

Lemma column_length {F : Type} {SF : Scalar F} (M : ndarray F) (j : nat) :
  length (column M j) = nrows M.
Proof. unfold column; rewrite length_map, length_seq; reflexivity. Qed.

Lemma lags_length {F : Type} {SF : Scalar F} (M : ndarray F) (j d : nat) :
  length (lags M j d) = d * nrows M.
Proof.
  unfold lags; rewrite (length_flat_map_const _ (nrows M) _).
  - rewrite length_seq; reflexivity.
  - intros; apply column_length.
Qed.

(** Two arrays with the same entries in the columns before [j] have the
    same lags at [j]. *)
Lemma lags_ext {F : Type} {SF : Scalar F} (M N : ndarray F) (j d : nat) :
  nrows M = nrows N -> d <= j ->
  (forall i c, i < nrows M -> c < j -> get zero M i c = get zero N i c) ->
  lags M j d = lags N j d.
Proof.
  intros Hr Hd H; unfold lags.
  apply flat_map_ext_in; intros k Hk; apply in_seq in Hk.
  unfold column; rewrite <- Hr.
  apply map_ext_in; intros i Hi; apply in_seq in Hi.
  apply H; lia.
Qed.

(** The vector that [var4cast] multiplies [A] with at step [t]. *)
Lemma lagged_vector {F : Type} {SF : Scalar F} (M : ndarray F) (d : Z) (j : nat) :
  (0 <= d <= Z.of_nat j)%Z -> j < ncols M ->
  (L <- take_cols zero M (map (fun k => Z.of_nat j - k)%Z (py_range 1 (d + 1))) ;;
   reshape_1d zero (transpose zero L) (Z.of_nat (nrows M) * d))
  = Ok (lags M j (Z.to_nat d)).
Proof.
  intros Hd Hj; unfold take_cols.
  rewrite (mapM_ok _ Z.to_nat).
  2:{ intros x Hx; apply in_map_iff in Hx; destruct Hx as [k [<- Hk]].
      apply py_range_In in Hk; apply norm_index_ok; lia. }
  rewrite !bind_ok; unfold reshape_1d; cbn [nrows ncols transpose tab].
  rewrite !length_map, py_range_length.
  replace (Z.to_nat (d + 1 - 1)) with (Z.to_nat d) by lia.
  destruct (Z.eqb_spec (Z.of_nat (nrows M) * d)
              (Z.of_nat (Z.to_nat d * nrows M))) as [_|E]; [|lia].
  rewrite orb_true_r; f_equal.
  unfold ravel_C, lags; cbn [nrows ncols transpose tab].
  rewrite <- seq_shift, flat_map_map.
  apply flat_map_ext_in; intros k Hk; apply in_seq in Hk.
  unfold column; apply map_ext_in; intros i Hi; apply in_seq in Hi.
  rewrite get_transpose by (simpl; lia).
  rewrite get_tab by lia.
  f_equal.
  unfold py_range; rewrite !map_map.
  rewrite (nth_indep _ 0 (Z.to_nat (Z.of_nat j - (1 + Z.of_nat 0))))
    by (rewrite length_map, length_seq; lia).
  rewrite (map_nth (fun x => Z.to_nat (Z.of_nat j - (1 + Z.of_nat x))) (seq 0 _) 0 k).
  rewrite seq_nth by lia.
  lia.
Qed.

Lemma bind_assoc {A B C : Type} (m : result A) (f : A -> result B) (g : B -> result C) :
  bind (bind m f) g = bind m (fun x => bind (f x) g).
Proof. destruct m; reflexivity. Qed.

Lemma matvec_ok {F : Type} {SF : Scalar F} (M : ndarray F) (v : list F) :
  ncols M = length v ->
  exists c, matvec M v = Ok c /\ length c = nrows M.
Proof.
  intro H; unfold matvec; rewrite H, Nat.eqb_refl.
  eexists; split; [reflexivity|].
  rewrite length_map, length_seq; reflexivity.
Qed.

(** One step of the loop of [var4cast]: column [j] becomes [A] times
    the lags at [j]; the other columns stay. *)
Lemma var4cast_step {F : Type} {SF : Scalar F} (X_hat A : ndarray F) (d dim1 dim2 t : Z)
  (j : nat) :
  dim1 = Z.of_nat (nrows X_hat) -> (dim2 + t)%Z = Z.of_nat j ->
  (0 <= d <= Z.of_nat j)%Z -> j < ncols X_hat ->
  nrows A = nrows X_hat -> ncols A = Z.to_nat d * nrows X_hat ->
  exists c,
    matvec A (lags X_hat j (Z.to_nat d)) = Ok c /\ length c = nrows X_hat /\
    (L <- take_cols zero X_hat (map (fun k => dim2 + t - k)%Z (py_range 1 (d + 1))) ;;
     v <- reshape_1d zero (transpose zero L) (dim1 * d) ;;
     c <- matvec A v ;;
     set_col zero X_hat (dim2 + t) c)
    = Ok (tab (nrows X_hat) (ncols X_hat)
            (fun i j' => if j' =? j then nth i c zero else get zero X_hat i j')).
Proof.
  intros -> Hj Hd Hlt HAr HAc.
  destruct (matvec_ok A (lags X_hat j (Z.to_nat d))) as [c [Hc Lc]];
    [rewrite lags_length; exact HAc|].
  exists c; split; [exact Hc|]; split; [congruence|].
  rewrite (map_ext (fun k => dim2 + t - k)%Z (fun k => Z.of_nat j - k)%Z)
    by (intro k; lia).
  rewrite <- bind_assoc, lagged_vector by assumption.
  rewrite bind_ok, Hc, bind_ok.
  unfold set_col; rewrite Hj, norm_index_ok by lia.
  rewrite bind_ok, Nat2Z.id, Lc, HAr, Nat.eqb_refl; simpl.
  f_equal; apply tab_ext; intros i j' Hi Hj'.
  rewrite bidx_lt by exact Hi; reflexivity.
Qed.

Lemma var4cast_loop {F : Type} {SF : Scalar F} (X A : ndarray F) (d : Z) (delta : nat) :
  (0 <= d <= Z.of_nat (ncols X))%Z ->
  nrows A = nrows X -> ncols A = Z.to_nat d * nrows X ->
  exists X_hat,
    for_each (py_range 0 (Z.of_nat delta))
      (fun t X_hat =>
         L <- take_cols zero X_hat
                (map (fun k => Z.of_nat (ncols X) + t - k)%Z (py_range 1 (d + 1))) ;;
         v <- reshape_1d zero (transpose zero L) (Z.of_nat (nrows X) * d) ;;
         c <- matvec A v ;;
         set_col zero X_hat (Z.of_nat (ncols X) + t) c)
      (tab (nrows X) (ncols X + delta)
         (fun i j => if j <? ncols X then get zero X i j
                     else get zero (tab (nrows X) delta (fun _ _ => zero)) i (j - ncols X)))
    = Ok X_hat /\
    forecast_upto X A (Z.to_nat d) delta delta X_hat.
Proof.
  intros Hd HAr HAc.
  apply (for_each_range_ind (forecast_upto X A (Z.to_nat d) delta)).
  - split; [apply tab_shape|]; split.
    + intros i j Hi Hj; rewrite get_tab by lia.
      destruct (Nat.ltb_spec j (ncols X)); [reflexivity | lia].
    + intros s Hs; lia.
  - intros t M Ht [[HMwf [HMr HMc]] [HX Hrec]].
    destruct (var4cast_step M A d (Z.of_nat (nrows X)) (Z.of_nat (ncols X)) (Z.of_nat t)
                (ncols X + t)) as [c [Hc [Lc Hbody]]]; try lia; try congruence.
    rewrite Hbody; eexists; split; [reflexivity|].
    rewrite HMr, HMc.
    set (M' := tab (nrows X) (ncols X + delta)
                 (fun i j' => if j' =? ncols X + t then nth i c zero else get zero M i j')).
    assert (Hsame : forall i j', i < nrows X -> j' < ncols X + t ->
                                 get zero M' i j' = get zero M i j').
    { intros i j' Hi Hj'; unfold M'; rewrite get_tab by lia.
      destruct (Nat.eqb_spec j' (ncols X + t)); [lia | reflexivity]. }
    split; [apply tab_shape|]; split.
    + intros i j Hi Hj; rewrite Hsame by lia; apply HX; assumption.
    + intros s Hs.
      assert (Hcol : forall s', s' < t -> column M' (ncols X + s') = column M (ncols X + s')).
      { intros s' Hs'; unfold column.
        replace (nrows M') with (nrows X) by reflexivity; rewrite HMr.
        apply map_ext_in; intros i Hi; apply in_seq in Hi; apply Hsame; lia. }
      assert (Hlag : forall s', s' <= t ->
                lags M' (ncols X + s') (Z.to_nat d) = lags M (ncols X + s') (Z.to_nat d)).
      { intros s' Hs'; apply lags_ext; [simpl; congruence | lia |].
        intros i c0 Hi Hc0; apply Hsame; [exact Hi | lia]. }
      destruct (Nat.eq_dec s t) as [->|Hst].
      * rewrite Hlag, Hc by lia; f_equal.
        unfold column; replace (nrows M') with (nrows X) by reflexivity.
        rewrite <- (list_eq_nth_map zero c) at 1.
        rewrite Lc, HMr.
        apply map_ext_in; intros i Hi; apply in_seq in Hi.
        unfold M'; rewrite get_tab by lia.
        rewrite Nat.eqb_refl; reflexivity.
      * rewrite Hlag, Hcol by lia; apply Hrec; lia.
Qed.

(** C3, as the code has it.  Without season, for a fitted [X] of shape
    [(R, T')], [A] of shape [(R, d * R)], [0 <= d <= T'] and [delta >= 1],
    [var4cast] builds an array [X_hat] of shape [(R, T' + delta)] whose
    first [T'] columns are those of [X] and whose column [T' + t] is [A]
    times the columns [T' + t - 1], ..., [T' + t - d] one after the other;
    it returns the last [delta] columns of [X_hat], an array of shape
    [(R, delta)], not the extended array. *)
Theorem var4cast_returns_forecasts :
  forall (F : Type) (SF : Scalar F) (X A : ndarray F) (d delta : Z),
    (0 <= d <= Z.of_nat (ncols X))%Z -> (1 <= delta)%Z ->
    nrows A = nrows X -> ncols A = Z.to_nat d * nrows X ->
    exists X_hat,
      has_shape X_hat (nrows X) (ncols X + Z.to_nat delta) /\
      (forall i j, i < nrows X -> j < ncols X -> get zero X_hat i j = get zero X i j) /\
      (forall t, t < Z.to_nat delta ->
         matvec A (lags X_hat (ncols X + t) (Z.to_nat d)) = Ok (column X_hat (ncols X + t))) /\
      TMF.var4cast X A d delta
        = Ok (cols_between zero X_hat (ncols X) (ncols X + Z.to_nat delta)) /\
      has_shape (cols_between zero X_hat (ncols X) (ncols X + Z.to_nat delta))
        (nrows X) (Z.to_nat delta).
Proof.
  intros F SF X A d delta Hd Hdelta HAr HAc.
  destruct (var4cast_loop X A d (Z.to_nat delta) Hd HAr HAc)
    as [X_hat [Hrun [[Hwf [Hr Hc]] [HX Hrec]]]].
  exists X_hat; split; [split; [exact Hwf | split; assumption]|].
  split; [exact HX|]; split; [exact Hrec|]; split.
  - unfold TMF.var4cast.
    rewrite np_zeros_ok by lia; rewrite bind_ok.
    rewrite append_cols_ok by (simpl; rewrite Nat2Z.id; reflexivity).
    rewrite bind_ok; cbn [nrows ncols tab].
    rewrite Nat2Z.id.
    rewrite Z2Nat.id in Hrun by lia.
    rewrite Hrun, bind_ok.
    f_equal; unfold slice_cols_from.
    rewrite slice_bound_neg by lia.
    rewrite Hc; f_equal; lia.
  - unfold cols_between; rewrite Hr.
    replace (ncols X + Z.to_nat delta - ncols X) with (Z.to_nat delta) by lia.
    apply tab_shape.
Qed.

(** ** C5: the estimate of the VAR coefficients *)

Lemma for_each_map {I J St : Type} (g : I -> J) (l : list I)
  (body : J -> St -> result St) (s : St) :
  for_each (map g l) body s = for_each l (fun i => body (g i)) s.
Proof.
  revert s; induction l as [|i l IH]; intro s; simpl; [reflexivity|].
  destruct (body (g i) s); [apply IH | reflexivity].
Qed.

Lemma py_range_shift (a b : Z) :
  py_range (a + 1) (b + 1) = map (fun t => (t + 1)%Z) (py_range a b).
Proof.
  unfold py_range; rewrite map_map.
  replace (b + 1 - (a + 1))%Z with (b - a)%Z by lia.
  apply map_ext; intro i; lia.
Qed.

Lemma list_index_ok {A : Type} (l : list A) (k : nat) (dflt : A) :
  k < length l -> list_index l (Z.of_nat k) = Ok (nth k l dflt).
Proof.
  intro H; unfold list_index.
  rewrite norm_index_ok by lia.
  rewrite bind_ok, Nat2Z.id.
  rewrite (nth_error_nth' l dflt H); reflexivity.
Qed.

Lemma broadcast_to_same {A : Type} (da : A) (M : ndarray A) :
  broadcast_to da M (nrows M) (ncols M) = Ok (tab (nrows M) (ncols M) (get da M)).
Proof.
  unfold broadcast_to; rewrite !Nat.eqb_refl; simpl.
  f_equal; apply tab_ext; intros i j Hi Hj.
  rewrite !bidx_lt by assumption; reflexivity.
Qed.



Lemma slice_bound_within (n k : nat) : k <= n -> slice_bound n (Z.of_nat k) = k.
Proof. intro H; rewrite slice_bound_nonneg by lia; lia. Qed.

Section Stack.
Context {F : Type} {SF : Scalar F}.
Variables (X : ndarray F) (Psi : list (ndarray F)) (d n : nat).
Hypothesis Psi_length : length Psi = S d.
Hypothesis Psi_shape :
  forall k, k <= d ->
    nrows (nth k Psi (mk_array 0 0 [])) = n /\ ncols (nth k Psi (mk_array 0 0 [])) = ncols X.

(** The block of lag [k]. *)
Let block (k : nat) : ndarray F :=
  mat_product X (transpose zero (nth k Psi (mk_array 0 0 []))).

(** After the passes [k = 1, ..., m], block [k] occupies the rows
    [(k - 1) * R], ..., [k * R - 1] of [temp]. *)
Let filled (m : nat) (M : ndarray F) : Prop :=
  has_shape M (d * nrows X) n /\
  forall k i j, 1 <= k <= m -> i < nrows X -> j < n ->
    get zero M ((k - 1) * nrows X + i) j = get zero (block k) i j.

Lemma fill_temp_blocks (temp : ndarray F) :
  has_shape temp (d * nrows X) n ->
  exists Z, fill_temp (Z.of_nat (nrows X)) (Z.of_nat d) Psi X temp = Ok Z /\ filled d Z.
Proof.
  intro Htemp; unfold fill_temp.
  change (py_range 1 (Z.of_nat d + 1)) with (py_range (0 + 1) (Z.of_nat d + 1)).
  rewrite py_range_shift, for_each_map.
  apply (for_each_range_ind filled).
  - split; [exact Htemp | intros; lia].
  - intros m M Hm [[HMwf [HMr HMc]] Hblocks].
    destruct (Psi_shape (S m)) as [Hr Hc]; [lia|].
    replace (Z.of_nat m + 1)%Z with (Z.of_nat (S m)) by lia.
    rewrite (list_index_ok Psi (S m) (mk_array 0 0 [])) by lia.
    rewrite bind_ok, matmul_ok by (simpl; symmetry; exact Hc).
    rewrite bind_ok; fold (block (S m)).
    unfold set_row_slice.
    replace ((Z.of_nat (S m) - 1) * Z.of_nat (nrows X))%Z
      with (Z.of_nat (m * nrows X)) by lia.
    replace (Z.of_nat (S m) * Z.of_nat (nrows X))%Z
      with (Z.of_nat (S m * nrows X)) by lia.
    rewrite HMr, HMc, !slice_bound_within by nia.
    replace (S m * nrows X - m * nrows X) with (nrows (block (S m))) by (simpl; lia).
    pose proof (broadcast_to_same zero (block (S m))) as Hb.
    replace (ncols (block (S m))) with n in Hb by (simpl; symmetry; exact Hr).
    rewrite Hb, bind_ok.
    eexists; split; [reflexivity|].
    split; [apply tab_shape|].
    intros k i j Hk Hi Hj.
    rewrite get_tab by nia.
    destruct (Nat.eq_dec k (S m)) as [->|Hne].
    + replace (S m - 1) with m by lia.
      destruct (Nat.leb_spec (m * nrows X) (m * nrows X + i)); [|lia].
      destruct (Nat.ltb_spec (m * nrows X + i) (S m * nrows X)); [|lia].
      simpl andb; cbv iota.
      rewrite get_tab by (simpl; lia).
      f_equal; lia.
    + destruct (Nat.leb_spec (m * nrows X) ((k - 1) * nrows X + i)); [nia|].
      simpl; apply Hblocks; [lia | assumption | assumption].
Qed.



End Stack.



(** ** The X-operator and its solver *)

Lemma for_each_total_in {I St : Type} (Inv : St -> Prop) (l : list I)
  (body : I -> St -> result St) :
  (forall i s, In i l -> Inv s -> exists s', body i s = Ok s' /\ Inv s') ->
  forall s, Inv s -> exists s', for_each l body s = Ok s' /\ Inv s'.
Proof.
  induction l as [|i l IH]; intros Hstep s Hs; simpl.
  - exists s; split; [reflexivity | exact Hs].
  - destruct (Hstep i s (or_introl eq_refl) Hs) as [s1 [Hb Hs1]]; rewrite Hb.
    apply IH; [|exact Hs1].
    intros j t Hj; apply Hstep; right; exact Hj.
Qed.

Lemma list_index_first {A : Type} (l : list A) (dflt : A) :
  0 < length l -> list_index l 0 = Ok (nth 0 l dflt).
Proof. intro H; exact (list_index_ok l 0 dflt H). Qed.

Lemma broadcast_to_ok {A : Type} (da : A) (M : ndarray A) (r c : nat) :
  nrows M = r -> ncols M = c ->
  exists V, broadcast_to da M r c = Ok V /\ nrows V = r /\ ncols V = c.
Proof.
  intros <- <-; rewrite broadcast_to_same.
  eexists; split; [reflexivity | split; reflexivity].
Qed.

(** The X-operator is defined on conforming shapes: [W] of shape [(R, N)],
    [X] of shape [(R, T)], [A] of shape [(R, d * R)], the mask of shape
    [(N, T)] and [d + 1] operators of shape [(n, T)]. *)
Lemma ell_x_total {F : Type} {SF : Scalar F} (ind : ndarray bool) (W X A : ndarray F)
  (Psi : list (ndarray F)) (d n : nat) (lambda0 rho : F) :
  nrows W = nrows X -> nrows ind = ncols W -> ncols ind = ncols X ->
  nrows A = nrows X -> ncols A = d * nrows X ->
  length Psi = S d ->
  (forall k, k <= d ->
     nrows (nth k Psi (mk_array 0 0 [])) = n /\
     ncols (nth k Psi (mk_array 0 0 [])) = ncols X) ->
  exists L, ell_x ind W X A Psi (Z.of_nat d) lambda0 rho = Ok L /\
            nrows L = nrows X /\ ncols L = ncols X.
Proof.
  intros HW Hi1 Hi2 HAr HAc HPsi Hshape; unfold ell_x.
  destruct (Hshape 0) as [Hr0 Hc0]; [lia|].
  rewrite !(list_index_first Psi (mk_array 0 0 [])) by lia.
  rewrite bind_ok.
  set (Psi0 := nth 0 Psi (mk_array 0 0 [])) in *.
  rewrite np_zeros_ok by lia; rewrite bind_ok.
  match goal with |- context [for_each (py_range 1 (Z.of_nat d + 1)) ?b ?t0] =>
    set (fill := b); set (temp0 := t0) end.
  change (for_each (py_range 1 (Z.of_nat d + 1)) fill temp0)
    with (fill_temp (Z.of_nat (nrows X)) (Z.of_nat d) Psi X temp0).
  destruct (fill_temp_blocks X Psi d n HPsi Hshape temp0)
    as [temp [Hfill [[_ [Htr Htc]] _]]].
  { unfold temp0.
    replace (Z.to_nat (Z.of_nat d * Z.of_nat (nrows X))) with (d * nrows X) by lia.
    rewrite Hr0, Nat2Z.id; apply tab_shape. }
  rewrite Hfill, !bind_ok.
  rewrite matmul_ok by (simpl; symmetry; exact Hc0).
  rewrite bind_ok, matmul_ok by congruence.
  rewrite bind_ok; unfold mat_sub.
  destruct (broadcast2_same zero zero sub (mat_product X (transpose zero Psi0))
              (mat_product A temp)) as [temp1 [Ht1 [Ht1r Ht1c]]];
    [simpl; congruence | simpl; congruence |].
  simpl in Ht1r, Ht1c.
  rewrite Ht1, bind_ok, np_zeros_nat, bind_ok.
  match goal with |- context [for_each (py_range 0 (Z.of_nat d)) ?b ?t0] =>
    assert (Hloop : exists temp2, for_each (py_range 0 (Z.of_nat d)) b t0 = Ok temp2 /\
                      (nrows temp2 = nrows X /\ ncols temp2 = ncols X))
  end.
  { apply for_each_total_in; [|split; reflexivity].
    intros k temp2 Hk [H2r H2c]; apply py_range_In in Hk.
    replace k with (Z.of_nat (Z.to_nat k)) by lia.
    set (kn := Z.to_nat k); assert (Hkn : kn < d) by lia.
    destruct (Hshape (S kn)) as [Hrk Hck]; [lia|].
    replace (Z.of_nat kn + 1)%Z with (Z.of_nat (S kn)) by lia.
    rewrite (list_index_ok Psi (S kn) (mk_array 0 0 [])) by lia.
    unfold slice_cols.
    replace (Z.of_nat kn * Z.of_nat (nrows X))%Z with (Z.of_nat (kn * nrows X)) by lia.
    replace (Z.of_nat (S kn) * Z.of_nat (nrows X))%Z
      with (Z.of_nat (S kn * nrows X)) by lia.
    rewrite !slice_bound_within by (rewrite HAc; nia).
    rewrite matmul_ok by (simpl; lia).
    rewrite bind_ok, bind_ok.
    rewrite matmul_ok by (simpl; lia).
    rewrite bind_ok; unfold inplace_add.
    destruct (broadcast_to_ok zero
                (mat_product
                   (mat_product
                      (transpose zero (cols_between zero A (kn * nrows X) (S kn * nrows X)))
                      temp1)
                   (nth (S kn) Psi (mk_array 0 0 [])))
                (nrows temp2) (ncols temp2)) as [V [HV _]];
      [simpl; lia | simpl; lia |].
    rewrite HV, bind_ok.
    eexists; split; [reflexivity|]; split; simpl; assumption. }
  destruct Hloop as [temp2 [Hl2 [H2r H2c]]].
  rewrite Hl2, bind_ok.
  rewrite matmul_ok by (simpl; exact HW).
  rewrite bind_ok; unfold mask_mul.
  destruct (broadcast2_same zero false (fun x (b : bool) => mul x (if b then one else zero))
              (mat_product (transpose zero W) X) ind) as [P [HP [HPr HPc]]];
    [simpl; symmetry; exact Hi1 | simpl; symmetry; exact Hi2 |].
  simpl in HPr, HPc.
  rewrite HP, bind_ok, matmul_ok by congruence.
  rewrite bind_ok; unfold mat_add.
  destruct (broadcast2_same zero zero add (mat_product W P) (scale rho X))
    as [T3 [HT3 [HT3r HT3c]]]; [simpl; exact HW | simpl; congruence |].
  simpl in HT3r, HT3c.
  rewrite HT3, bind_ok, bind_ok.
  rewrite matmul_ok by (simpl; congruence).
  rewrite bind_ok.
  destruct (broadcast2_same zero zero sub (mat_product temp1 Psi0) temp2)
    as [T5 [HT5 [HT5r HT5c]]]; [simpl; congruence | simpl; congruence |].
  simpl in HT5r, HT5c.
  rewrite HT5, bind_ok.
  destruct (broadcast2_same zero zero add T3 (scale lambda0 T5))
    as [L [HL [HLr HLc]]]; [simpl; congruence | simpl; congruence |].
  exists L; split; [exact HL | split; congruence].
Qed.

Section SolverX.
Context {F : Type} {SF : Scalar F}.
Variables (sparse_mat : ndarray F) (ind : ndarray bool) (W X A : ndarray F)
  (Psi : list (ndarray F)) (d n : nat) (lambda0 rho : F).
Hypothesis W_rows : nrows W = nrows X.
Hypothesis data_rows : nrows sparse_mat = ncols W.
Hypothesis data_cols : ncols sparse_mat = ncols X.
Hypothesis mask_rows : nrows ind = ncols W.
Hypothesis mask_cols : ncols ind = ncols X.
Hypothesis A_rows : nrows A = nrows X.
Hypothesis A_cols : ncols A = d * nrows X.
Hypothesis Psi_length : length Psi = S d.
Hypothesis Psi_shape :
  forall k, k <= d ->
    nrows (nth k Psi (mk_array 0 0 [])) = n /\ ncols (nth k Psi (mk_array 0 0 [])) = ncols X.

(** The residual that both solvers for [X] start from. *)
Lemma conj_grad_x_residual :
  exists R,
    nrows R = nrows X /\ ncols R = ncols X /\
    forall (C : Type) (k : ndarray F -> result C),
      (B <- matmul W sparse_mat ;;
       L <- ell_x ind W X A Psi (Z.of_nat d) lambda0 rho ;;
       R <- mat_sub B L ;;
       k R) = k R.
Proof.
  destruct (ell_x_total ind W X A Psi d n lambda0 rho) as [L [HL [HLr HLc]]];
    try assumption.
  destruct (broadcast2_same zero zero sub (mat_product W sparse_mat) L)
    as [R [HR [HRr HRc]]]; [simpl; congruence | simpl; congruence |].
  exists R; simpl in HRr, HRc.
  split; [congruence|]; split; [congruence|].
  intros C k.
  rewrite matmul_ok by (symmetry; exact data_rows).
  rewrite bind_ok, HL, bind_ok; unfold mat_sub; rewrite HR; reflexivity.
Qed.

(** A direction [q] of the right length gives an image of that length. *)
Lemma conj_grad_x_image (q : list F) :
  length q = ncols X * nrows X ->
  exists Q LQ,
    reshape_F zero q (nrows X) (ncols X) = Ok Q /\
    ell_x ind W Q A Psi (Z.of_nat d) lambda0 rho = Ok LQ /\
    length (ravel_F zero LQ) = ncols X * nrows X.
Proof.
  intro Hq.
  destruct (reshape_F_ok zero q (nrows X) (ncols X) Hq) as [Q [HQ [HQr HQc]]].
  destruct (ell_x_total ind W Q A Psi d n lambda0 rho) as [LQ [HLQ [HLQr HLQc]]];
    try congruence.
  { intros k Hk; destruct (Psi_shape k Hk) as [H1 H2]; split; congruence. }
  exists Q, LQ; split; [exact HQ|]; split; [exact HLQ|].
  rewrite ravel_F_length; congruence.
Qed.

Lemma conj_grad_x_total (maxiter : Z) :
  exists X', NoTMF.conj_grad_x sparse_mat ind W X A Psi (Z.of_nat d) lambda0 rho maxiter
             = Ok X' /\
             has_shape X' (nrows X) (ncols X).
Proof.
  unfold NoTMF.conj_grad_x, conj_grad_x.
  destruct conj_grad_x_residual as [R [HRr [HRc HR]]].
  rewrite HR.
  set (m := ncols X * nrows X).
  assert (Hlen : length (ravel_F zero R) = m).
  { rewrite ravel_F_length, HRr, HRc; reflexivity. }
  rewrite (inner_ok _ _ eq_refl), bind_ok.
  match goal with |- context [for_each ?l ?b ?s0] =>
    assert (Hloop : exists st, for_each l b s0 = Ok st /\ cg_lengths m st);
    [apply for_each_total | destruct Hloop as [st [Hst Hinv]]] end.
  - intros _ [[[x r] q] rold] [Hx [Hr Hq]].
    destruct (conj_grad_x_image q Hq) as [Q [LQ [HQ [HLQ HLen]]]].
    rewrite HQ, bind_ok, HLQ, bind_ok.
    destruct (update_cg_total x r q (ravel_F zero LQ) rold m) as
      (x0 & x' & r' & rnew & q' & _ & _ & _ & _ & _ & Hup & Hinv); try assumption.
    exists (x', r', q', rnew); split; assumption.
  - simpl; repeat split; try exact Hlen.
    apply ravel_F_length.
  - rewrite Hst, bind_ok.
    destruct st as [[[x r] q] rold]; destruct Hinv as [Hx _].
    destruct (reshape_F_ok zero x (nrows X) (ncols X) Hx) as [X' [HX' _]].
    exists X'; split; [exact HX' | exact (reshape_F_shape _ _ _ _ _ HX')].
Qed.

Lemma conj_grad_x_ver_unbound (maxiter : Z) :
  (1 <= maxiter)%Z ->
  TMF.conj_grad_x sparse_mat ind W X A Psi (Z.of_nat d) lambda0 rho maxiter
  = Raise (UnboundLocalError "var").
Proof.
  intro Hm; unfold TMF.conj_grad_x, conj_grad_x.
  destruct conj_grad_x_residual as [R [HRr [HRc HR]]].
  rewrite HR.
  rewrite (inner_ok _ _ eq_refl), bind_ok.
  rewrite py_range_cons by lia.
  erewrite for_each_first_raises; [reflexivity|].
  destruct (conj_grad_x_image (ravel_F zero R)) as [Q [LQ [HQ [HLQ HLen]]]].
  { rewrite ravel_F_length, HRr, HRc; reflexivity. }
  rewrite HQ, bind_ok, HLQ, bind_ok.
  apply update_cg_ver_unbound_var.
  rewrite HLen, ravel_F_length, HRr, HRc; reflexivity.
Qed.

Lemma conj_grad_x_no_iteration :
  wf X ->
  TMF.conj_grad_x sparse_mat ind W X A Psi (Z.of_nat d) lambda0 rho 0 = Ok X.
Proof.
  intro HX; unfold TMF.conj_grad_x, conj_grad_x.
  destruct conj_grad_x_residual as [R [HRr [HRc HR]]].
  rewrite HR.
  rewrite (inner_ok _ _ eq_refl), bind_ok.
  rewrite py_range_nil by lia; simpl for_each; rewrite bind_ok.
  apply reshape_F_ravel_F; exact HX.
Qed.

End SolverX.

(** ** C10: the solver of the first part *)

(** C10, as the code has it.  Every call of the [update_cg] whose first
    parameter is named [ver] raises, and which exception is decided by
    [np.inner(q, Aq)], the first thing the body evaluates: on vectors [q],
    [Aq] of one length (the ones the solver passes) the local [var] is
    read before any assignment and the exception is the unbound-variable
    error; on vectors of two lengths [np.inner] raises [ValueError] and
    [var] is never read.  So [conj_grad_w] and [conj_grad_x] of that
    section raise for every [maxiter >= 1], on conforming shapes with the
    unbound-variable error; with [maxiter = 0] the loop is skipped and
    they return the [W], the [X], they were given. *)
Theorem update_cg_ver_unbound :
  forall (F : Type) (SF : Scalar F),
    (forall (ver r q Aq : list F) (rold : F),
        length q = length Aq ->
        TMF.update_cg ver r q Aq rold = Raise (UnboundLocalError "var")) /\
    (forall (ver r q Aq : list F) (rold : F),
        length q <> length Aq ->
        TMF.update_cg ver r q Aq rold = Raise ValueError) /\
    (forall (ver r q Aq : list F) (rold : F),
        exists e, TMF.update_cg ver r q Aq rold = Raise e) /\
    (forall sparse_mat ind (W X : ndarray F) rho maxiter,
        (1 <= maxiter)%Z ->
        exists e, TMF.conj_grad_w sparse_mat ind W X rho maxiter = Raise e) /\
    (forall sparse_mat ind (W X A : ndarray F) Psi d lambda0 rho maxiter,
        (1 <= maxiter)%Z ->
        exists e, TMF.conj_grad_x sparse_mat ind W X A Psi d lambda0 rho maxiter = Raise e) /\
    (forall sparse_mat ind (W X : ndarray F) rho maxiter,
        nrows X = nrows W -> ncols sparse_mat = ncols X -> nrows sparse_mat = ncols W ->
        nrows ind = ncols W -> ncols ind = ncols X -> (1 <= maxiter)%Z ->
        TMF.conj_grad_w sparse_mat ind W X rho maxiter = Raise (UnboundLocalError "var")) /\
    (forall sparse_mat ind (W X : ndarray F) rho,
        wf W ->
        nrows X = nrows W -> ncols sparse_mat = ncols X -> nrows sparse_mat = ncols W ->
        nrows ind = ncols W -> ncols ind = ncols X ->
        TMF.conj_grad_w sparse_mat ind W X rho 0 = Ok W) /\
    (forall sparse_mat ind (W X A : ndarray F) Psi (d n : nat) lambda0 rho maxiter,
        nrows W = nrows X -> nrows sparse_mat = ncols W -> ncols sparse_mat = ncols X ->
        nrows ind = ncols W -> ncols ind = ncols X ->
        nrows A = nrows X -> ncols A = d * nrows X ->
        length Psi = S d ->
        (forall k, k <= d ->
           nrows (nth k Psi (mk_array 0 0 [])) = n /\
           ncols (nth k Psi (mk_array 0 0 [])) = ncols X) ->
        (1 <= maxiter)%Z ->
        TMF.conj_grad_x sparse_mat ind W X A Psi (Z.of_nat d) lambda0 rho maxiter
        = Raise (UnboundLocalError "var")) /\
    (forall sparse_mat ind (W X A : ndarray F) Psi (d n : nat) lambda0 rho,
        wf X ->
        nrows W = nrows X -> nrows sparse_mat = ncols W -> ncols sparse_mat = ncols X ->
        nrows ind = ncols W -> ncols ind = ncols X ->
        nrows A = nrows X -> ncols A = d * nrows X ->
        length Psi = S d ->
        (forall k, k <= d ->
           nrows (nth k Psi (mk_array 0 0 [])) = n /\
           ncols (nth k Psi (mk_array 0 0 [])) = ncols X) ->
        TMF.conj_grad_x sparse_mat ind W X A Psi (Z.of_nat d) lambda0 rho 0 = Ok X).
Proof.
  intros F SF.
  split; [intros; apply update_cg_ver_unbound_var; assumption|].
  split; [intros; apply update_cg_ver_value_error; assumption|].
  split; [intros; apply update_cg_ver_raises|].
  split; [intros; apply conj_grad_w_needs_update;
          [apply update_cg_ver_raises | assumption]|].
  split; [intros; apply conj_grad_x_needs_update;
          [apply update_cg_ver_raises | assumption]|].
  split; [intros; apply conj_grad_w_ver_unbound; assumption|].
  split; [intros; apply conj_grad_w_no_iteration; assumption|].
  split.
  - intros; eapply conj_grad_x_ver_unbound; eassumption.
  - intros; eapply conj_grad_x_no_iteration; eassumption.
Qed.

(** ** C6: a zero denominator in the solver *)

(** C6, as the code has it.  [update_cg] divides [rold] by [q . L(q)]
    without a test: on vectors of one length it returns the state updated
    with that quotient, whatever the denominator, and [conj_grad_w] and
    [conj_grad_x] on conforming shapes complete their [maxiter] passes and
    return a factor matrix.  No solver failure is raised. *)
Theorem update_cg_divides_unchecked :
  forall (F : Type) (SF : Scalar F),
    (forall (var r q Aq : list F) (rold : F) (n : nat),
        length var = n -> length r = n -> length q = n -> length Aq = n ->
        exists x var' r' rnew q',
          inner q Aq = Ok x /\
          vadd var (vscale (div rold x) q) = Ok var' /\
          vsub r (vscale (div rold x) Aq) = Ok r' /\
          inner r' r' = Ok rnew /\
          vadd r' (vscale (div rnew rold) q) = Ok q' /\
          NoTMF.update_cg var r q Aq rold = Ok (var', r', q', rnew)) /\
    (forall (sparse_mat : ndarray F) (ind : ndarray bool) (W X : ndarray F) (rho : F)
            (maxiter : Z),
        nrows X = nrows W -> ncols sparse_mat = ncols X -> nrows sparse_mat = ncols W ->
        nrows ind = ncols W -> ncols ind = ncols X ->
        exists W', NoTMF.conj_grad_w sparse_mat ind W X rho maxiter = Ok W' /\
                   has_shape W' (nrows W) (ncols W)) /\
    (forall (sparse_mat : ndarray F) (ind : ndarray bool) (W X A : ndarray F)
            (Psi : list (ndarray F)) (d n : nat) (lambda0 rho : F) (maxiter : Z),
        nrows W = nrows X -> nrows sparse_mat = ncols W -> ncols sparse_mat = ncols X ->
        nrows ind = ncols W -> ncols ind = ncols X ->
        nrows A = nrows X -> ncols A = d * nrows X ->
        length Psi = S d ->
        (forall k, k <= d ->
           nrows (nth k Psi (mk_array 0 0 [])) = n /\
           ncols (nth k Psi (mk_array 0 0 [])) = ncols X) ->
        exists X',
          NoTMF.conj_grad_x sparse_mat ind W X A Psi (Z.of_nat d) lambda0 rho maxiter
          = Ok X' /\
          has_shape X' (nrows X) (ncols X)).
Proof.
  intros F SF; split; [|split].
  - intros var r q Aq rold n Hv Hr Hq HA.
    destruct (update_cg_total var r q Aq rold n Hv Hr Hq HA)
      as (x & var' & r' & rnew & q' & H1 & H2 & H3 & H4 & H5 & H6 & _).
    exists x, var', r', rnew, q'; repeat split; assumption.
  - intros; apply conj_grad_w_total; assumption.
  - intros; eapply conj_grad_x_total; eassumption.
Qed.

(** ** C2 and C8: the rolling forecast *)

Lemma np_where_bounds (B : ndarray bool) (p : nat * nat) :
  In p (np_where B) -> fst p < nrows B /\ snd p < ncols B.
Proof.
  unfold np_where; intro H.
  apply in_flat_map in H; destruct H as [i [Hi H]].
  apply in_flat_map in H; destruct H as [j [Hj H]].
  apply in_seq in Hi; apply in_seq in Hj.
  destruct (get false B i j); [|contradiction].
  destruct H as [<-|[]]; simpl; lia.
Qed.

Lemma take_at_ok {A : Type} (da : A) (M : ndarray A) (pos : list (nat * nat)) :
  (forall p, In p pos -> fst p < nrows M /\ snd p < ncols M) ->
  exists v, take_at da M pos = Ok v.
Proof.
  intro H; unfold take_at.
  eexists; apply (mapM_ok _ (fun p => get da M (fst p) (snd p))).
  intros p Hp; destruct (H p Hp) as [H1 H2].
  destruct (Nat.ltb_spec (fst p) (nrows M)); [|lia].
  destruct (Nat.ltb_spec (snd p) (ncols M)); [reflexivity | lia].
Qed.


Lemma read_local_inv {A : Type} (name : string) (v : option A) (a : A) :
  read_local name v = Ok a -> v = Some a.
Proof. destruct v; simpl; intro H; [injection H as ->; reflexivity | discriminate H]. Qed.

Lemma set_col_slice_shape {A : Type} (da : A) (M V M' : ndarray A) (lo hi : Z) :
  set_col_slice da M lo hi V = Ok M' -> nrows M' = nrows M /\ ncols M' = ncols M.
Proof.
  unfold set_col_slice; intro H.
  apply bind_inv in H; destruct H as [V' [_ H]].
  injection H as <-; split; reflexivity.
Qed.

(** What a step of [rolling4cast] that returns has done: the fit (the full
    one at [t = 0], [notmf_dic] on the [W] and [A] at hand and the
    extrapolated [X_new] afterwards), the extrapolation, and the write of
    [delta] columns of forecasts. *)
Lemma rolling_step_inv {F : Type} {SF : Scalar F} {LA : LinAlg F} (draws : nat -> F)
  (dense_mat : ndarray F) (start_time delta rank d : Z) (lambda0 rho : F)
  (season maxiter t : Z) (st st' : NoTMF.rolling_state F) :
  NoTMF.rolling_step draws dense_mat start_time delta rank d lambda0 rho season maxiter t st
    = Ok st' ->
  exists W X A X_new V,
    (if (t =? 0)%Z then
       exists mh0,
         NoTMF.notmf draws (slice_cols_to zero dense_mat start_time)
           (slice_cols_to zero (NoTMF.r_sparse st) start_time)
           rank d lambda0 rho season maxiter = Ok (mh0, W, X, A)
     else
       exists X_prev A_prev,
         NoTMF.r_W st = Some W /\ NoTMF.r_X_new st = Some X_prev /\
         NoTMF.r_A st = Some A_prev /\
         NoTMF.notmf_dic
           (slice_cols_to zero (NoTMF.r_sparse st) (start_time + t * delta))
           W X_prev A_prev d lambda0 rho season = Ok (X, A)) /\
    NoTMF.var4cast X A d delta season = Ok X_new /\
    matmul (transpose zero W) (slice_cols_from zero X_new (- delta)) = Ok V /\
    set_col_slice zero (NoTMF.r_mat_hat st) (t * delta) ((t + 1) * delta) V
      = Ok (NoTMF.r_mat_hat st') /\
    NoTMF.r_W st' = Some W /\ NoTMF.r_X st' = Some X /\ NoTMF.r_A st' = Some A /\
    NoTMF.r_X_new st' = Some X_new.
Proof.
  unfold NoTMF.rolling_step; intro H.
  apply bind_inv in H; destruct H as [[[[sp W] X] A] [Hfit H]].
  apply bind_inv in H; destruct H as [X_new [Hvar H]].
  apply bind_inv in H; destruct H as [V [HV H]].
  apply bind_inv in H; destruct H as [mat_hat [Hset H]].
  injection H as <-; simpl.
  exists W, X, A, X_new, V.
  split; [|repeat split; assumption].
  destruct (t =? 0)%Z.
  - apply bind_inv in Hfit; destruct Hfit as [[[[mh0 W0] X0] A0] [Hn Hfit]].
    apply bind_inv in Hfit; destruct Hfit as [sp' [_ Hfit]].
    injection Hfit as _ <- <- <-.
    exists mh0; exact Hn.
  - apply bind_inv in Hfit; destruct Hfit as [W0 [HW Hfit]].
    apply bind_inv in Hfit; destruct Hfit as [Xp [HXp Hfit]].
    apply bind_inv in Hfit; destruct Hfit as [Ap [HAp Hfit]].
    apply bind_inv in Hfit; destruct Hfit as [[X0 A0] [Hn Hfit]].
    apply bind_inv in Hfit; destruct Hfit as [sp' [_ Hfit]].
    injection Hfit as _ <- <- <-.
    exists Xp, Ap.
    repeat split; try (apply read_local_inv with (1 := HW));
      try (apply read_local_inv with (1 := HXp));
      try (apply read_local_inv with (1 := HAp)); exact Hn.
Qed.

(** The ceiling of [p / q] for a positive [q]. *)
Lemma ceil_div_spec (p q c : Z) :
  (1 <= q)%Z -> NoTMF.ceil_div p q = Ok c ->
  ((c - 1) * q < p <= c * q)%Z.
Proof.
  intros Hq; unfold NoTMF.ceil_div.
  destruct (Z.eqb_spec q 0); [lia|].
  intro H; injection H as <-.
  pose proof (Z.div_mod (- p) q ltac:(lia)) as Hdm.
  pose proof (Z.mod_pos_bound (- p) q ltac:(lia)) as Hb.
  nia.
Qed.

Lemma rolling_steps_shape {F : Type} {SF : Scalar F} {LA : LinAlg F} (draws : nat -> F)
  (dense_mat : ndarray F) (start_time delta rank d : Z) (lambda0 rho : F)
  (season maxiter : Z) (l : list Z) (st st' : NoTMF.rolling_state F) :
  for_each l
    (NoTMF.rolling_step draws dense_mat start_time delta rank d lambda0 rho season maxiter)
    st = Ok st' ->
  nrows (NoTMF.r_mat_hat st') = nrows (NoTMF.r_mat_hat st) /\
  ncols (NoTMF.r_mat_hat st') = ncols (NoTMF.r_mat_hat st).
Proof.
  apply (for_each_invariant
           (fun s => nrows (NoTMF.r_mat_hat s) = nrows (NoTMF.r_mat_hat st) /\
                     ncols (NoTMF.r_mat_hat s) = ncols (NoTMF.r_mat_hat st))).
  - intros t s s' _ [Hr Hc] Hstep.
    apply rolling_step_inv in Hstep.
    destruct Hstep as (W & X & A & X_new & V & _ & _ & _ & Hset & _).
    apply set_col_slice_shape in Hset; destruct Hset as [Hr' Hc'].
    split; congruence.
  - split; reflexivity.
Qed.

(** C2, as the code has it.  For [pred_step >= 1] and [delta >= 1], a
    call of [rolling4cast] that returns has run the loop over exactly
    [ceil(pred_step / delta)] steps, and the forecast matrix it returns has
    [ceil(pred_step / delta) * delta] columns: that is [pred_step] exactly
    when [delta] divides [pred_step], and more otherwise. *)
Theorem rolling4cast_width :
  forall (F : Type) (SF : Scalar F) (LA : LinAlg F) (draws : nat -> F)
         (dense_mat sparse_mat : ndarray F) (pred_step delta rank d : Z)
         (lambda0 rho : F) (season maxiter : Z) (mat_hat W X A : ndarray F),
    (1 <= pred_step)%Z -> (1 <= delta)%Z ->
    NoTMF.rolling4cast draws dense_mat sparse_mat pred_step delta rank d lambda0 rho
      season maxiter = Ok (mat_hat, W, X, A) ->
    exists (max_count : Z) (zeros : ndarray F) (st : NoTMF.rolling_state F),
      ((max_count - 1) * delta < pred_step <= max_count * delta)%Z /\
      length (py_range 0 max_count) = Z.to_nat max_count /\
      np_zeros (Z.of_nat (nrows sparse_mat)) (max_count * delta) = Ok zeros /\
      for_each (py_range 0 max_count)
        (NoTMF.rolling_step draws dense_mat (Z.of_nat (ncols sparse_mat) - pred_step)
           delta rank d lambda0 rho season maxiter)
        (NoTMF.mk_rolling zeros sparse_mat None None None None) = Ok st /\
      NoTMF.r_mat_hat st = mat_hat /\
      nrows mat_hat = nrows sparse_mat /\
      Z.of_nat (ncols mat_hat) = (max_count * delta)%Z /\
      (pred_step <= Z.of_nat (ncols mat_hat) < pred_step + delta)%Z /\
      (Z.of_nat (ncols mat_hat) = pred_step <-> (delta | pred_step)%Z) /\
      (let small := slice_cols zero dense_mat (Z.of_nat (ncols sparse_mat) - pred_step)
                      (Z.of_nat (ncols sparse_mat)) in
       exists B v,
         logical_and (nonzero small) (invert (isnan small)) = Ok B /\
         take_at zero mat_hat (np_where B) = Ok v /\
         forall p, In p (np_where B) -> (Z.of_nat (snd p) < pred_step)%Z).
Proof.
  intros F SF LA draws dense_mat sparse_mat pred_step delta rank d lambda0 rho
    season maxiter mat_hat W X A Hp Hd H.
  unfold NoTMF.rolling4cast in H.
  apply bind_inv in H; destruct H as [c [Hc H]].
  apply bind_inv in H; destruct H as [zeros [Hz H]].
  apply bind_inv in H; destruct H as [st [Hrun H]].
  apply bind_inv in H; destruct H as [pos [Hpos H]].
  apply bind_inv in H; destruct H as [v1 [_ H]].
  apply bind_inv in H; destruct H as [v2 [Hv2 H]].
  apply bind_inv in H; destruct H as [W' [_ H]].
  apply bind_inv in H; destruct H as [X' [_ H]].
  apply bind_inv in H; destruct H as [A' [_ H]].
  injection H as Hmh _ _ _.
  apply bind_inv in Hpos; destruct Hpos as [B [HB Hpos]].
  injection Hpos as <-.
  pose proof (ceil_div_spec pred_step delta c Hd Hc) as Hceil.
  assert (Hcpos : (0 <= c * delta)%Z) by nia.
  pose proof Hz as Hz'.
  rewrite np_zeros_ok in Hz' by lia; injection Hz' as Hz'.
  destruct (rolling_steps_shape _ _ _ _ _ _ _ _ _ _ _ _ _ Hrun) as [Hr Hcs].
  simpl in Hr, Hcs; rewrite <- Hz' in Hr, Hcs; simpl in Hr, Hcs.
  exists c, zeros, st.
  split; [exact Hceil|].
  split; [rewrite py_range_length; f_equal; lia|].
  split; [exact Hz|].
  split; [exact Hrun|].
  split; [exact Hmh|].
  rewrite <- Hmh, Hr, Hcs.
  split; [lia|].
  split; [lia|].
  split; [lia|].
  split; [split|].
  - intro E; exists c; lia.
  - intros [k Hk].
    assert (k = c) by nia.
    subst k; lia.
  - exists B, v2; split; [exact HB|]; split; [exact Hv2|].
    intros p Hin; apply np_where_bounds in Hin; destruct Hin as [_ Hsnd].
    set (small := slice_cols zero dense_mat (Z.of_nat (ncols sparse_mat) - pred_step)
                    (Z.of_nat (ncols sparse_mat))) in *.
    destruct (broadcast2_same false false andb (nonzero small) (invert (isnan small)))
      as [B' [HB' [_ HBc]]]; [reflexivity | reflexivity |].
    unfold logical_and in HB; rewrite HB' in HB; injection HB as ->.
    rewrite HBc in Hsnd; simpl in Hsnd.
    assert (Hw : (Z.of_nat
                    (slice_bound (ncols dense_mat) (Z.of_nat (ncols sparse_mat))
                     - slice_bound (ncols dense_mat)
                         (Z.of_nat (ncols sparse_mat) - pred_step)) <= pred_step)%Z).
    { rewrite (slice_bound_nonneg _ (Z.of_nat (ncols sparse_mat))) by lia.
      destruct (Z.lt_ge_cases (Z.of_nat (ncols sparse_mat) - pred_step) 0).
      - rewrite slice_bound_neg by lia; lia.
      - rewrite slice_bound_nonneg by lia; lia. }
    lia.
Qed.

(** A step after the first leaves [W] as it is: it reads [W], [X_new] and
    [A], and refits [X] and [A] by [notmf_dic]. *)
Lemma rolling_step_frame {F : Type} {SF : Scalar F} {LA : LinAlg F} (draws : nat -> F)
  (dense_mat : ndarray F) (start_time delta rank d : Z) (lambda0 rho : F)
  (season maxiter t : Z) (st st' : NoTMF.rolling_state F) :
  t <> 0%Z ->
  NoTMF.rolling_step draws dense_mat start_time delta rank d lambda0 rho season maxiter t st
    = Ok st' ->
  NoTMF.r_W st' = NoTMF.r_W st /\
  exists W0 X_prev A_prev X' A',
    NoTMF.r_W st = Some W0 /\ NoTMF.r_X_new st = Some X_prev /\
    NoTMF.r_A st = Some A_prev /\
    NoTMF.notmf_dic (slice_cols_to zero (NoTMF.r_sparse st) (start_time + t * delta))
      W0 X_prev A_prev d lambda0 rho season = Ok (X', A') /\
    NoTMF.r_X st' = Some X' /\ NoTMF.r_A st' = Some A'.
Proof.
  intros Ht H; apply rolling_step_inv in H.
  destruct H as (W & X & A & X_new & V & Hfit & _ & _ & _ & HW & HX & HA & _).
  destruct (Z.eqb_spec t 0) as [E|_]; [contradiction|].
  destruct Hfit as [Xp [Ap [HW0 [HXp [HAp Hdic]]]]].
  split; [congruence|].
  exists W, Xp, Ap, X, A; repeat split; assumption.
Qed.

(** C8. The [W] that [rolling4cast] returns is the [W] of the full fit of
    step 0: every later step reads it, and refits [X] and [A] only, by
    [notmf_dic] started from the extrapolated [X] of the step before. *)
Theorem rolling4cast_keeps_W :
  forall (F : Type) (SF : Scalar F) (LA : LinAlg F) (draws : nat -> F)
         (dense_mat sparse_mat : ndarray F) (pred_step delta rank d : Z)
         (lambda0 rho : F) (season maxiter : Z) (mat_hat W X A : ndarray F),
    NoTMF.rolling4cast draws dense_mat sparse_mat pred_step delta rank d lambda0 rho
      season maxiter = Ok (mat_hat, W, X, A) ->
    let start_time := (Z.of_nat (ncols sparse_mat) - pred_step)%Z in
    (exists mh0 X0 A0,
        NoTMF.notmf draws (slice_cols_to zero dense_mat start_time)
          (slice_cols_to zero sparse_mat start_time) rank d lambda0 rho season maxiter
        = Ok (mh0, W, X0, A0)) /\
    (forall t st st',
        t <> 0%Z ->
        NoTMF.rolling_step draws dense_mat start_time delta rank d lambda0 rho
          season maxiter t st = Ok st' ->
        NoTMF.r_W st' = NoTMF.r_W st /\
        exists W0 X_prev A_prev X' A',
          NoTMF.r_W st = Some W0 /\ NoTMF.r_X_new st = Some X_prev /\
          NoTMF.r_A st = Some A_prev /\
          NoTMF.notmf_dic
            (slice_cols_to zero (NoTMF.r_sparse st) (start_time + t * delta))
            W0 X_prev A_prev d lambda0 rho season = Ok (X', A') /\
          NoTMF.r_X st' = Some X' /\ NoTMF.r_A st' = Some A').
Proof.
  intros F SF LA draws dense_mat sparse_mat pred_step delta rank d lambda0 rho
    season maxiter mat_hat W X A H start_time.
  split; [|intros t st st'; apply rolling_step_frame].
  unfold NoTMF.rolling4cast in H; fold start_time in H.
  apply bind_inv in H; destruct H as [c [Hc H]].
  apply bind_inv in H; destruct H as [zeros [Hz H]].
  apply bind_inv in H; destruct H as [st [Hrun H]].
  apply bind_inv in H; destruct H as [pos [_ H]].
  apply bind_inv in H; destruct H as [v1 [_ H]].
  apply bind_inv in H; destruct H as [v2 [_ H]].
  apply bind_inv in H; destruct H as [W' [HW H]].
  apply bind_inv in H; destruct H as [X' [_ H]].
  apply bind_inv in H; destruct H as [A' [_ H]].
  injection H as _ -> _ _.
  apply read_local_inv in HW.
  destruct (Z.le_gt_cases c 0) as [Hle|Hgt].
  - rewrite py_range_nil in Hrun by lia.
    injection Hrun as <-; discriminate HW.
  - rewrite py_range_cons in Hrun by lia.
    simpl for_each in Hrun.
    match type of Hrun with
    | match ?b with _ => _ end = _ => destruct b as [st1|e] eqn:Hfirst; [|discriminate Hrun]
    end.
    apply rolling_step_inv in Hfirst.
    destruct Hfirst as (W0 & X0 & A0 & X_new & V & Hfit & _ & _ & _ & HW0 & _).
    simpl in Hfit; destruct Hfit as [mh0 Hfit].
    assert (Hkeep : NoTMF.r_W st = Some W0).
    { revert Hrun.
      apply (for_each_invariant (fun s => NoTMF.r_W s = Some W0)); [|exact HW0].
      intros t s s' Ht Hs Hstep.
      apply py_range_In in Ht.
      apply rolling_step_frame in Hstep; [|lia].
      destruct Hstep as [Hsame _]; congruence. }
    exists mh0, X0, A0.
    replace W with W0 by congruence.
    exact Hfit.
Qed.

(** ** C7: configurations that no fit can run on *)

Lemma randn_ok {F : Type} {SF : Scalar F} (draws : nat -> F) (pos : nat) (r c : Z) :
  (0 <= r)%Z -> (0 <= c)%Z ->
  randn draws pos r c =
  Ok (tab (Z.to_nat r) (Z.to_nat c) (fun i j => draws (pos + i * Z.to_nat c + j))).
Proof.
  intros Hr Hc; unfold randn.
  destruct (Z.ltb_spec r 0); [lia|].
  destruct (Z.ltb_spec c 0); [lia|].
  reflexivity.
Qed.

Lemma randn_negative {F : Type} {SF : Scalar F} (draws : nat -> F) (pos : nat) (r c : Z) :
  (r < 0 \/ c < 0)%Z -> randn draws pos r c = Raise ValueError.
Proof.
  intro H; unfold randn.
  destruct (Z.ltb_spec r 0); [reflexivity|].
  destruct (Z.ltb_spec c 0); [reflexivity | lia].
Qed.

(** The masks of [notmf] on data of one shape. *)
Lemma observed_ok {F : Type} {SF : Scalar F} (dense_mat sparse_mat : ndarray F) :
  nrows dense_mat = nrows sparse_mat -> ncols dense_mat = ncols sparse_mat ->
  exists ind pos_test sparse' dense_test,
    NoTMF.observed dense_mat sparse_mat = Ok (ind, pos_test, sparse') /\
    take_at zero dense_mat pos_test = Ok dense_test.
Proof.
  intros Hr Hc; unfold NoTMF.observed.
  destruct (negb (any (isnan sparse_mat))).
  - destruct (broadcast2_same false false andb (nonzero dense_mat) (iszero sparse_mat))
      as [B [HB [HBr HBc]]]; [exact Hr | exact Hc |].
    unfold logical_and; rewrite HB, bind_ok.
    destruct (take_at_ok zero dense_mat (np_where B)) as [v Hv].
    { intros p Hp; apply np_where_bounds in Hp; simpl in HBr, HBc; lia. }
    eexists _, _, _, v; split; [reflexivity | exact Hv].
  - destruct (broadcast2_same false false andb (nonzero dense_mat) (isnan sparse_mat))
      as [B [HB [HBr HBc]]]; [exact Hr | exact Hc |].
    unfold logical_and; rewrite HB, bind_ok.
    destruct (take_at_ok zero dense_mat (np_where B)) as [v Hv].
    { intros p Hp; apply np_where_bounds in Hp; simpl in HBr, HBc; lia. }
    eexists _, _, _, v; split; [reflexivity | exact Hv].
Qed.

(** A negative season, or a window of less than [d + season] steps, asks
    [generate_Psi] for an array with a negative dimension. *)
Lemma generate_Psi_refused {F : Type} {SF : Scalar F} (T d season : Z) :
  (0 <= d)%Z -> (season < 0 \/ T < d + season)%Z ->
  NoTMF.generate_Psi (F := F) T d season = Raise ValueError.
Proof.
  intros Hd H; unfold NoTMF.generate_Psi.
  rewrite py_range_cons by lia.
  apply for_each_first_raises.
  change (0 =? 0)%Z with true; cbv iota.
  destruct (Z.ltb_spec (T - d - season) 0) as [Hneg|Hpos].
  - rewrite np_zeros_negative by lia; reflexivity.
  - rewrite np_zeros_ok, np_eye_ok by lia; rewrite !bind_ok.
    rewrite np_zeros_negative by lia; reflexivity.
Qed.

Lemma generate_Psi_plain_refused {F : Type} {SF : Scalar F} (T d : Z) :
  (0 <= d)%Z -> (T < d)%Z -> TMF.generate_Psi (F := F) T d = Raise ValueError.
Proof.
  intros Hd H; unfold TMF.generate_Psi.
  rewrite py_range_cons by lia.
  apply for_each_first_raises.
  change (0 =? 0)%Z with true; cbv iota.
  rewrite np_zeros_negative by lia; reflexivity.
Qed.

(** C7, as the code has it.  No fit checks its configuration.  A negative
    rank, a negative season and a window of less than [d + m] steps are
    stopped before the first pass of the loop, for every [maxiter], by
    numpy refusing an array of negative dimension ([ValueError]). *)
Theorem fit_refuses_negative_dimensions :
  forall (F : Type) (SF : Scalar F) (LA : LinAlg F),
    (forall (draws : nat -> F) (dense_mat sparse_mat : ndarray F) (rank d : Z)
            (lambda0 rho : F) (season maxiter : Z),
        (rank < 0)%Z ->
        NoTMF.notmf draws dense_mat sparse_mat rank d lambda0 rho season maxiter
        = Raise ValueError) /\
    (forall (draws : nat -> F) (dense_mat sparse_mat : ndarray F) (rank d : Z)
            (lambda0 rho : F) (season maxiter : Z),
        nrows dense_mat = nrows sparse_mat -> ncols dense_mat = ncols sparse_mat ->
        (0 <= rank)%Z -> (0 <= d)%Z ->
        (season < 0 \/ Z.of_nat (ncols sparse_mat) < d + season)%Z ->
        NoTMF.notmf draws dense_mat sparse_mat rank d lambda0 rho season maxiter
        = Raise ValueError) /\
    (forall (obs W X A : ndarray F) (d : Z) (lambda0 rho : F) (season : Z),
        (0 <= d)%Z -> (season < 0 \/ Z.of_nat (ncols obs) < d + season)%Z ->
        NoTMF.notmf_dic obs W X A d lambda0 rho season = Raise ValueError) /\
    (forall (draws : nat -> F) (sparse_mat : ndarray F) (rank d : Z)
            (lambda0 rho : F) (maxiter : Z),
        (0 <= rank)%Z -> (0 <= d)%Z -> (Z.of_nat (ncols sparse_mat) < d)%Z ->
        TMF.tmf draws sparse_mat rank d lambda0 rho maxiter = Raise ValueError).
Proof.
  intros F SF LA; repeat split.
  - intros; unfold NoTMF.notmf.
    rewrite randn_negative by lia; reflexivity.
  - intros draws dense_mat sparse_mat rank d lambda0 rho season maxiter Hr Hc Hrank Hd H.
    unfold NoTMF.notmf.
    rewrite !randn_ok by nia; rewrite !bind_ok.
    destruct (observed_ok dense_mat sparse_mat Hr Hc)
      as (ind & pos_test & sparse' & dense_test & Hobs & Htake).
    rewrite Hobs, bind_ok, Htake, bind_ok.
    rewrite generate_Psi_refused by assumption; reflexivity.
  - intros obs W X A d lambda0 rho season Hd H.
    unfold NoTMF.notmf_dic.
    destruct (NoTMF.observed_dic obs) as [ind obs'].
    rewrite generate_Psi_refused by assumption; reflexivity.
  - intros draws sparse_mat rank d lambda0 rho maxiter Hrank Hd H.
    unfold TMF.tmf.
    rewrite !randn_ok by nia; rewrite !bind_ok.
    rewrite generate_Psi_plain_refused by assumption; reflexivity.
Qed.

(** ** C1: the outer loop *)

(** [tmf] calls the solver of its own section: no call returns.  With
    [maxiter >= 1] the first pass raises in [conj_grad_w]; with no pass at
    all, [mat_hat] is unbound at the [return]. *)
Lemma tmf_raises {F : Type} {SF : Scalar F} {LA : LinAlg F} (draws : nat -> F)
  (sparse_mat : ndarray F) (rank d : Z) (lambda0 rho : F) (maxiter : Z) :
  exists e, TMF.tmf draws sparse_mat rank d lambda0 rho maxiter = Raise e.
Proof.
  unfold TMF.tmf.
  do 5 step_raise.
  destruct (Z.le_gt_cases maxiter 0) as [Hle|Hgt].
  - rewrite py_range_nil by lia.
    exists (UnboundLocalError "mat_hat"); reflexivity.
  - rewrite py_range_cons by lia.
    match goal with |- context [for_each (0%Z :: ?l) ?b ?s0] =>
      set (body := b); set (init := s0);
      assert (Hfirst : exists e, body 0%Z init = Raise e) end.
    { subst body init; cbv beta; unfold TMF.tmf_body.
      match goal with |- context [TMF.conj_grad_w ?s ?i ?w ?x ?r ?m] =>
        destruct (conj_grad_w_needs_update TMF.update_cg update_cg_ver_raises s i w x r m)
          as [e He]; [lia|] end.
      unfold TMF.conj_grad_w; rewrite He, bind_raise; eexists; reflexivity. }
    destruct Hfirst as [e He].
    rewrite (for_each_first_raises 0%Z _ body init e He), bind_raise.
    eexists; reflexivity.
Qed.

Lemma tmf_unbound_var {F : Type} {SF : Scalar F} {LA : LinAlg F} (draws : nat -> F)
  (sparse_mat : ndarray F) (rank d : Z) (lambda0 rho : F) (maxiter : Z) :
  (0 <= rank)%Z -> (0 <= d <= Z.of_nat (ncols sparse_mat))%Z -> (1 <= maxiter)%Z ->
  TMF.tmf draws sparse_mat rank d lambda0 rho maxiter = Raise (UnboundLocalError "var").
Proof.
  intros Hrank Hd Hm; unfold TMF.tmf.
  rewrite !randn_ok by nia; rewrite !bind_ok.
  rewrite generate_Psi_plain by lia; rewrite bind_ok.
  rewrite np_zeros_ok by nia; rewrite bind_ok.
  rewrite py_range_cons by lia.
  erewrite for_each_first_raises; [reflexivity|].
  unfold TMF.tmf_body.
  rewrite conj_grad_w_ver_unbound; [reflexivity | | | | | | lia]; simpl; lia.
Qed.

(** With no pass of the loop, [notmf] too reaches its [return] with
    [mat_hat] unbound. *)
Lemma notmf_no_pass {F : Type} {SF : Scalar F} {LA : LinAlg F} (draws : nat -> F)
  (dense_mat sparse_mat : ndarray F) (rank d : Z) (lambda0 rho : F) (season maxiter : Z) :
  (maxiter <= 0)%Z ->
  exists e, NoTMF.notmf draws dense_mat sparse_mat rank d lambda0 rho season maxiter
            = Raise e.
Proof.
  intro Hm; unfold NoTMF.notmf.
  do 4 step_raise.
  destruct a2 as [[ind pos_test] sparse'].
  do 3 step_raise.
  rewrite py_range_nil by lia.
  exists (UnboundLocalError "mat_hat"); reflexivity.
Qed.

(** A call of [notmf] that returns has run the body of the loop
    [maxiter] times, in order, from the random start, and returns the
    state that the last pass left. *)
Lemma notmf_passes {F : Type} {SF : Scalar F} {LA : LinAlg F} (draws : nat -> F)
  (dense_mat sparse_mat : ndarray F) (rank d : Z) (lambda0 rho : F) (season maxiter : Z)
  (mat_hat W X A : ndarray F) :
  NoTMF.notmf draws dense_mat sparse_mat rank d lambda0 rho season maxiter
    = Ok (mat_hat, W, X, A) ->
  exists ind pos_test sparse' Psi W0 X0 A0 temp0 temp,
    NoTMF.observed dense_mat sparse_mat = Ok (ind, pos_test, sparse') /\
    NoTMF.generate_Psi (Z.of_nat (ncols sparse_mat)) d season = Ok Psi /\
    (1 <= maxiter)%Z /\
    length (py_range 0 maxiter) = Z.to_nat maxiter /\
    for_each (py_range 0 maxiter)
      (NoTMF.notmf_body sparse' ind pos_test Psi rank d lambda0 rho)
      (W0, X0, A0, temp0, None) = Ok (W, X, A, temp, Some mat_hat).
Proof.
  intro H; unfold NoTMF.notmf in H.
  apply bind_inv in H; destruct H as [G1 [_ H]].
  apply bind_inv in H; destruct H as [G2 [_ H]].
  apply bind_inv in H; destruct H as [G3 [_ H]].
  apply bind_inv in H; destruct H as [[[ind pos_test] sparse'] [Hobs H]].
  apply bind_inv in H; destruct H as [dense_test [_ H]].
  apply bind_inv in H; destruct H as [Psi [HPsi H]].
  apply bind_inv in H; destruct H as [temp0 [_ H]].
  apply bind_inv in H; destruct H as [[[[[W' X'] A'] temp] mh] [Hrun H]].
  apply bind_inv in H; destruct H as [mh' [Hmh H]].
  apply read_local_inv in Hmh; subst mh.
  injection H as -> -> -> ->.
  exists ind, pos_test, sparse', Psi, (scale hundredth G1), (scale hundredth G2),
    (scale hundredth G3), temp0, temp.
  split; [exact Hobs|]; split; [exact HPsi|].
  assert (Hm : (1 <= maxiter)%Z).
  { destruct (Z.le_gt_cases maxiter 0) as [Hle|Hgt]; [|lia].
    rewrite py_range_nil in Hrun by lia; discriminate Hrun. }
  split; [exact Hm|].
  split; [rewrite py_range_length; f_equal; lia | exact Hrun].
Qed.

(** ** The instance of IEEE binary64 *)

Lemma float_sign_laws : sign_laws (SF := Float64.float_scalar).
Proof.
  split; try reflexivity.
  - intro H; apply (f_equal (fun x => PrimFloat.eqb x 1%float)) in H.
    vm_compute in H; discriminate H.
  - intro H; apply (f_equal (fun x => PrimFloat.eqb x 0%float)) in H.
    vm_compute in H; discriminate H.
  - intro H; apply (f_equal (fun x => PrimFloat.eqb x 1%float)) in H.
    vm_compute in H; discriminate H.
Qed.

Import Float64.

(** C1.  No call of [tmf] returns the state after [maxiter] passes: the
    solver of its section raises in the first pass (the unbound [var] of
    [update_cg]), and with [maxiter <= 0] the [return] finds [mat_hat]
    unbound.  On the two series of [Y], with rank 1, order 1 and one pass,
    the exception is the unbound-variable error. *)
Theorem tmf_never_returns :
  (forall (F : Type) (SF : Scalar F) (LA : LinAlg F) (draws : nat -> F)
          (sparse_mat : ndarray F) (rank d : Z) (lambda0 rho : F) (maxiter : Z),
      exists e, TMF.tmf draws sparse_mat rank d lambda0 rho maxiter = Raise e) /\
  (forall (F : Type) (SF : Scalar F) (LA : LinAlg F) (draws : nat -> F)
          (sparse_mat : ndarray F) (rank d : Z) (lambda0 rho : F) (maxiter : Z),
      (0 <= rank)%Z -> (0 <= d <= Z.of_nat (ncols sparse_mat))%Z -> (1 <= maxiter)%Z ->
      TMF.tmf draws sparse_mat rank d lambda0 rho maxiter
      = Raise (UnboundLocalError "var")) /\
  TMF.tmf Float64.draws Float64.Y 1 1 1%float 5%float 1 = Raise (UnboundLocalError "var") /\
  TMF.tmf Float64.draws Float64.Y 1 1 1%float 5%float 0
  = Raise (UnboundLocalError "mat_hat").
Proof.
  split; [intros; apply tmf_raises|].
  split; [intros; apply tmf_unbound_var; assumption|].
  split; vm_compute; reflexivity.
Qed.

(** ** Runs on binary64 *)

Lemma tmf_never_returns_witness :
  TMF.tmf draws Y 1 1 1%float 5%float 1 = Raise (UnboundLocalError "var").
Proof.
  destruct tmf_never_returns as [_ [H _]].
  apply H; simpl; lia.
Defined.

(** Against C2: with [pred_step = 3] and [delta = 2] the matrix that is
    returned has four columns. *)
Lemma rolling4cast_width_counterexample :
  exists mat_hat W X A,
    NoTMF.rolling4cast draws Y Y 3 2 1 1 1%float 5%float 2 2 = Ok (mat_hat, W, X, A) /\
    ncols mat_hat = 4 /\ Z.of_nat (ncols mat_hat) <> 3%Z.
Proof.
  vm_compute.
  do 4 eexists; split; [reflexivity|].
  split; [reflexivity | discriminate].
Qed.

Lemma rolling4cast_width_witness :
  exists mat_hat W X A,
    NoTMF.rolling4cast draws Y Y 3 2 1 1 1%float 5%float 2 2 = Ok (mat_hat, W, X, A) /\
    Z.of_nat (ncols mat_hat) = (2 * 2)%Z.
Proof.
  assert (E : exists r, NoTMF.rolling4cast draws Y Y 3 2 1 1 1%float 5%float 2 2 = Ok r)
    by (vm_compute; eexists; reflexivity).
  destruct E as [[[[mat_hat W] X] A] E].
  exists mat_hat, W, X, A; split; [exact E|].
  destruct (rolling4cast_width float _ _ draws Y Y 3 2 1 1 1%float 5%float 2 2
              mat_hat W X A ltac:(lia) ltac:(lia) E)
    as (c & zeros & st & Hc & _ & _ & _ & _ & _ & Hcols & _).
  rewrite Hcols; lia.
Defined.

Lemma rolling4cast_keeps_W_witness :
  exists mat_hat W X A mh0 X0 A0,
    NoTMF.rolling4cast draws Y Y 3 2 1 1 1%float 5%float 2 2 = Ok (mat_hat, W, X, A) /\
    NoTMF.notmf draws (slice_cols_to zero Y 5) (slice_cols_to zero Y 5)
      1 1 1%float 5%float 2 2 = Ok (mh0, W, X0, A0).
Proof.
  assert (E : exists r, NoTMF.rolling4cast draws Y Y 3 2 1 1 1%float 5%float 2 2 = Ok r)
    by (vm_compute; eexists; reflexivity).
  destruct E as [[[[mat_hat W] X] A] E].
  destruct (rolling4cast_keeps_W _ _ _ _ _ _ _ _ _ _ _ _ _ _ _ _ _ _ E)
    as [[mh0 [X0 [A0 H0]]] _].
  exists mat_hat, W, X, A, mh0, X0, A0; split; [exact E | exact H0].
Defined.

(** Against C3: the output for [T' = 3] and [delta = 2] has two columns,
    the forecasts, and not five. *)
Lemma var4cast_output_counterexample :
  TMF.var4cast X3 A3 1 2 = Ok (of_rows [[6; 12]]%float) /\
  ncols (of_rows [[6; 12]]%float) <> ncols X3 + 2.
Proof. split; [vm_compute; reflexivity | discriminate]. Qed.

Lemma var4cast_returns_forecasts_witness :
  exists X_hat,
    (forall i j, i < 1 -> j < 3 -> get zero X_hat i j = get zero X3 i j) /\
    TMF.var4cast X3 A3 1 2 = Ok (cols_between zero X_hat 3 5).
Proof.
  destruct (var4cast_returns_forecasts _ _ X3 A3 1 2
              ltac:(simpl; lia) ltac:(lia) eq_refl eq_refl)
    as (X_hat & _ & HX & _ & Hrun & _).
  exists X_hat; split; [exact HX | exact Hrun].
Defined.

Lemma generate_Psi_selects_witness :
  (exists Psi, TMF.generate_Psi (F := float) 4 1 = Ok Psi /\ length Psi = 2) /\
  (exists Psi, NoTMF.generate_Psi (F := float) 5 1 2 = Ok Psi /\ length Psi = 2).
Proof.
  destruct (generate_Psi_selects _ _ float_sign_laws) as [H1 H2]; split.
  - destruct (H1 4%Z 1%Z ltac:(lia) ltac:(lia)) as (Psi & HP & HL & _).
    exists Psi; split; [exact HP | exact HL].
  - destruct (H2 5%Z 1%Z 2%Z ltac:(lia) ltac:(lia) ltac:(lia)) as (Psi & HP & HL & _).
    exists Psi; split; [exact HP | exact HL].
Defined.


(** Against C6: with nothing observed and [rho = 0] the denominator of
    the first step is zero; [update_cg] returns NaN and so does the solver. *)
Lemma conj_grad_nan_counterexample :
  inner (F := float) [0%float] [0%float] = Ok 0%float /\
  (exists var r q rnew,
      NoTMF.update_cg [1%float] [0%float] [0%float] [0%float] 0%float
      = Ok ([var], [r], [q], rnew) /\
      is_nan var = true) /\
  (exists w,
      NoTMF.conj_grad_w Y0 (nonzero Y0) W1 X1 0%float 1 = Ok (of_rows [[w]]) /\
      is_nan w = true).
Proof.
  split; [vm_compute; reflexivity|].
  split; vm_compute.
  - do 4 eexists; split; reflexivity.
  - eexists; split; reflexivity.
Qed.

Lemma update_cg_divides_unchecked_witness :
  (exists st, NoTMF.update_cg [1%float] [0%float] [0%float] [0%float] 0%float = Ok st) /\
  (exists W', NoTMF.conj_grad_w Y0 (nonzero Y0) W1 X1 0%float 1 = Ok W').
Proof.
  destruct (update_cg_divides_unchecked float _) as (H1 & H2 & _); split.
  - destruct (H1 [1%float] [0%float] [0%float] [0%float] 0%float 1
                eq_refl eq_refl eq_refl eq_refl)
      as (x & var' & r' & rnew & q' & _ & _ & _ & _ & _ & H).
    eexists; exact H.
  - destruct (H2 Y0 (nonzero Y0) W1 X1 0%float 1%Z eq_refl eq_refl eq_refl eq_refl eq_refl)
      as (W' & H & _).
    exists W'; exact H.
Defined.

(** Against C7: order 0, rank 0, and a window of exactly [d + m] steps
    are configurations that [notmf] runs its passes on. *)
Lemma notmf_invalid_counterexample :
  (exists r, NoTMF.notmf draws Y Y 1 0 1%float 5%float 2 3 = Ok r) /\
  (exists r, NoTMF.notmf draws Y Y 0 1 1%float 5%float 2 3 = Ok r) /\
  (exists r, NoTMF.notmf draws Y Y 1 1 1%float 5%float 7 3 = Ok r).
Proof.
  repeat split; vm_compute; eexists; reflexivity.
Qed.

Lemma fit_refuses_negative_dimensions_witness :
  NoTMF.notmf draws Y Y 1 1 1%float 5%float (-1) 3 = Raise ValueError /\
  NoTMF.notmf draws Y Y 1 1 1%float 5%float 8 3 = Raise ValueError.
Proof.
  destruct (fit_refuses_negative_dimensions float _ _) as (_ & H & _).
  split; apply H; simpl; lia.
Defined.

Lemma var4cast_zero_horizon_witness :
  TMF.var4cast X3 A3 1 0 = Ok X3 /\ NoTMF.var4cast X3 A3 1 0 1 = Ok X3.
Proof.
  destruct (var4cast_zero_horizon _ _ X3 A3 1 (wfb_wf X3 eq_refl)) as [H1 H2].
  split; [exact H1 | apply H2; lia].
Defined.

(** Against C10: a call on a [q] of two entries and an [Aq] of one fails
    in [np.inner], with [ValueError] and not the unbound-variable error. *)
Lemma update_cg_ver_counterexample :
  TMF.update_cg [1%float] [0%float] [1%float; 2%float] [1%float] 0%float
    = Raise ValueError /\
  Raise (A := cg_state (F := float)) ValueError <> Raise (UnboundLocalError "var").
Proof. split; [vm_compute; reflexivity | discriminate]. Qed.

Lemma update_cg_ver_unbound_witness :
  TMF.update_cg [1%float] [0%float] [0%float] [0%float] 0%float
    = Raise (UnboundLocalError "var") /\
  TMF.update_cg [1%float] [0%float] [0%float] [0%float; 0%float; 0%float] 0%float
    = Raise ValueError /\
  TMF.conj_grad_w Y0 (nonzero Y0) W1 X1 0%float 1 = Raise (UnboundLocalError "var") /\
  TMF.conj_grad_w Y0 (nonzero Y0) W1 X1 0%float 0 = Ok W1.
Proof.
  destruct (update_cg_ver_unbound float _) as (H1 & Hv & _ & _ & _ & H5 & H6 & _).
  split; [apply H1; reflexivity|].
  split; [apply Hv; discriminate|].
  split; [apply H5; solve [reflexivity | lia]|].
  apply H6; solve [reflexivity | exact (wfb_wf W1 eq_refl)].
Defined.

(** With [season = 0] the seasonal [generate_Psi] adds [-I] and [I] on
    one diagonal: the operators it returns are zero. *)
Lemma generate_Psi_no_season_cancels :
  NoTMF.generate_Psi (F := float) 4 1 0
  = Ok [tab 3 4 (fun _ _ => 0%float); tab 3 4 (fun _ _ => 0%float)].
Proof. vm_compute; reflexivity. Qed.

(** * Further properties *)

(** ** Lists, loops and indices *)

Lemma flat_map_nil {A B : Type} (f : A -> list B) (l : list A) :
  (forall x, In x l -> f x = []) -> flat_map f l = [].
Proof.
  induction l as [|a l IH]; intro H; simpl; [reflexivity|].
  rewrite (H a) by (left; reflexivity); apply IH.
  intros x Hx; apply H; right; exact Hx.
Qed.

Lemma for_each_ext {I St : Type} (l : list I) (f g : I -> St -> result St) (s : St) :
  (forall i s, In i l -> f i s = g i s) -> for_each l f s = for_each l g s.
Proof.
  revert s; induction l as [|i l IH]; intros s H; simpl; [reflexivity|].
  rewrite (H i s) by (left; reflexivity).
  destruct (g i s); [|reflexivity].
  apply IH; intros j s' Hj; apply H; right; exact Hj.
Qed.

Lemma for_each_range_inv {St : Type} (Inv : nat -> St -> Prop)
  (body : Z -> St -> result St) (s0 : St) (n : nat) :
  Inv 0 s0 ->
  (forall t s s1, t < n -> Inv t s -> body (Z.of_nat t) s = Ok s1 -> Inv (S t) s1) ->
  forall s', for_each (py_range 0 (Z.of_nat n)) body s0 = Ok s' -> Inv n s'.
Proof.
  intros H0 Hstep; induction n as [|n IH]; intros s' H.
  - simpl in H; injection H as <-; exact H0.
  - rewrite Nat2Z.inj_succ, <- Z.add_1_r, py_range_snoc, for_each_app in H by lia.
    apply bind_inv in H; destruct H as [s [Hs H]].
    simpl in H; destruct (body (Z.of_nat n) s) as [s1|e] eqn:E; [|discriminate H].
    injection H as <-.
    apply (Hstep n s); [lia | | exact E].
    apply IH; [|exact Hs].
    intros t s2 s3 Ht; apply Hstep; lia.
Qed.

Lemma for_each_range_last {St : Type} (body : Z -> St -> result St) (s0 s' : St) (n : nat) :
  for_each (py_range 0 (Z.of_nat (S n))) body s0 = Ok s' ->
  exists s, for_each (py_range 0 (Z.of_nat n)) body s0 = Ok s /\
            body (Z.of_nat n) s = Ok s'.
Proof.
  intro H.
  rewrite Nat2Z.inj_succ, <- Z.add_1_r, py_range_snoc, for_each_app in H by lia.
  apply bind_inv in H; destruct H as [s [Hs H]].
  exists s; split; [exact Hs|].
  simpl in H; destruct (body (Z.of_nat n) s); [exact H | discriminate H].
Qed.

Lemma mapM_inv {A B : Type} (f : A -> result B) (l : list A) (v : list B) :
  mapM f l = Ok v ->
  length v = length l /\ forall y, In y v -> exists x, In x l /\ f x = Ok y.
Proof.
  revert v; induction l as [|a l IH]; intros v H; simpl in H.
  - injection H as <-; split; [reflexivity | intros y []].
  - apply bind_inv in H; destruct H as [b [Hb H]].
    apply bind_inv in H; destruct H as [bs [Hbs H]].
    injection H as <-.
    destruct (IH bs Hbs) as [Hlen Hin].
    split; [simpl; congruence|].
    intros y [<-|Hy].
    + exists a; split; [left; reflexivity | exact Hb].
    + destruct (Hin y Hy) as [x [Hx Hfx]]; exists x; split; [right; exact Hx | exact Hfx].
Qed.

Lemma mapM_raises {A B : Type} (f : A -> result B) (l : list A) (e : exn) :
  (forall y, In y l -> f y = Raise e \/ exists b, f y = Ok b) ->
  (exists x, In x l /\ f x = Raise e) ->
  mapM f l = Raise e.
Proof.
  induction l as [|a l IH]; intros Hall [x [Hx Hfx]]; [destruct Hx|].
  simpl; destruct (Hall a (or_introl eq_refl)) as [Ha|[b Ha]]; rewrite Ha; [reflexivity|].
  rewrite bind_ok, IH; [reflexivity | |].
  - intros y Hy; apply Hall; right; exact Hy.
  - destruct Hx as [<-|Hx]; [rewrite Ha in Hfx; discriminate Hfx|].
    exists x; split; assumption.
Qed.

Lemma mapM_total {A B : Type} (f : A -> result B) (l : list A) :
  (forall x, In x l -> exists b, f x = Ok b) ->
  exists v, mapM f l = Ok v /\ length v = length l.
Proof.
  induction l as [|a l IH]; intro H; [exists []; split; reflexivity|].
  destruct (H a (or_introl eq_refl)) as [b Hb].
  destruct IH as [v [Hv Hl]]; [intros x Hx; apply H; right; exact Hx|].
  exists (b :: v); simpl; rewrite Hb, bind_ok, Hv, bind_ok.
  split; [reflexivity | simpl; congruence].
Qed.

Lemma nth_map_seq {B : Type} (f : nat -> B) (n k : nat) (dflt : B) :
  k < n -> nth k (map f (seq 0 n)) dflt = f k.
Proof.
  intro H; apply nth_error_nth; apply (nth_error_map_seq f); exact H.
Qed.

Lemma norm_index_cases (n : nat) (k : Z) :
  norm_index n k = Raise IndexError \/ exists i, norm_index n k = Ok i.
Proof.
  unfold norm_index.
  destruct ((0 <=? k) && (k <? Z.of_nat n))%Z; [right; eexists; reflexivity|].
  destruct ((- Z.of_nat n <=? k) && (k <? 0))%Z; [right; eexists; reflexivity|].
  left; reflexivity.
Qed.

Lemma norm_index_out (n : nat) (k : Z) :
  (k < - Z.of_nat n)%Z -> norm_index n k = Raise IndexError.
Proof.
  intro H; unfold norm_index.
  destruct (Z.leb_spec 0 k); [lia|]; cbn [andb].
  destruct (Z.leb_spec (- Z.of_nat n) k); [lia|]; reflexivity.
Qed.

Lemma norm_index_in (n : nat) (k : Z) :
  (- Z.of_nat n <= k < Z.of_nat n)%Z -> exists i, norm_index n k = Ok i.
Proof.
  intro H; unfold norm_index.
  destruct (Z.leb_spec 0 k); cbn [andb].
  - destruct (Z.ltb_spec k (Z.of_nat n)); [eexists; reflexivity | lia].
  - destruct (Z.leb_spec (- Z.of_nat n) k); [|lia].
    destruct (Z.ltb_spec k 0); [eexists; reflexivity | lia].
Qed.

Lemma bdim_raises (a b : nat) :
  bdim a b = Raise ValueError <-> a <> b /\ a <> 1 /\ b <> 1.
Proof.
  unfold bdim.
  destruct (Nat.eqb_spec a b); [split; [discriminate | lia]|].
  destruct (Nat.eqb_spec a 1); [split; [discriminate | lia]|].
  destruct (Nat.eqb_spec b 1); [split; [discriminate | lia]|].
  split; [intros _; lia | reflexivity].
Qed.

Lemma bdim_back (a b n : nat) : bdim a b = Ok n -> bdim n a = Ok n.
Proof.
  unfold bdim.
  destruct (Nat.eqb_spec a b) as [E|E]; [intro H; injection H as <-; rewrite Nat.eqb_refl; reflexivity|].
  destruct (Nat.eqb_spec a 1) as [E1|E1].
  - intro H; injection H as <-.
    destruct (Nat.eqb_spec b a); [reflexivity|].
    destruct (Nat.eqb_spec b 1); [lia|].
    destruct (Nat.eqb_spec a 1); [reflexivity | lia].
  - destruct (Nat.eqb_spec b 1); [|discriminate].
    intro H; injection H as <-; rewrite Nat.eqb_refl; reflexivity.
Qed.

(** ** Inversions and shapes of the array operations *)

(** *** Shapes along the rolling forecast *)

Lemma np_zeros_inv {F : Type} {SF : Scalar F} (r c : Z) (Z0 : ndarray F) :
  np_zeros r c = Ok Z0 ->
  (0 <= r)%Z /\ (0 <= c)%Z /\ Z0 = tab (Z.to_nat r) (Z.to_nat c) (fun _ _ => zero).
Proof.
  unfold np_zeros.
  destruct (Z.ltb_spec r 0) as [_|Hr]; [discriminate|].
  destruct (Z.ltb_spec c 0) as [_|Hc]; [discriminate|].
  intro E; injection E as <-; repeat split; assumption.
Qed.

Lemma randn_inv {F : Type} {SF : Scalar F} (draws : nat -> F) (pos : nat) (r c : Z)
  (G : ndarray F) :
  randn draws pos r c = Ok G ->
  (0 <= r)%Z /\ (0 <= c)%Z /\ nrows G = Z.to_nat r /\ ncols G = Z.to_nat c.
Proof.
  unfold randn.
  destruct (Z.ltb_spec r 0) as [_|Hr]; [discriminate|].
  destruct (Z.ltb_spec c 0) as [_|Hc]; [discriminate|].
  intro E; injection E as <-; repeat split; assumption.
Qed.

Lemma append_cols_inv {A : Type} (da : A) (M N P : ndarray A) :
  append_cols da M N = Ok P ->
  has_shape P (nrows M) (ncols M + ncols N).
Proof.
  unfold append_cols; destruct (nrows M =? nrows N); intro H;
    [injection H as <-; apply tab_shape | discriminate H].
Qed.

Lemma matmul_inv {F : Type} {SF : Scalar F} (M N P : ndarray F) :
  matmul M N = Ok P -> ncols M = nrows N /\ P = mat_product M N.
Proof.
  unfold matmul; destruct (Nat.eqb_spec (ncols M) (nrows N)) as [E|E]; intro H;
    [injection H as <-; split; [exact E | reflexivity] | discriminate H].
Qed.

Lemma matmul_product {F : Type} {SF : Scalar F} (M N P : ndarray F) :
  matmul M N = Ok P -> mat_product M N = P.
Proof.
  unfold matmul; destruct (ncols M =? nrows N); intro H;
    [injection H as <-; reflexivity | discriminate H].
Qed.

Lemma set_col_shape {A : Type} (da : A) (M M' : ndarray A) (k : Z) (v : list A) :
  set_col da M k v = Ok M' -> has_shape M' (nrows M) (ncols M).
Proof.
  unfold set_col; intro H.
  apply bind_inv in H; destruct H as [jj [_ H]].
  destruct ((length v =? nrows M) || (length v =? 1));
    [injection H as <-; apply tab_shape | discriminate H].
Qed.

Lemma get_col_ok {A : Type} (da : A) (M : ndarray A) (j : nat) :
  j < ncols M ->
  get_col da M (Z.of_nat j) = Ok (map (fun i => get da M i j) (seq 0 (nrows M))).
Proof.
  intro H; unfold get_col; rewrite norm_index_ok by lia.
  rewrite bind_ok, Nat2Z.id; reflexivity.
Qed.

Lemma set_col_ok {A : Type} (da : A) (M : ndarray A) (j : nat) (f : nat -> A) :
  j < ncols M ->
  set_col da M (Z.of_nat j) (map f (seq 0 (nrows M)))
  = Ok (tab (nrows M) (ncols M) (fun i j' => if j' =? j then f i else get da M i j')).
Proof.
  intro H; unfold set_col; rewrite norm_index_ok by lia.
  rewrite bind_ok, Nat2Z.id, length_map, length_seq, Nat.eqb_refl; cbn [orb].
  f_equal; apply tab_ext; intros i j' Hi Hj'.
  destruct (j' =? j); [|reflexivity].
  rewrite bidx_lt by assumption.
  rewrite (nth_indep _ da (f 0)) by (rewrite length_map, length_seq; lia).
  rewrite (map_nth f (seq 0 (nrows M)) 0 i), seq_nth by lia; reflexivity.
Qed.

Lemma set_col_slice_wf {A : Type} (da : A) (M V M' : ndarray A) (lo hi : Z) :
  set_col_slice da M lo hi V = Ok M' -> has_shape M' (nrows M) (ncols M).
Proof.
  unfold set_col_slice; intro H.
  apply bind_inv in H; destruct H as [V' [_ H]].
  injection H as <-; apply tab_shape.
Qed.

Lemma set_col_slice_get {A : Type} (da : A) (M V M' : ndarray A) (lo hi : nat) :
  lo <= hi -> hi <= ncols M -> nrows V = nrows M -> ncols V = hi - lo ->
  set_col_slice da M (Z.of_nat lo) (Z.of_nat hi) V = Ok M' ->
  forall i j, i < nrows M -> j < hi - lo -> get da M' i (lo + j) = get da V i j.
Proof.
  intros Hlo Hhi Hr Hc H i j Hi Hj.
  unfold set_col_slice in H.
  rewrite !slice_bound_within in H by lia.
  unfold broadcast_to in H.
  rewrite Hr, Hc, !Nat.eqb_refl in H; cbn [orb andb bind] in H.
  injection H as <-.
  rewrite get_tab by lia.
  destruct (Nat.leb_spec lo (lo + j)) as [_|E]; [|lia].
  destruct (Nat.ltb_spec (lo + j) hi) as [_|E]; [|lia].
  cbn [andb]; rewrite get_tab by lia.
  rewrite !bidx_lt by lia.
  f_equal; lia.
Qed.

Lemma ravel_C_length {A : Type} (da : A) (M : ndarray A) :
  length (ravel_C da M) = nrows M * ncols M.
Proof.
  unfold ravel_C.
  rewrite (length_flat_map_const _ (ncols M)), length_seq; [reflexivity|].
  intros x _; rewrite length_map, length_seq; reflexivity.
Qed.

Lemma vbroadcast2_equal {F : Type} {SF : Scalar F} (f : F -> F -> F) (u v : list F) :
  length u = length v ->
  vbroadcast2 f u v
  = Ok (map (fun i => f (nth i u zero) (nth i v zero)) (seq 0 (length u))).
Proof.
  intro H; unfold vbroadcast2; rewrite <- H, bdim_same, bind_ok.
  f_equal; apply map_ext_in; intros i Hi; apply in_seq in Hi.
  rewrite !bidx_lt by lia; reflexivity.
Qed.

Lemma vbroadcast2_length {F : Type} {SF : Scalar F} (f : F -> F -> F) (u v w : list F) :
  vbroadcast2 f u v = Ok w -> bdim (length u) (length v) = Ok (length w).
Proof.
  unfold vbroadcast2; destruct (bdim (length u) (length v)) as [n|e]; [|discriminate].
  intro H; injection H as <-; rewrite length_map, length_seq; reflexivity.
Qed.

Lemma vbroadcast2_raises {F : Type} {SF : Scalar F} (f : F -> F -> F) (u v : list F) :
  (exists w, vbroadcast2 f u v = Ok w) \/
  (vbroadcast2 f u v = Raise ValueError /\
   length u <> length v /\ length u <> 1 /\ length v <> 1).
Proof.
  unfold vbroadcast2.
  destruct (bdim (length u) (length v)) as [n|e] eqn:E.
  - left; eexists; reflexivity.
  - right; unfold bdim in E.
    destruct (Nat.eqb_spec (length u) (length v)); [discriminate|].
    destruct (Nat.eqb_spec (length u) 1); [discriminate|].
    destruct (Nat.eqb_spec (length v) 1); [discriminate|].
    injection E as <-; repeat split; assumption.
Qed.

Lemma vadd_same {F : Type} {SF : Scalar F} (n : nat) (f g : nat -> F) :
  vadd (map f (seq 0 n)) (map g (seq 0 n))
  = Ok (map (fun i => add (f i) (g i)) (seq 0 n)).
Proof.
  unfold vadd, vbroadcast2; rewrite !length_map, !length_seq, bdim_same, bind_ok.
  f_equal; apply map_ext_in; intros i Hi; apply in_seq in Hi.
  rewrite bidx_lt by lia.
  rewrite (nth_indep _ zero (f 0)) by (rewrite length_map, length_seq; lia).
  rewrite (nth_indep (map g _) zero (g 0)) by (rewrite length_map, length_seq; lia).
  rewrite (map_nth f (seq 0 n) 0 i), (map_nth g (seq 0 n) 0 i).
  rewrite seq_nth by lia; reflexivity.
Qed.

Lemma any_tab_false (r c : nat) (f : nat -> nat -> bool) :
  any (tab r c f) = false -> forall i j, i < r -> j < c -> f i j = false.
Proof.
  unfold any; cbn [rows tab]; intros H i j Hi Hj.
  destruct (f i j) eqn:E; [|reflexivity].
  rewrite <- H; symmetry.
  apply existsb_exists; exists (map (f i) (seq 0 c)); split.
  - apply in_map_iff; exists i; split; [reflexivity | apply in_seq; lia].
  - apply existsb_exists; exists true; split; [|reflexivity].
    apply in_map_iff; exists j; split; [exact E | apply in_seq; lia].
Qed.

Lemma np_where_In (B : ndarray bool) (i j : nat) :
  In (i, j) (np_where B) <-> i < nrows B /\ j < ncols B /\ get false B i j = true.
Proof.
  unfold np_where; rewrite in_flat_map; split.
  - intros [i' [Hi' H]]; apply in_flat_map in H; destruct H as [j' [Hj' H]].
    apply in_seq in Hi', Hj'.
    destruct (get false B i' j') eqn:E; [|destruct H].
    destruct H as [H|[]]; injection H as <- <-.
    repeat split; [lia | lia | exact E].
  - intros (Hi & Hj & E); exists i; split; [apply in_seq; lia|].
    apply in_flat_map; exists j; split; [apply in_seq; lia|].
    rewrite E; left; reflexivity.
Qed.

Lemma np_where_none (B : ndarray bool) :
  (forall i j, i < nrows B -> j < ncols B -> get false B i j = false) -> np_where B = [].
Proof.
  intro H; unfold np_where.
  apply flat_map_nil; intros i Hi; apply in_seq in Hi.
  apply flat_map_nil; intros j Hj; apply in_seq in Hj.
  rewrite H by lia; reflexivity.
Qed.


Lemma logical_and_same (B C : ndarray bool) :
  nrows B = nrows C -> ncols B = ncols C ->
  logical_and B C
  = Ok (tab (nrows B) (ncols B) (fun i j => get false B i j && get false C i j)).
Proof.
  intros Hr Hc; unfold logical_and, broadcast2.
  rewrite <- Hr, <- Hc, !bdim_same, !bind_ok.
  f_equal; apply tab_ext; intros i j Hi Hj.
  rewrite !bidx_lt by assumption; reflexivity.
Qed.

(** ** The fits of the second part *)

Section AnySolver.
Context {F : Type} {SF : Scalar F}.
Variable update_cg : list F -> list F -> list F -> list F -> F -> result (cg_state (F := F)).

(** Whatever a solver returns has the shape of the factor it started from. *)
Lemma conj_grad_w_shape (sparse_mat : ndarray F) (ind : ndarray bool) (W X W' : ndarray F)
  (rho : F) (maxiter : Z) :
  conj_grad_w update_cg sparse_mat ind W X rho maxiter = Ok W' ->
  has_shape W' (nrows W) (ncols W).
Proof.
  unfold conj_grad_w; intro H.
  apply bind_inv in H; destruct H as [B [_ H]].
  apply bind_inv in H; destruct H as [L [_ H]].
  apply bind_inv in H; destruct H as [R [_ H]].
  apply bind_inv in H; destruct H as [rold [_ H]].
  apply bind_inv in H; destruct H as [[[[w r] q] rold'] [_ H]].
  apply reshape_F_shape in H; exact H.
Qed.

Lemma conj_grad_x_shape (sparse_mat : ndarray F) (ind : ndarray bool)
  (W X A X' : ndarray F) (Psi : list (ndarray F)) (d : Z) (lambda0 rho : F) (maxiter : Z) :
  conj_grad_x update_cg sparse_mat ind W X A Psi d lambda0 rho maxiter = Ok X' ->
  has_shape X' (nrows X) (ncols X).
Proof.
  unfold conj_grad_x; intro H.
  apply bind_inv in H; destruct H as [B [_ H]].
  apply bind_inv in H; destruct H as [L [_ H]].
  apply bind_inv in H; destruct H as [R [_ H]].
  apply bind_inv in H; destruct H as [rold [_ H]].
  apply bind_inv in H; destruct H as [[[[w r] q] rold'] [_ H]].
  apply reshape_F_shape in H; exact H.
Qed.

End AnySolver.

Lemma notmf_body_fitted {F : Type} {SF : Scalar F} {LA : LinAlg F}
  (sparse_mat : ndarray F) (ind : ndarray bool) (pos_test : list (nat * nat))
  (Psi : list (ndarray F)) (rank d : Z) (lambda0 rho : F) (it : Z)
  (r dim1 dim2 : nat) (st st' : fit_state F) :
  fitted r dim1 dim2 st ->
  NoTMF.notmf_body sparse_mat ind pos_test Psi rank d lambda0 rho it st = Ok st' ->
  fitted r dim1 dim2 st' /\ exists M, snd st' = Some M.
Proof.
  destruct st as [[[[W X] A] temp] mh]; intros (HWr & HWc & HXr & HXc & _) H.
  unfold NoTMF.notmf_body in H.
  apply bind_inv in H; destruct H as [W' [HW H]].
  apply bind_inv in H; destruct H as [X' [HX H]].
  apply bind_inv in H; destruct H as [temp' [_ H]].
  apply bind_inv in H; destruct H as [Psi0 [_ H]].
  apply bind_inv in H; destruct H as [XP [HXP H]].
  apply bind_inv in H; destruct H as [P [_ H]].
  apply bind_inv in H; destruct H as [A' [HA H]].
  apply bind_inv in H; destruct H as [M [HM H]].
  apply bind_inv in H; destruct H as [v [_ H]].
  injection H as <-.
  apply conj_grad_w_shape in HW; destruct HW as (HWwf & HWr' & HWc').
  apply conj_grad_x_shape in HX; destruct HX as (HXwf & HXr' & HXc').
  apply matmul_inv in HXP; destruct HXP as [_ ->].
  apply matmul_inv in HA; destruct HA as [_ ->].
  split; [|exists M; reflexivity].
  unfold fitted.
  split; [congruence|]; split; [congruence|]; split; [congruence|]; split; [congruence|].
  intros M' HM'; injection HM' as <-.
  split; [exact HWwf|]; split; [exact HXwf|]; split; [|exact HM].
  cbn [nrows mat_product tab]; congruence.
Qed.

Lemma notmf_fitted {F : Type} {SF : Scalar F} {LA : LinAlg F} (draws : nat -> F)
  (dense_mat sparse_mat : ndarray F) (rank d : Z) (lambda0 rho : F)
  (season maxiter : Z) (mat_hat W X A : ndarray F) :
  NoTMF.notmf draws dense_mat sparse_mat rank d lambda0 rho season maxiter
    = Ok (mat_hat, W, X, A) ->
  (1 <= maxiter)%Z /\ (0 <= rank)%Z /\
  has_shape W (Z.to_nat rank) (nrows sparse_mat) /\
  has_shape X (Z.to_nat rank) (ncols sparse_mat) /\
  nrows A = Z.to_nat rank /\
  matmul (transpose zero W) X = Ok mat_hat /\
  has_shape mat_hat (nrows sparse_mat) (ncols sparse_mat).
Proof.
  intro H; unfold NoTMF.notmf in H.
  apply bind_inv in H; destruct H as [G1 [HG1 H]].
  apply bind_inv in H; destruct H as [G2 [HG2 H]].
  apply bind_inv in H; destruct H as [G3 [_ H]].
  apply bind_inv in H; destruct H as [[[ind pos_test] sparse'] [_ H]].
  apply bind_inv in H; destruct H as [dense_test [_ H]].
  apply bind_inv in H; destruct H as [Psi [_ H]].
  apply bind_inv in H; destruct H as [temp0 [_ H]].
  apply bind_inv in H; destruct H as [[[[[W' X'] A'] temp] mh] [Hrun H]].
  apply bind_inv in H; destruct H as [mh' [Hmh H]].
  apply read_local_inv in Hmh; subst mh.
  injection H as -> -> -> ->.
  apply randn_inv in HG1; destruct HG1 as (Hrank & _ & HG1r & HG1c).
  apply randn_inv in HG2; destruct HG2 as (_ & _ & HG2r & HG2c).
  rewrite Nat2Z.id in HG1c, HG2c.
  assert (Hm : (1 <= maxiter)%Z).
  { destruct (Z.le_gt_cases maxiter 0) as [Hle|Hgt]; [|lia].
    rewrite py_range_nil in Hrun by lia; discriminate Hrun. }
  assert (Hfit : fitted (Z.to_nat rank) (nrows sparse_mat) (ncols sparse_mat)
                   (W, X, A, temp, Some mat_hat)).
  { refine (for_each_invariant
              (fitted (Z.to_nat rank) (nrows sparse_mat) (ncols sparse_mat))
              _ _ _ _ _ _ Hrun).
    - intros i s s' _ Hs Hbody.
      exact (proj1 (notmf_body_fitted _ _ _ _ _ _ _ _ _ _ _ _ _ _ Hs Hbody)).
    - unfold fitted; cbn [nrows ncols scale map_array tab].
      repeat split; try assumption; discriminate. }
  destruct Hfit as (HWr & HWc & HXr & HXc & Hrec).
  destruct (Hrec mat_hat eq_refl) as (HWwf & HXwf & HAr & HM).
  split; [exact Hm|]; split; [exact Hrank|].
  split; [split; [exact HWwf | split; assumption]|].
  split; [split; [exact HXwf | split; assumption]|].
  split; [exact HAr|]; split; [exact HM|].
  apply matmul_inv in HM; destruct HM as [_ ->].
  unfold mat_product; cbn [nrows ncols transpose tab].
  rewrite <- HWc, <- HXc; apply tab_shape.
Qed.

(** X1.  A call of [notmf] that returns has made at least one pass, and
    what it returns fits together: [W] is [(rank, dim1)], [X] is
    [(rank, dim2)], [A] has [rank] rows, and [mat_hat] is [W.T @ X] for the
    [W] and the [X] returned, of the shape of the data. *)
Theorem notmf_returns_reconstruction :
  forall (F : Type) (SF : Scalar F) (LA : LinAlg F) (draws : nat -> F)
         (dense_mat sparse_mat : ndarray F) (rank d : Z) (lambda0 rho : F)
         (season maxiter : Z) (mat_hat W X A : ndarray F),
    NoTMF.notmf draws dense_mat sparse_mat rank d lambda0 rho season maxiter
      = Ok (mat_hat, W, X, A) ->
    (1 <= maxiter)%Z /\ (0 <= rank)%Z /\
    has_shape W (Z.to_nat rank) (nrows sparse_mat) /\
    has_shape X (Z.to_nat rank) (ncols sparse_mat) /\
    nrows A = Z.to_nat rank /\
    matmul (transpose zero W) X = Ok mat_hat /\
    has_shape mat_hat (nrows sparse_mat) (ncols sparse_mat).
Proof. intros; eapply notmf_fitted; eassumption. Qed.

(** X2.  A fit asked for no pass ([maxiter <= 0]) does all the set-up,
    skips the loop and fails at its [return], where [mat_hat] was never
    assigned. *)
Theorem fit_without_pass :
  forall (F : Type) (SF : Scalar F) (LA : LinAlg F),
    (forall (draws : nat -> F) (dense_mat sparse_mat : ndarray F) (rank d : Z)
            (lambda0 rho : F) (season maxiter : Z),
        nrows dense_mat = nrows sparse_mat -> ncols dense_mat = ncols sparse_mat ->
        (0 <= rank)%Z -> (0 <= d)%Z -> (0 <= season)%Z ->
        (d + season <= Z.of_nat (ncols sparse_mat))%Z -> (maxiter <= 0)%Z ->
        NoTMF.notmf draws dense_mat sparse_mat rank d lambda0 rho season maxiter
        = Raise (UnboundLocalError "mat_hat")) /\
    (forall (draws : nat -> F) (sparse_mat : ndarray F) (rank d : Z)
            (lambda0 rho : F) (maxiter : Z),
        (0 <= rank)%Z -> (0 <= d <= Z.of_nat (ncols sparse_mat))%Z -> (maxiter <= 0)%Z ->
        TMF.tmf draws sparse_mat rank d lambda0 rho maxiter
        = Raise (UnboundLocalError "mat_hat")).
Proof.
  intros F SF LA; split.
  - intros draws dense_mat sparse_mat rank d lambda0 rho season maxiter
      Hr Hc Hrank Hd Hs HT Hm.
    unfold NoTMF.notmf.
    rewrite !randn_ok by nia; rewrite !bind_ok.
    destruct (observed_ok dense_mat sparse_mat Hr Hc)
      as (ind & pos_test & sparse' & dense_test & Hobs & Htest).
    rewrite Hobs, bind_ok, Htest, bind_ok.
    rewrite generate_Psi_computed by lia; rewrite bind_ok.
    rewrite np_zeros_ok by nia; rewrite bind_ok.
    rewrite py_range_nil by lia; reflexivity.
  - intros draws sparse_mat rank d lambda0 rho maxiter Hrank Hd Hm.
    unfold TMF.tmf.
    rewrite !randn_ok by nia; rewrite !bind_ok.
    rewrite generate_Psi_plain by lia; rewrite bind_ok.
    rewrite np_zeros_ok by nia; rewrite bind_ok.
    rewrite py_range_nil by lia; reflexivity.
Qed.

Section Masks.
Context {F : Type} {SF : Scalar F}.
Hypothesis zero_not_nan : is_nan zero = false.
Hypothesis zero_is_zero : is_zero zero = true.

Lemma masked_plain (obs : ndarray F) :
  any (isnan obs) = false -> masked obs (nonzero obs) obs.
Proof.
  intro Hnan; unfold masked; cbn [nrows ncols nonzero map_array tab].
  repeat split; try reflexivity.
  - apply (any_tab_false _ _ _ Hnan); assumption.
  - unfold nonzero, map_array; rewrite get_tab by assumption.
    intro E; apply negb_false_iff in E; exact E.
Qed.

Lemma masked_nan (obs : ndarray F) :
  masked obs (invert (isnan obs)) (nan_to_zero obs).
Proof.
  unfold masked; cbn [nrows ncols invert isnan nan_to_zero map_array tab].
  repeat split; try reflexivity.
  - unfold nan_to_zero, map_array; rewrite get_tab by assumption.
    destruct (is_nan (get zero obs i j)) eqn:E; [exact zero_not_nan | exact E].
  - unfold invert, isnan, nan_to_zero, map_array; rewrite !get_tab by assumption.
    intro E; apply negb_false_iff in E; rewrite E; exact zero_is_zero.
  - unfold invert, isnan, nan_to_zero, map_array; rewrite !get_tab by assumption.
    intro E; apply negb_true_iff in E; rewrite E; reflexivity.
  - unfold nan_to_zero, map_array; rewrite get_tab by assumption.
    intros ->; reflexivity.
Qed.

End Masks.

(** X3.  The masks of the fits.  Whatever the data, the array that goes
    to the solver holds no NaN, agrees with the data wherever the mask is
    set, and is zero wherever it is not; a position held out for the report
    is never one that the mask marks as observed.  A fit that is given one
    array as both [dense_mat] and [sparse_mat], without NaN, holds nothing
    out. *)
Theorem masks_hide_what_is_missing :
  forall (F : Type) (SF : Scalar F),
    is_nan zero = false -> is_zero zero = true ->
    (forall obs : ndarray F,
        masked obs (fst (NoTMF.observed_dic obs)) (snd (NoTMF.observed_dic obs))) /\
    (forall dense_mat sparse_mat : ndarray F,
        nrows dense_mat = nrows sparse_mat -> ncols dense_mat = ncols sparse_mat ->
        exists ind pos_test sparse',
          NoTMF.observed dense_mat sparse_mat = Ok (ind, pos_test, sparse') /\
          masked sparse_mat ind sparse' /\
          forall i j, In (i, j) pos_test ->
            i < nrows sparse_mat /\ j < ncols sparse_mat /\
            get false ind i j = false /\
            is_zero (get zero sparse' i j) = true /\
            is_zero (get zero dense_mat i j) = false) /\
    (forall M : ndarray F,
        any (isnan M) = false -> NoTMF.observed M M = Ok (nonzero M, [], M)).
Proof.
  intros F SF Hnan Hzero; split; [|split].
  - intro obs; unfold NoTMF.observed_dic.
    destruct (any (isnan obs)) eqn:E; cbn [negb fst snd].
    + apply masked_nan; assumption.
    + apply masked_plain; assumption.
  - intros dense_mat sparse_mat Hr Hc; unfold NoTMF.observed.
    destruct (any (isnan sparse_mat)) eqn:E; cbn [negb].
    + rewrite logical_and_same by (simpl; assumption); rewrite bind_ok.
      eexists _, _, _; split; [reflexivity|].
      pose proof (masked_nan Hnan Hzero sparse_mat) as Hm.
      split; [exact Hm|].
      intros i j Hin; apply np_where_In in Hin; cbn [nrows ncols nonzero map_array tab] in Hin.
      destruct Hin as (Hi & Hj & Hv).
      rewrite get_tab in Hv by assumption.
      apply andb_true_iff in Hv; destruct Hv as [Hd Hs].
      unfold nonzero, map_array in Hd; rewrite get_tab in Hd by assumption.
      unfold isnan, map_array in Hs; rewrite get_tab in Hs by lia.
      split; [lia|]; split; [lia|].
      assert (Hind : get false (invert (isnan sparse_mat)) i j = false).
      { unfold invert, isnan, map_array; rewrite !get_tab by (simpl; lia).
        rewrite Hs; reflexivity. }
      split; [exact Hind|]; split.
      * destruct Hm as (_ & _ & _ & _ & Hm).
        apply (Hm i j); [lia | lia | exact Hind].
      * apply negb_true_iff; exact Hd.
    + rewrite logical_and_same by (simpl; assumption); rewrite bind_ok.
      eexists _, _, _; split; [reflexivity|].
      pose proof (masked_plain sparse_mat E) as Hm.
      split; [exact Hm|].
      intros i j Hin; apply np_where_In in Hin; cbn [nrows ncols nonzero map_array tab] in Hin.
      destruct Hin as (Hi & Hj & Hv).
      rewrite get_tab in Hv by assumption.
      apply andb_true_iff in Hv; destruct Hv as [Hd Hs].
      unfold nonzero, map_array in Hd; rewrite get_tab in Hd by assumption.
      unfold iszero, map_array in Hs; rewrite get_tab in Hs by lia.
      split; [lia|]; split; [lia|]; split; [|split].
      * unfold nonzero, map_array; rewrite get_tab by lia.
        rewrite Hs; reflexivity.
      * exact Hs.
      * apply negb_true_iff; exact Hd.
  - intros M E; unfold NoTMF.observed; rewrite E; cbn [negb].
    rewrite logical_and_same by reflexivity; rewrite bind_ok.
    rewrite np_where_none; [reflexivity|].
    cbn [nrows ncols nonzero map_array tab]; intros i j Hi Hj.
    rewrite get_tab by assumption.
    unfold nonzero, iszero, map_array; rewrite !get_tab by assumption.
    apply andb_negb_l.
Qed.

(** ** The seasonal functions without a season *)

(** With no season the two diagonals that [generate_Psi] adds fall on
    each other. *)
Lemma computed_Psi_no_season {F : Type} {SF : Scalar F} (T d k : Z) :
  add (mul (opp one) one) one = zero ->
  add (mul (opp one) zero) zero = zero ->
  (0 <= k <= d)%Z -> (d <= T)%Z ->
  computed_Psi T d 0 k = tab (Z.to_nat (T - d)) (Z.to_nat T) (fun _ _ => zero).
Proof.
  intros H1 H0 Hk HT; unfold computed_Psi.
  replace (T - d - 0)%Z with (T - d)%Z by lia.
  apply tab_ext; intros i j Hi Hj.
  change (Z.to_nat 0) with 0.
  destruct (Nat.leb_spec (Z.to_nat (d - k)) j) as [Hlo|Hlo]; [|reflexivity].
  destruct (Nat.ltb_spec j (Z.to_nat (d - k) + (Z.to_nat (T - d) + 0))) as [Hhi|Hhi];
    [|reflexivity].
  cbn [andb]; unfold seasonal_block_entry.
  destruct (Nat.ltb_spec (j - Z.to_nat (d - k)) (Z.to_nat (T - d))) as [_|Hge]; [|lia].
  change (j - Z.to_nat (d - k) <? 0) with false; cbv iota.
  rewrite Nat.sub_0_r.
  destruct (i =? j - Z.to_nat (d - k)); assumption.
Qed.

(** X4.  Without a season the seasonal functions do not reduce to those
    of the first part: every operator that [generate_Psi] returns is zero
    (the two diagonals fall on each other), and [var4cast] subtracts an
    array with no column from [X], which numpy refuses for an [X] of two
    columns or more. *)
Theorem season_zero_degenerate :
  forall (F : Type) (SF : Scalar F),
    add (mul (opp one) one) one = zero ->
    add (mul (opp one) zero) zero = zero ->
    (forall T d : Z, (0 <= d <= T)%Z ->
       NoTMF.generate_Psi (F := F) T d 0
       = Ok (map (fun _ => tab (Z.to_nat (T - d)) (Z.to_nat T) (fun _ _ => zero))
               (seq 0 (Z.to_nat (d + 1))))) /\
    (forall (X A : ndarray F) (d delta : Z),
       2 <= ncols X -> NoTMF.var4cast X A d delta 0 = Raise ValueError).
Proof.
  intros F SF H1 H0; split.
  - intros T d Hd.
    rewrite generate_Psi_computed by lia.
    f_equal; apply map_ext_in; intros k Hk; apply in_seq in Hk.
    apply computed_Psi_no_season; try assumption; lia.
  - intros X A d delta HX; unfold NoTMF.var4cast, mat_sub, broadcast2.
    unfold slice_cols_from, slice_cols_to, cols_between; cbn [nrows ncols tab].
    rewrite bdim_same, bind_ok.
    change (- 0)%Z with 0%Z.
    rewrite !slice_bound_nonneg by lia.
    replace (Z.to_nat (Z.min 0 (Z.of_nat (ncols X)))) with 0 by lia.
    unfold bdim.
    destruct (Nat.eqb_spec (ncols X - 0) (0 - 0)) as [E|_]; [lia|].
    destruct (Nat.eqb_spec (ncols X - 0) 1) as [E|_]; [lia|].
    reflexivity.
Qed.

(** ** The extrapolations *)

(** The seasonal differences [X[:, season:] - X[:, :-season]]. *)
Lemma seasonal_differences {F : Type} {SF : Scalar F} (X : ndarray F) (season : Z) :
  (1 <= season <= Z.of_nat (ncols X))%Z ->
  mat_sub (slice_cols_from zero X season) (slice_cols_to zero X (- season))
  = Ok (tab (nrows X) (ncols X - Z.to_nat season)
          (fun i j => sub (get zero X i (j + Z.to_nat season)) (get zero X i j))).
Proof.
  intro Hs; unfold mat_sub, broadcast2, slice_cols_from, slice_cols_to, cols_between.
  cbn [nrows ncols tab].
  rewrite slice_bound_nonneg, slice_bound_neg by lia.
  replace (Z.to_nat (Z.min season (Z.of_nat (ncols X)))) with (Z.to_nat season) by lia.
  replace (Z.to_nat (Z.max (- season + Z.of_nat (ncols X)) 0) - 0)
    with (ncols X - Z.to_nat season) by lia.
  rewrite !bdim_same, !bind_ok.
  f_equal; apply tab_ext; intros i j Hi Hj.
  rewrite !bidx_lt by assumption.
  rewrite !get_tab by assumption.
  f_equal; f_equal; lia.
Qed.

Lemma var4cast_integrate {F : Type} {SF : Scalar F} (X X_hat : ndarray F) (m delta : nat) :
  1 <= m <= ncols X ->
  nrows X_hat = nrows X -> ncols X_hat = ncols X - m + delta ->
  exists M,
    for_each (py_range 0 (Z.of_nat delta))
      (fun t M =>
         a <- get_col zero M (Z.of_nat (ncols X) - Z.of_nat m + t) ;;
         b <- get_col zero X_hat (Z.of_nat (ncols X) - Z.of_nat m + t) ;;
         c <- vadd a b ;;
         set_col zero M (Z.of_nat (ncols X) + t) c)
      (tab (nrows X) (ncols X + delta)
         (fun i j => if j <? ncols X then get zero X i j
                     else get zero (tab (nrows X) delta (fun _ _ => zero)) i (j - ncols X)))
    = Ok M /\
    integrated_upto X X_hat m delta delta M.
Proof.
  intros Hm Hr Hc.
  apply (for_each_range_ind (integrated_upto X X_hat m delta)).
  - split; [apply tab_shape|]; split.
    + intros i j Hi Hj; rewrite get_tab by lia.
      destruct (Nat.ltb_spec j (ncols X)); [reflexivity | lia].
    + intros s i Hs; lia.
  - intros t M Ht [[HMwf [HMr HMc]] [HX Hrec]].
    replace (Z.of_nat (ncols X) - Z.of_nat m + Z.of_nat t)%Z
      with (Z.of_nat (ncols X - m + t)) by lia.
    replace (Z.of_nat (ncols X) + Z.of_nat t)%Z with (Z.of_nat (ncols X + t)) by lia.
    rewrite !get_col_ok by lia; rewrite !bind_ok.
    rewrite Hr, <- HMr, vadd_same, bind_ok.
    rewrite set_col_ok by lia.
    eexists; split; [reflexivity|].
    rewrite HMr, HMc.
    set (M' := tab (nrows X) (ncols X + delta) _).
    assert (Hsame : forall i j', i < nrows X -> j' < ncols X + t ->
                                 get zero M' i j' = get zero M i j').
    { intros i j' Hi Hj'; unfold M'; rewrite get_tab by lia.
      destruct (Nat.eqb_spec j' (ncols X + t)); [lia | reflexivity]. }
    split; [apply tab_shape|]; split.
    + intros i j Hi Hj; rewrite Hsame by lia; apply HX; assumption.
    + intros s i Hs Hi.
      destruct (Nat.eq_dec s t) as [->|Hst].
      * rewrite (Hsame i (ncols X - m + t)) by lia.
        unfold M'; rewrite get_tab by lia.
        rewrite Nat.eqb_refl; reflexivity.
      * rewrite !Hsame by lia; apply Hrec; [lia | exact Hi].
Qed.

(** X5.  The seasonal [var4cast], for a season [m >= 1] and
    [d + m <= T]: the VAR recursion runs on the seasonal differences of
    [X], and each forecast column of the result is the column one season
    earlier plus the forecast difference.  The result is [X] extended by
    [delta] columns. *)
Theorem var4cast_seasonal_forecasts :
  forall (F : Type) (SF : Scalar F) (X A : ndarray F) (d delta season : Z),
    (1 <= season)%Z -> (0 <= d)%Z -> (d + season <= Z.of_nat (ncols X))%Z ->
    (0 <= delta)%Z ->
    nrows A = nrows X -> ncols A = Z.to_nat d * nrows X ->
    let m := Z.to_nat season in
    let T := ncols X in
    exists X_hat X_new,
      NoTMF.var4cast X A d delta season = Ok X_new /\
      has_shape X_new (nrows X) (T + Z.to_nat delta) /\
      (forall i j, i < nrows X -> j < T -> get zero X_new i j = get zero X i j) /\
      has_shape X_hat (nrows X) (T - m + Z.to_nat delta) /\
      (forall i j, i < nrows X -> j < T - m ->
         get zero X_hat i j = sub (get zero X i (j + m)) (get zero X i j)) /\
      (forall t, t < Z.to_nat delta ->
         matvec A (lags X_hat (T - m + t) (Z.to_nat d)) = Ok (column X_hat (T - m + t))) /\
      (forall t i, t < Z.to_nat delta -> i < nrows X ->
         get zero X_new i (T + t)
         = add (get zero X_new i (T - m + t)) (get zero X_hat i (T - m + t))).
Proof.
  intros F SF X A d delta season Hs Hd HT Hdelta HAr HAc m T.
  set (D := tab (nrows X) (T - m)
              (fun i j => sub (get zero X i (j + m)) (get zero X i j))).
  destruct (var4cast_loop D A d (Z.to_nat delta)) as [X_hat [Hrun Hup]];
    [simpl; lia | exact HAr | exact HAc |].
  destruct Hup as [[Hwf [Hr Hc]] [HD Hrec]].
  cbn [nrows ncols D tab] in Hr, Hc, HD, Hrec.
  destruct (var4cast_integrate X X_hat m (Z.to_nat delta)) as [X_new [Hrun2 Hup2]];
    [lia | exact Hr | exact Hc |].
  destruct Hup2 as [Hshape [HX Hint]].
  exists X_hat, X_new.
  split; [|split; [exact Hshape|]; split; [exact HX|]; split;
           [split; [exact Hwf | split; assumption]|]; split; [|split; assumption]].
  - unfold NoTMF.var4cast.
    rewrite seasonal_differences by lia; rewrite bind_ok.
    fold m T; fold D.
    rewrite np_zeros_ok by lia; rewrite bind_ok.
    rewrite append_cols_ok by (simpl; rewrite Nat2Z.id; reflexivity).
    rewrite bind_ok; cbn [nrows ncols tab]; rewrite Nat2Z.id.
    rewrite (for_each_ext _ _
      (fun t X_hat =>
         L <- take_cols zero X_hat
                (map (fun k => Z.of_nat (ncols D) + t - k)%Z (py_range 1 (d + 1))) ;;
         v <- reshape_1d zero (transpose zero L) (Z.of_nat (nrows D) * d) ;;
         c <- matvec A v ;;
         set_col zero X_hat (Z.of_nat (ncols D) + t) c)).
    2:{ intros t M _; cbn [nrows ncols D tab].
        replace (Z.of_nat (T - m)) with (Z.of_nat T - season)%Z by lia.
        reflexivity. }
    rewrite Z2Nat.id in Hrun by lia.
    cbn [nrows ncols D tab] in Hrun |- *.
    rewrite Hrun, !bind_ok.
    rewrite append_cols_ok by reflexivity.
    rewrite bind_ok; cbn [nrows ncols tab].
    rewrite Z2Nat.id in Hrun2 by lia.
    rewrite <- Hrun2.
    apply for_each_ext; intros t M _.
    unfold m; rewrite Z2Nat.id by lia; reflexivity.
  - intros i j Hi Hj; rewrite HD by assumption.
    unfold D; rewrite get_tab by assumption; reflexivity.
Qed.

(** X6.  The [var4cast] of the first part does not compare the order
    with the length of the history.  An order [d] of up to [2 T' + delta]
    is accepted: the lags that reach before the first column are read from
    the end of the array, as numpy reads a negative index.  Only a longer
    order is refused, by the index that falls out of the array. *)
Theorem var4cast_order_unchecked :
  forall (F : Type) (SF : Scalar F) (X A : ndarray F) (d delta : Z),
    (1 <= delta)%Z ->
    ((2 * Z.of_nat (ncols X) + delta < d)%Z ->
     TMF.var4cast X A d delta = Raise IndexError) /\
    ((0 <= d <= 2 * Z.of_nat (ncols X) + delta)%Z ->
     nrows A = nrows X -> ncols A = Z.to_nat d * nrows X ->
     exists P, TMF.var4cast X A d delta = Ok P /\
               has_shape P (nrows X) (Z.to_nat delta)).
Proof.
  intros F SF X A d delta Hdelta; split.
  - intro Hd; unfold TMF.var4cast.
    rewrite np_zeros_ok by lia; rewrite bind_ok.
    rewrite append_cols_ok by (simpl; rewrite Nat2Z.id; reflexivity).
    rewrite bind_ok, py_range_cons by lia.
    erewrite for_each_first_raises; [reflexivity|].
    unfold take_cols; cbn [nrows ncols tab].
    rewrite (mapM_raises _ _ IndexError); [reflexivity | |].
    + intros y _; apply norm_index_cases.
    + exists (Z.of_nat (ncols X) + 0 - d)%Z; split.
      * apply in_map_iff; exists d; split; [reflexivity | apply py_range_In; lia].
      * apply norm_index_out; lia.
  - intros Hd HAr HAc; unfold TMF.var4cast.
    rewrite np_zeros_ok by lia; rewrite bind_ok.
    rewrite append_cols_ok by (simpl; rewrite Nat2Z.id; reflexivity).
    rewrite bind_ok; cbn [nrows ncols tab]; rewrite Nat2Z.id.
    match goal with |- context [for_each _ ?b ?s0] =>
      destruct (for_each_total_in
                  (fun M => has_shape M (nrows X) (ncols X + Z.to_nat delta))
                  (py_range 0 delta) b) with (s := s0) as [X_hat [Hrun Hshape]] end.
    + intros t M Ht (HMwf & HMr & HMc); apply py_range_In in Ht.
      destruct (mapM_total (norm_index (ncols M))
                  (map (fun k => Z.of_nat (ncols X) + t - k)%Z (py_range 1 (d + 1))))
        as [js [Hjs Hlen]].
      { intros x Hx; apply in_map_iff in Hx; destruct Hx as [k [<- Hk]].
        apply py_range_In in Hk; apply norm_index_in; lia. }
      unfold take_cols; rewrite Hjs, !bind_ok.
      rewrite length_map, py_range_length in Hlen.
      unfold reshape_1d; cbn [nrows ncols transpose tab].
      replace (Z.of_nat (nrows X) * d =? Z.of_nat (length js * nrows M))%Z with true
        by (symmetry; apply Z.eqb_eq; nia).
      rewrite orb_true_r, bind_ok.
      destruct (matvec_ok A (ravel_C zero (transpose zero
                  (tab (nrows M) (length js) (fun i j => get zero M i (nth j js 0))))))
        as [c [Hc Lc]].
      { rewrite ravel_C_length; cbn [nrows ncols transpose tab]; nia. }
      rewrite Hc, bind_ok.
      unfold set_col.
      rewrite norm_index_ok by lia.
      rewrite bind_ok, Lc, HAr, HMr, Nat.eqb_refl; cbn [orb].
      eexists; split; [reflexivity|].
      rewrite HMc; apply tab_shape.
    + apply tab_shape.
    + rewrite Hrun, bind_ok; eexists; split; [reflexivity|].
      unfold slice_cols_from, cols_between.
      destruct Hshape as (_ & Hr & Hc).
      rewrite Hr, Hc, slice_bound_neg by lia.
      match goal with |- has_shape (tab _ ?w _) _ _ =>
        replace w with (Z.to_nat delta) by lia end.
      apply tab_shape.
Qed.

(** ** The temporal operators in exact arithmetic *)

Section Sums.
Context {F : Type} {SF : Scalar F}.
Hypothesis laws : exact_laws (SF := SF).

Lemma sum_to_S (n : nat) (f : nat -> F) : sum_to (S n) f = add (sum_to n f) (f n).
Proof.
  unfold sum_to; rewrite seq_S, map_app, fold_left_app; reflexivity.
Qed.

Lemma sum_to_zero (n : nat) (f : nat -> F) :
  (forall j, j < n -> f j = zero) -> sum_to n f = zero.
Proof.
  induction n as [|n IH]; intro H; [reflexivity|].
  rewrite sum_to_S, IH, H by (intros; try apply H; lia).
  apply (add_zero_l laws).
Qed.

(** A sum with one term that is not zero. *)
Lemma sum_to_single (n a : nat) (f : nat -> F) :
  a < n -> (forall j, j < n -> j <> a -> f j = zero) -> sum_to n f = f a.
Proof.
  induction n as [|n IH]; intros Ha H; [lia|].
  rewrite sum_to_S.
  destruct (Nat.eq_dec a n) as [->|Hne].
  - rewrite sum_to_zero by (intros; apply H; lia).
    apply (add_zero_l laws).
  - rewrite IH by (try lia; intros; apply H; lia).
    rewrite (H n) by lia.
    apply (add_zero_r laws).
Qed.

(** A sum with two. *)
Lemma sum_to_pair (n a b : nat) (f : nat -> F) :
  a < b -> b < n -> (forall j, j < n -> j <> a -> j <> b -> f j = zero) ->
  sum_to n f = add (f a) (f b).
Proof.
  induction n as [|n IH]; intros Hab Hb H; [lia|].
  rewrite sum_to_S.
  destruct (Nat.eq_dec b n) as [->|Hne].
  - rewrite (sum_to_single n a) by (try lia; intros; apply H; lia).
    reflexivity.
  - rewrite IH by (try lia; intros; apply H; lia).
    rewrite (H n) by lia.
    apply (add_zero_r laws).
Qed.

(** [X @ Psi[k].T] for the operator of lag [k]: the columns [d - k], ...,
    [T - k - 1] of [X]. *)
Lemma plain_Psi_lag (X : ndarray F) (d k : nat) :
  k <= d -> d <= ncols X ->
  matmul X (transpose zero (plain_Psi (Z.of_nat (ncols X)) (Z.of_nat d) (Z.of_nat k)))
  = Ok (cols_between zero X (d - k) (ncols X - k)).
Proof.
  intros Hk Hd; unfold plain_Psi.
  rewrite matmul_ok by (cbn [nrows ncols transpose tab]; lia).
  f_equal; unfold mat_product, cols_between; cbn [nrows ncols transpose tab].
  replace (Z.to_nat (Z.of_nat (ncols X) - Z.of_nat d)) with (ncols X - k - (d - k)) by lia.
  apply tab_ext; intros i t Hi Ht.
  rewrite (sum_to_single (ncols X) (d - k + t)); [| lia |].
  - rewrite get_transpose, get_tab by (cbn [nrows ncols tab]; lia).
    replace (Z.to_nat (Z.of_nat d - Z.of_nat k)) with (d - k) by lia.
    destruct (Nat.eqb_spec (d - k + t) (t + (d - k))) as [_|E]; [|lia].
    apply (mul_one_r laws).
  - intros j Hj Hne.
    rewrite get_transpose, get_tab by (cbn [nrows ncols tab]; lia).
    replace (Z.to_nat (Z.of_nat d - Z.of_nat k)) with (d - k) by lia.
    destruct (Nat.eqb_spec j (t + (d - k))) as [E|_]; [lia|].
    apply (mul_zero_r laws).
Qed.

(** The same with a season [m]: the seasonal differences of these columns. *)
Lemma seasonal_Psi_lag (X : ndarray F) (d m k : nat) :
  k <= d -> 1 <= m -> d + m <= ncols X ->
  matmul X (transpose zero
              (seasonal_Psi (Z.of_nat (ncols X)) (Z.of_nat d) (Z.of_nat m) (Z.of_nat k)))
  = Ok (tab (nrows X) (ncols X - d - m)
          (fun i t => sub (get zero X i (d - k + m + t)) (get zero X i (d - k + t)))).
Proof.
  intros Hk Hm Hd; unfold seasonal_Psi.
  rewrite matmul_ok by (cbn [nrows ncols transpose tab]; lia).
  f_equal; unfold mat_product; cbn [nrows ncols transpose tab].
  replace (Z.to_nat (Z.of_nat (ncols X) - Z.of_nat d - Z.of_nat m))
    with (ncols X - d - m) by lia.
  apply tab_ext; intros i t Hi Ht.
  rewrite (sum_to_pair (ncols X) (d - k + t) (d - k + m + t)); [| lia | lia |].
  - rewrite !get_transpose, !get_tab by (cbn [nrows ncols tab]; lia).
    replace (Z.to_nat (Z.of_nat d - Z.of_nat k)) with (d - k) by lia.
    rewrite Nat2Z.id.
    destruct (Nat.eqb_spec (d - k + t) (t + (d - k))) as [_|E]; [|lia].
    destruct (Nat.eqb_spec (d - k + m + t) (t + (d - k))) as [E|_]; [lia|].
    destruct (Nat.eqb_spec (d - k + m + t) (t + (d - k) + m)) as [_|E]; [|lia].
    rewrite (mul_minus_one_r laws), (mul_one_r laws).
    apply (add_opp_l laws).
  - intros j Hj Hne1 Hne2.
    rewrite get_transpose, get_tab by (cbn [nrows ncols tab]; lia).
    replace (Z.to_nat (Z.of_nat d - Z.of_nat k)) with (d - k) by lia.
    rewrite Nat2Z.id.
    destruct (Nat.eqb_spec j (t + (d - k))) as [E|_]; [lia|].
    destruct (Nat.eqb_spec j (t + (d - k) + m)) as [E|_]; [lia|].
    apply (mul_zero_r laws).
Qed.

End Sums.

(** X7.  In exact arithmetic, multiplying the factors by the transpose
    of an operator of [generate_Psi] takes the lag: [X @ Psi[k].T] is
    [X[:, d - k : T - k]] without season, and the seasonal difference
    [X[:, d - k + m : T - k] - X[:, d - k : T - k - m]] with a season [m]. *)
Theorem operators_take_lags :
  forall (F : Type) (SF : Scalar F),
    exact_laws (SF := SF) ->
    (forall (X : ndarray F) (d : nat),
        d <= ncols X ->
        exists Psi,
          TMF.generate_Psi (Z.of_nat (ncols X)) (Z.of_nat d) = Ok Psi /\
          length Psi = S d /\
          forall k, k <= d ->
            exists P, nth_error Psi k = Some P /\
                      matmul X (transpose zero P)
                      = Ok (cols_between zero X (d - k) (ncols X - k))) /\
    (sign_laws (SF := SF) ->
     forall (X : ndarray F) (d m : nat),
        1 <= m -> d + m <= ncols X ->
        exists Psi,
          NoTMF.generate_Psi (Z.of_nat (ncols X)) (Z.of_nat d) (Z.of_nat m) = Ok Psi /\
          length Psi = S d /\
          forall k, k <= d ->
            exists P, nth_error Psi k = Some P /\
                      matmul X (transpose zero P)
                      = Ok (tab (nrows X) (ncols X - d - m)
                              (fun i t => sub (get zero X i (d - k + m + t))
                                              (get zero X i (d - k + t))))).
Proof.
  intros F SF laws; split.
  - intros X d Hd.
    rewrite generate_Psi_plain by lia.
    replace (Z.to_nat (Z.of_nat d + 1)) with (S d) by lia.
    eexists; split; [reflexivity|]; split; [rewrite length_map, length_seq; reflexivity|].
    intros k Hk; eexists; split.
    + apply (nth_error_map_seq (fun k => plain_Psi (Z.of_nat (ncols X)) (Z.of_nat d)
                                          (Z.of_nat k))); lia.
    + apply plain_Psi_lag; assumption.
  - intros signs X d m Hm Hd.
    rewrite generate_Psi_seasonal by (try assumption; lia).
    replace (Z.to_nat (Z.of_nat d + 1)) with (S d) by lia.
    eexists; split; [reflexivity|]; split; [rewrite length_map, length_seq; reflexivity|].
    intros k Hk; eexists; split.
    + apply (nth_error_map_seq (fun k => seasonal_Psi (Z.of_nat (ncols X)) (Z.of_nat d)
                                          (Z.of_nat m) (Z.of_nat k))); lia.
    + apply seasonal_Psi_lag; assumption.
Qed.

(** X8.  In exact arithmetic, the stack that the VAR estimate inverts
    holds, in its block [k], the factors delayed by [k] steps (their
    seasonal differences, with a season): it is the design matrix of the
    autoregression. *)
Theorem var_design_matrix :
  forall (F : Type) (SF : Scalar F),
    exact_laws (SF := SF) ->
    (forall (X temp : ndarray F) (d : nat),
        d <= ncols X -> has_shape temp (d * nrows X) (ncols X - d) ->
        exists Psi Z,
          TMF.generate_Psi (Z.of_nat (ncols X)) (Z.of_nat d) = Ok Psi /\
          fill_temp (Z.of_nat (nrows X)) (Z.of_nat d) Psi X temp = Ok Z /\
          has_shape Z (d * nrows X) (ncols X - d) /\
          forall k i t, 1 <= k <= d -> i < nrows X -> t < ncols X - d ->
            get zero Z ((k - 1) * nrows X + i) t = get zero X i (d - k + t)) /\
    (sign_laws (SF := SF) ->
     forall (X temp : ndarray F) (d m : nat),
        1 <= m -> d + m <= ncols X -> has_shape temp (d * nrows X) (ncols X - d - m) ->
        exists Psi Z,
          NoTMF.generate_Psi (Z.of_nat (ncols X)) (Z.of_nat d) (Z.of_nat m) = Ok Psi /\
          fill_temp (Z.of_nat (nrows X)) (Z.of_nat d) Psi X temp = Ok Z /\
          has_shape Z (d * nrows X) (ncols X - d - m) /\
          forall k i t, 1 <= k <= d -> i < nrows X -> t < ncols X - d - m ->
            get zero Z ((k - 1) * nrows X + i) t
            = sub (get zero X i (d - k + m + t)) (get zero X i (d - k + t))).
Proof.
  intros F SF laws; split.
  - intros X temp d Hd Htemp.
    rewrite generate_Psi_plain by lia.
    replace (Z.to_nat (Z.of_nat d + 1)) with (S d) by lia.
    set (Psi := map (fun k => plain_Psi (Z.of_nat (ncols X)) (Z.of_nat d) (Z.of_nat k))
                  (seq 0 (S d))).
    assert (Hnth : forall k, k <= d ->
              nth k Psi (mk_array 0 0 [])
              = plain_Psi (Z.of_nat (ncols X)) (Z.of_nat d) (Z.of_nat k)).
    { intros k Hk; unfold Psi.
      apply (nth_map_seq (fun k => plain_Psi (Z.of_nat (ncols X)) (Z.of_nat d)
                                     (Z.of_nat k))); lia. }
    destruct (fill_temp_blocks X Psi d (ncols X - d)) with (temp := temp)
      as (Z & HZ & Hshape & Hblocks).
    + unfold Psi; rewrite length_map, length_seq; reflexivity.
    + intros k Hk; rewrite Hnth by exact Hk.
      unfold plain_Psi; cbn [nrows ncols tab]; lia.
    + exact Htemp.
    + exists Psi, Z; split; [reflexivity|]; split; [exact HZ|]; split; [exact Hshape|].
      intros k i t Hk Hi Ht.
      rewrite Hblocks, Hnth by (try assumption; lia).
      rewrite (matmul_product _ _ _ (plain_Psi_lag laws X d k ltac:(lia) Hd)).
      unfold cols_between; rewrite get_tab by lia; reflexivity.
  - intros signs X temp d m Hm Hd Htemp.
    rewrite generate_Psi_seasonal by (try assumption; lia).
    replace (Z.to_nat (Z.of_nat d + 1)) with (S d) by lia.
    set (Psi := map (fun k => seasonal_Psi (Z.of_nat (ncols X)) (Z.of_nat d) (Z.of_nat m)
                                (Z.of_nat k)) (seq 0 (S d))).
    assert (Hnth : forall k, k <= d ->
              nth k Psi (mk_array 0 0 [])
              = seasonal_Psi (Z.of_nat (ncols X)) (Z.of_nat d) (Z.of_nat m) (Z.of_nat k)).
    { intros k Hk; unfold Psi.
      apply (nth_map_seq (fun k => seasonal_Psi (Z.of_nat (ncols X)) (Z.of_nat d)
                                     (Z.of_nat m) (Z.of_nat k))); lia. }
    destruct (fill_temp_blocks X Psi d (ncols X - d - m)) with (temp := temp)
      as (Z & HZ & Hshape & Hblocks).
    + unfold Psi; rewrite length_map, length_seq; reflexivity.
    + intros k Hk; rewrite Hnth by exact Hk.
      unfold seasonal_Psi; cbn [nrows ncols tab]; lia.
    + exact Htemp.
    + exists Psi, Z; split; [reflexivity|]; split; [exact HZ|]; split; [exact Hshape|].
      intros k i t Hk Hi Ht.
      rewrite Hblocks, Hnth by (try assumption; lia).
      rewrite (matmul_product _ _ _ (seasonal_Psi_lag laws X d m k ltac:(lia) Hm Hd)).
      rewrite get_tab by lia; reflexivity.
Qed.

(** ** The rolling forecast, from its horizon to what it hands back *)


(** What the seasonal [var4cast] returns extends [X] by [delta] columns. *)
Lemma var4cast_shape {F : Type} {SF : Scalar F} (X A X_new : ndarray F)
  (d delta season : Z) :
  NoTMF.var4cast X A d delta season = Ok X_new ->
  (0 <= delta)%Z /\ has_shape X_new (nrows X) (ncols X + Z.to_nat delta).
Proof.
  unfold NoTMF.var4cast; intro H.
  apply bind_inv in H; destruct H as [D [_ H]].
  apply bind_inv in H; destruct H as [Z0 [HZ0 H]].
  apply bind_inv in H; destruct H as [X_hat0 [_ H]].
  apply bind_inv in H; destruct H as [X_hat [_ H]].
  apply bind_inv in H; destruct H as [Z1 [HZ1 H]].
  apply bind_inv in H; destruct H as [X1 [HX1 H]].
  apply np_zeros_inv in HZ1; destruct HZ1 as (_ & Hdelta & ->).
  split; [exact Hdelta|].
  apply append_cols_inv in HX1; cbn [ncols tab] in HX1.
  refine (for_each_invariant (fun M => has_shape M (nrows X) (ncols X + Z.to_nat delta))
            _ _ _ _ _ HX1 H).
  intros t M M' _ (_ & Hr & Hc) Hbody.
  apply bind_inv in Hbody; destruct Hbody as [a [_ Hbody]].
  apply bind_inv in Hbody; destruct Hbody as [b [_ Hbody]].
  apply bind_inv in Hbody; destruct Hbody as [c [_ Hbody]].
  apply set_col_shape in Hbody; rewrite Hr, Hc in Hbody; exact Hbody.
Qed.

Lemma notmf_dic_shape {F : Type} {SF : Scalar F} {LA : LinAlg F}
  (obs W X A X' A' : ndarray F) (d : Z) (lambda0 rho : F) (season : Z) :
  NoTMF.notmf_dic obs W X A d lambda0 rho season = Ok (X', A') ->
  has_shape X' (nrows X) (ncols X) /\ nrows A' = nrows X.
Proof.
  unfold NoTMF.notmf_dic; intro H.
  destruct (NoTMF.observed_dic obs) as [ind obs'].
  apply bind_inv in H; destruct H as [Psi [_ H]].
  apply bind_inv in H; destruct H as [X1 [HX H]].
  apply bind_inv in H; destruct H as [temp0 [_ H]].
  apply bind_inv in H; destruct H as [temp [_ H]].
  apply bind_inv in H; destruct H as [Psi0 [_ H]].
  apply bind_inv in H; destruct H as [XP [HXP H]].
  apply bind_inv in H; destruct H as [P [_ H]].
  apply bind_inv in H; destruct H as [A1 [HA H]].
  injection H as <- <-.
  apply conj_grad_x_shape in HX.
  split; [exact HX|].
  apply matmul_inv in HXP; destruct HXP as [_ ->].
  apply matmul_inv in HA; destruct HA as [_ ->].
  cbn [nrows mat_product tab]; apply HX.
Qed.

Lemma rolling_step_rolled {F : Type} {SF : Scalar F} {LA : LinAlg F} (draws : nat -> F)
  (dense_mat sparse_mat : ndarray F) (start_time delta rank d : Z) (lambda0 rho : F)
  (season maxiter : Z) (width t : nat) (st st' : NoTMF.rolling_state F) :
  rolled sparse_mat start_time (Z.to_nat rank) (Z.to_nat delta) width t st ->
  NoTMF.rolling_step draws dense_mat start_time delta rank d lambda0 rho season maxiter
    (Z.of_nat t) st = Ok st' ->
  rolled sparse_mat start_time (Z.to_nat rank) (Z.to_nat delta) width (S t) st'.
Proof.
  intros [Hmh Hst] Hstep.
  destruct (rolling_step_inv _ _ _ _ _ _ _ _ _ _ _ _ _ Hstep)
    as (W & X & A & X_new & V & Hfit & Hvar & HV & Hset & HW & HX & HA & HXn).
  apply set_col_slice_wf in Hset.
  destruct Hmh as (_ & Hr & Hc); rewrite Hr, Hc in Hset.
  split; [exact Hset|].
  exists W, X, A, X_new.
  split; [exact HW|]; split; [exact HX|]; split; [exact HA|]; split; [exact HXn|].
  apply var4cast_shape in Hvar; destruct Hvar as [Hdelta HXnew].
  destruct t as [|t'].
  - cbn [Z.of_nat Z.eqb] in Hfit; destruct Hfit as [mh0 Hn]; rewrite Hst in Hn.
    apply notmf_fitted in Hn.
    destruct Hn as (_ & _ & HWs & HXs & HAs & _).
    cbn [nrows slice_cols_to cols_between tab] in HWs.
    destruct HXs as (HXwf & HXr & HXc).
    split; [exact HWs|].
    split; [split; [exact HXwf | split; [exact HXr | rewrite HXc; lia]]|].
    split; [exact HAs|].
    rewrite HXr, HXc in HXnew.
    replace (ncols (slice_cols_to zero sparse_mat start_time) + 1 * Z.to_nat delta)
      with (ncols (slice_cols_to zero sparse_mat start_time) + Z.to_nat delta) by lia.
    exact HXnew.
  - destruct (Z.eqb_spec (Z.of_nat (S t')) 0) as [E|_]; [lia|].
    destruct Hfit as (X_prev & A_prev & HW0 & HXp & HAp & Hdic).
    destruct Hst as (W0 & X0 & A0 & Xn0 & HW0' & _ & _ & HXn0 & HWs & _ & _ & HXns).
    rewrite HW0 in HW0'; injection HW0' as <-.
    rewrite HXp in HXn0; injection HXn0 as <-.
    apply notmf_dic_shape in Hdic; destruct Hdic as [HXs HAs].
    destruct HXns as (_ & HXpr & HXpc).
    rewrite HXpr, HXpc in HXs.
    split; [exact HWs|]; split; [exact HXs|]; split; [congruence|].
    destruct HXs as (_ & HXr & HXc).
    rewrite HXr, HXc in HXnew.
    replace (ncols (slice_cols_to zero sparse_mat start_time) + S (S t') * Z.to_nat delta)
      with (ncols (slice_cols_to zero sparse_mat start_time) + S t' * Z.to_nat delta
            + Z.to_nat delta) by lia.
    exact HXnew.
Qed.

(** A call of [rolling4cast] that returns has run the loop over
    [n' + 1 >= 1] steps; it had [pred_step >= 1] and [delta >= 1]. *)
Lemma rolling4cast_run {F : Type} {SF : Scalar F} {LA : LinAlg F} (draws : nat -> F)
  (dense_mat sparse_mat : ndarray F) (pred_step delta rank d : Z) (lambda0 rho : F)
  (season maxiter : Z) (mat_hat W X A : ndarray F) :
  NoTMF.rolling4cast draws dense_mat sparse_mat pred_step delta rank d lambda0 rho
    season maxiter = Ok (mat_hat, W, X, A) ->
  exists (n' : nat) (zeros : ndarray F) (st : NoTMF.rolling_state F),
    (1 <= pred_step)%Z /\ (1 <= delta)%Z /\
    (Z.of_nat n' * delta < pred_step <= Z.of_nat (S n') * delta)%Z /\
    np_zeros (Z.of_nat (nrows sparse_mat)) (Z.of_nat (S n') * delta) = Ok zeros /\
    for_each (py_range 0 (Z.of_nat (S n')))
      (NoTMF.rolling_step draws dense_mat (Z.of_nat (ncols sparse_mat) - pred_step)
         delta rank d lambda0 rho season maxiter)
      (NoTMF.mk_rolling zeros sparse_mat None None None None) = Ok st /\
    NoTMF.r_mat_hat st = mat_hat /\
    NoTMF.r_W st = Some W /\ NoTMF.r_X st = Some X /\ NoTMF.r_A st = Some A.
Proof.
  intro H; unfold NoTMF.rolling4cast in H.
  apply bind_inv in H; destruct H as [c [Hc H]].
  apply bind_inv in H; destruct H as [zeros [Hz H]].
  apply bind_inv in H; destruct H as [st [Hrun H]].
  apply bind_inv in H; destruct H as [pos [_ H]].
  apply bind_inv in H; destruct H as [v1 [_ H]].
  apply bind_inv in H; destruct H as [v2 [_ H]].
  apply bind_inv in H; destruct H as [W' [HW H]].
  apply bind_inv in H; destruct H as [X' [HX H]].
  apply bind_inv in H; destruct H as [A' [HA H]].
  injection H as Hmh -> -> ->.
  apply read_local_inv in HW, HX, HA.
  destruct (np_zeros_inv _ _ _ Hz) as (_ & Hwidth & _).
  unfold NoTMF.ceil_div in Hc.
  destruct (Z.eqb_spec delta 0) as [E|Hd0]; [discriminate Hc|].
  injection Hc as Hc.
  assert (Hc1 : (1 <= c)%Z).
  { destruct (Z.le_gt_cases c 0) as [Hle|Hgt]; [|lia].
    rewrite py_range_nil in Hrun by lia; simpl in Hrun.
    injection Hrun as <-; discriminate HW. }
  assert (Hdelta : (1 <= delta)%Z) by nia.
  pose proof (ceil_div_spec pred_step delta c Hdelta) as Hceil.
  unfold NoTMF.ceil_div in Hceil.
  destruct (Z.eqb_spec delta 0) as [E|_]; [lia|].
  specialize (Hceil (f_equal Ok Hc)).
  destruct (Z.to_nat c) as [|n'] eqn:En; [lia|].
  assert (Ec : c = Z.of_nat (S n')) by lia.
  rewrite Ec in Hrun, Hz, Hceil.
  exists n', zeros, st.
  split; [nia|]; split; [exact Hdelta|]; split; [lia|].
  split; [exact Hz|]; split; [exact Hrun|].
  split; [exact Hmh|]; split; [exact HW|]; split; [exact HX | exact HA].
Qed.

(** X10.  What a call of [rolling4cast] that returns hands back, over
    [n] steps: [W] of the first fit, [X] and [A] of the last one, [X]
    having the columns of the first window and [delta] more for each step
    before the last; and the last [delta] columns of [mat_hat] are [W.T]
    times the last [delta] columns of [var4cast(X, A, d, delta, season)].
    Such a call had [pred_step >= 1] and [delta >= 1]. *)
Theorem rolling4cast_outputs :
  forall (F : Type) (SF : Scalar F) (LA : LinAlg F) (draws : nat -> F)
         (dense_mat sparse_mat : ndarray F) (pred_step delta rank d : Z)
         (lambda0 rho : F) (season maxiter : Z) (mat_hat W X A : ndarray F),
    NoTMF.rolling4cast draws dense_mat sparse_mat pred_step delta rank d lambda0 rho
      season maxiter = Ok (mat_hat, W, X, A) ->
    let c0 := ncols (slice_cols_to zero sparse_mat (Z.of_nat (ncols sparse_mat) - pred_step)) in
    (1 <= pred_step)%Z /\ (1 <= delta)%Z /\
    ((pred_step <= Z.of_nat (ncols sparse_mat))%Z ->
     Z.of_nat c0 = (Z.of_nat (ncols sparse_mat) - pred_step)%Z) /\
    exists n : nat,
      1 <= n /\
      ((Z.of_nat n - 1) * delta < pred_step <= Z.of_nat n * delta)%Z /\
      has_shape mat_hat (nrows sparse_mat) (n * Z.to_nat delta) /\
      has_shape W (Z.to_nat rank) (nrows sparse_mat) /\
      has_shape X (Z.to_nat rank) (c0 + (n - 1) * Z.to_nat delta) /\
      nrows A = Z.to_nat rank /\
      exists X_new V,
        NoTMF.var4cast X A d delta season = Ok X_new /\
        matmul (transpose zero W) (slice_cols_from zero X_new (- delta)) = Ok V /\
        has_shape V (nrows sparse_mat) (Z.to_nat delta) /\
        forall i j, i < nrows sparse_mat -> j < Z.to_nat delta ->
          get zero mat_hat i ((n - 1) * Z.to_nat delta + j) = get zero V i j.
Proof.
  intros F SF LA draws dense_mat sparse_mat pred_step delta rank d lambda0 rho
    season maxiter mat_hat W X A H c0.
  destruct (rolling4cast_run _ _ _ _ _ _ _ _ _ _ _ _ _ _ _ H)
    as (n' & zeros & st & Hp & Hdelta & Hceil & Hz & Hrun & Hmh & HW & HX & HA).
  apply np_zeros_inv in Hz; destruct Hz as (_ & _ & ->).
  split; [exact Hp|]; split; [exact Hdelta|]; split.
  { intro HT; unfold c0, slice_cols_to, cols_between; cbn [ncols tab].
    rewrite slice_bound_nonneg by lia; lia. }
  apply for_each_range_last in Hrun; destruct Hrun as [s [Hprefix Hlast]].
  set (start_time := (Z.of_nat (ncols sparse_mat) - pred_step)%Z) in *.
  set (width := Z.to_nat (Z.of_nat (S n') * delta)) in *.
  assert (Hs : rolled sparse_mat start_time (Z.to_nat rank) (Z.to_nat delta) width n' s).
  { refine (for_each_range_inv
              (rolled sparse_mat start_time (Z.to_nat rank) (Z.to_nat delta) width)
              _ _ _ _ _ _ Hprefix).
    - split; [|reflexivity].
      cbn [NoTMF.r_mat_hat]; rewrite <- (Nat2Z.id (nrows sparse_mat)) at 2.
      apply tab_shape.
    - intros t s1 s2 _ Hinv Hstep.
      exact (rolling_step_rolled _ _ _ _ _ _ _ _ _ _ _ _ _ _ _ Hinv Hstep). }
  pose proof (rolling_step_rolled _ _ _ _ _ _ _ _ _ _ _ _ _ _ _ Hs Hlast) as Hst.
  destruct Hst as [Hmat (W0 & X0 & A0 & Xn & HW0 & HX0 & HA0 & HXn & HWs & HXs & HAs & HXns)].
  rewrite HW in HW0; injection HW0 as <-.
  rewrite HX in HX0; injection HX0 as <-.
  rewrite HA in HA0; injection HA0 as <-.
  destruct (rolling_step_inv _ _ _ _ _ _ _ _ _ _ _ _ _ Hlast)
    as (W1 & X1 & A1 & X_new & V & _ & Hvar & HV & Hset & HW1 & HX1 & HA1 & HXn1).
  rewrite HW in HW1; injection HW1 as <-.
  rewrite HX in HX1; injection HX1 as <-.
  rewrite HA in HA1; injection HA1 as <-.
  rewrite HXn in HXn1; injection HXn1 as <-.
  assert (Hw : width = S n' * Z.to_nat delta) by (unfold width; nia).
  exists (S n').
  split; [lia|]; split; [lia|].
  rewrite <- Hmh.
  split; [rewrite <- Hw; exact Hmat|].
  split; [exact HWs|].
  replace (S n' - 1) with n' by lia.
  split; [exact HXs|]; split; [exact HAs|].
  exists Xn, V; split; [exact Hvar|]; split; [exact HV|].
  assert (HVs : has_shape V (nrows sparse_mat) (Z.to_nat delta)).
  { apply matmul_inv in HV; destruct HV as [_ ->].
    unfold mat_product, slice_cols_from, cols_between; cbn [nrows ncols transpose tab].
    destruct HWs as (_ & _ & HWc); destruct HXns as (_ & _ & HXnc).
    rewrite HWc, HXnc, slice_bound_neg by lia.
    match goal with |- has_shape (tab _ ?w _) _ _ =>
      replace w with (Z.to_nat delta) by lia end.
    apply tab_shape. }
  split; [exact HVs|].
  intros i j Hi Hj.
  destruct Hs as [(_ & Hsr & Hsc) _].
  destruct HVs as (_ & HVr & HVc).
  apply (set_col_slice_get zero (NoTMF.r_mat_hat s) V (NoTMF.r_mat_hat st)
           (n' * Z.to_nat delta) (S n' * Z.to_nat delta)); try lia.
  replace (Z.of_nat (n' * Z.to_nat delta)) with (Z.of_nat n' * delta)%Z by nia.
  replace (Z.of_nat (S n' * Z.to_nat delta)) with ((Z.of_nat n' + 1) * delta)%Z by nia.
  exact Hset.
Qed.

(** The write that a fit makes through the view it is handed. *)
Lemma set_nan_window {F : Type} {SF : Scalar F} (M : ndarray F) (hi : Z) :
  set_col_slice zero M 0 hi (nan_to_zero (slice_cols_to zero M hi))
  = Ok (nan_cleared M (slice_bound (ncols M) hi)).
Proof.
  unfold set_col_slice, slice_cols_to, cols_between, nan_to_zero, map_array, broadcast_to.
  cbn [nrows ncols tab].
  replace (slice_bound (ncols M) 0) with 0 by (rewrite slice_bound_nonneg; lia).
  rewrite !Nat.eqb_refl; cbn [orb andb bind].
  f_equal; unfold nan_cleared; apply tab_ext; intros i j Hi Hj.
  change (0 <=? j) with true; cbn [andb].
  destruct (Nat.ltb_spec j (slice_bound (ncols M) hi)) as [Hlt|Hge]; [|reflexivity].
  rewrite !Nat.sub_0_r.
  rewrite get_tab by assumption.
  rewrite !bidx_lt by assumption.
  rewrite !get_tab by assumption.
  reflexivity.
Qed.

Lemma nan_cleared_twice {F : Type} {SF : Scalar F} (M : ndarray F) (e e' : nat) :
  e <= e' -> nan_cleared (nan_cleared M e) e' = nan_cleared M e'.
Proof.
  intro H; unfold nan_cleared at 1 3; cbn [nrows ncols nan_cleared tab].
  apply tab_ext; intros i j Hi Hj.
  unfold nan_cleared; rewrite get_tab by assumption.
  destruct (Nat.ltb_spec j e'); destruct (Nat.ltb_spec j e); try lia; try reflexivity.
  destruct (is_nan (get zero M i j)) eqn:E; [|rewrite E; reflexivity].
  destruct (is_nan zero); reflexivity.
Qed.

Lemma rolling_step_sparse {F : Type} {SF : Scalar F} {LA : LinAlg F} (draws : nat -> F)
  (dense_mat : ndarray F) (start_time delta rank d : Z) (lambda0 rho : F)
  (season maxiter t : Z) (st st' : NoTMF.rolling_state F) :
  NoTMF.rolling_step draws dense_mat start_time delta rank d lambda0 rho season maxiter t st
    = Ok st' ->
  NoTMF.r_sparse st'
  = nan_cleared (NoTMF.r_sparse st)
      (slice_bound (ncols (NoTMF.r_sparse st)) (start_time + t * delta)).
Proof.
  unfold NoTMF.rolling_step; intro H.
  apply bind_inv in H; destruct H as [[[[sp W] X] A] [Hfit H]].
  apply bind_inv in H; destruct H as [X_new [_ H]].
  apply bind_inv in H; destruct H as [V [_ H]].
  apply bind_inv in H; destruct H as [mat_hat [_ H]].
  injection H as <-; cbn [NoTMF.r_sparse].
  destruct (Z.eqb_spec t 0) as [->|Hne].
  - apply bind_inv in Hfit; destruct Hfit as [[[[mh0 W0] X0] A0] [_ Hfit]].
    apply bind_inv in Hfit; destruct Hfit as [sp' [Hsp Hfit]].
    injection Hfit as <- _ _ _.
    rewrite set_nan_window in Hsp; injection Hsp as <-.
    rewrite Z.mul_0_l, Z.add_0_r; reflexivity.
  - apply bind_inv in Hfit; destruct Hfit as [W0 [_ Hfit]].
    apply bind_inv in Hfit; destruct Hfit as [Xp [_ Hfit]].
    apply bind_inv in Hfit; destruct Hfit as [Ap [_ Hfit]].
    apply bind_inv in Hfit; destruct Hfit as [[X0 A0] [_ Hfit]].
    apply bind_inv in Hfit; destruct Hfit as [sp' [Hsp Hfit]].
    injection Hfit as <- _ _ _.
    rewrite set_nan_window in Hsp; injection Hsp as <-; reflexivity.
Qed.

(** X11.  [rolling4cast] writes to the array it is given: the fits
    overwrite, through the views they are handed, the NaN entries of the
    caller's [sparse_mat] with 0.  After a call that returns, for a
    horizon within the data, this has happened in the columns that the
    last fit was trained on, and the other columns are as they were. *)
Theorem rolling4cast_overwrites_nan :
  forall (F : Type) (SF : Scalar F) (LA : LinAlg F) (draws : nat -> F)
         (dense_mat sparse_mat : ndarray F) (pred_step delta rank d : Z)
         (lambda0 rho : F) (season maxiter : Z) (mat_hat W X A : ndarray F),
    NoTMF.rolling4cast draws dense_mat sparse_mat pred_step delta rank d lambda0 rho
      season maxiter = Ok (mat_hat, W, X, A) ->
    (pred_step <= Z.of_nat (ncols sparse_mat))%Z ->
    exists (n : nat) (zeros : ndarray F) (st : NoTMF.rolling_state F),
      1 <= n /\
      ((Z.of_nat n - 1) * delta < pred_step <= Z.of_nat n * delta)%Z /\
      np_zeros (Z.of_nat (nrows sparse_mat)) (Z.of_nat n * delta) = Ok zeros /\
      for_each (py_range 0 (Z.of_nat n))
        (NoTMF.rolling_step draws dense_mat (Z.of_nat (ncols sparse_mat) - pred_step)
           delta rank d lambda0 rho season maxiter)
        (NoTMF.mk_rolling zeros sparse_mat None None None None) = Ok st /\
      NoTMF.r_mat_hat st = mat_hat /\
      NoTMF.r_sparse st
      = nan_cleared sparse_mat
          (Z.to_nat (Z.of_nat (ncols sparse_mat) - pred_step + (Z.of_nat n - 1) * delta)).
Proof.
  intros F SF LA draws dense_mat sparse_mat pred_step delta rank d lambda0 rho
    season maxiter mat_hat W X A H HT.
  destruct (rolling4cast_run _ _ _ _ _ _ _ _ _ _ _ _ _ _ _ H)
    as (n' & zeros & st & Hp & Hdelta & Hceil & Hz & Hrun & Hmh & _).
  exists (S n'), zeros, st.
  split; [lia|]; split; [lia|]; split; [exact Hz|]; split; [exact Hrun|].
  split; [exact Hmh|].
  set (start_time := (Z.of_nat (ncols sparse_mat) - pred_step)%Z) in *.
  set (e := fun t : nat => slice_bound (ncols sparse_mat) (start_time + Z.of_nat t * delta)).
  assert (Hinv : match S n' with
                 | 0 => NoTMF.r_sparse st = sparse_mat
                 | S t' => NoTMF.r_sparse st = nan_cleared sparse_mat (e t')
                 end).
  { refine (for_each_range_inv
              (fun t s => match t with
                          | 0 => NoTMF.r_sparse s = sparse_mat
                          | S t' => NoTMF.r_sparse s = nan_cleared sparse_mat (e t')
                          end) _ _ _ _ _ _ Hrun); [reflexivity|].
    intros t s1 s2 _ Hs Hstep.
    apply rolling_step_sparse in Hstep; rewrite Hstep.
    destruct t as [|t'].
    - rewrite Hs; reflexivity.
    - rewrite Hs; cbn [ncols nan_cleared tab].
      apply nan_cleared_twice; unfold e.
      rewrite !slice_bound_nonneg by nia.
      apply Z2Nat.inj_le; try lia; apply Z.min_le_compat_r; nia. }
  cbv iota in Hinv; rewrite Hinv; f_equal; unfold e.
  rewrite slice_bound_nonneg by nia.
  f_equal; lia.
Qed.

(** ** The error measures *)

Lemma metrics_on_equal_lengths {F : Type} {SF : Scalar F} {MF : Metric F}
  (var var_hat : list F) :
  length var = length var_hat ->
  compute_mape var var_hat = Ok (mape_of var var_hat) /\
  compute_rmse var var_hat = Ok (rmse_of var var_hat).
Proof.
  intro Hl; split.
  - unfold compute_mape, vsub, vdiv.
    rewrite vbroadcast2_equal by exact Hl; rewrite bind_ok.
    rewrite vbroadcast2_equal by (rewrite !length_map, length_seq; reflexivity).
    rewrite bind_ok; unfold mape_of; do 3 f_equal.
    rewrite !length_map, length_seq.
    apply map_ext_in; intros i Hi; apply in_seq in Hi.
    f_equal.
    rewrite (nth_indep _ zero (np_abs zero)) by (rewrite !length_map, length_seq; lia).
    rewrite (map_nth np_abs _ zero i).
    f_equal.
    rewrite (nth_indep _ zero (sub (nth 0 var zero) (nth 0 var_hat zero)))
      by (rewrite length_map, length_seq; lia).
    rewrite (map_nth (fun i => sub (nth i var zero) (nth i var_hat zero)) _ 0 i).
    rewrite seq_nth by lia; reflexivity.
  - unfold compute_rmse, vsub.
    rewrite vbroadcast2_equal by exact Hl; rewrite bind_ok.
    unfold rmse_of; do 4 f_equal.
    rewrite map_map; reflexivity.
Qed.

(** X12.  The error measures raise on nothing but arrays that do not
    broadcast: of different lengths, neither of which is 1.  No input makes
    them divide an integer by zero: an empty pair of arrays, or a true
    value of zero, gives what the float division gives. *)
Theorem metrics_raise_on_lengths_only :
  forall (F : Type) (SF : Scalar F) (MF : Metric F) (var var_hat : list F),
    ((exists x, compute_mape var var_hat = Ok x) \/
     compute_mape var var_hat = Raise ValueError) /\
    ((exists x, compute_rmse var var_hat = Ok x) \/
     compute_rmse var var_hat = Raise ValueError) /\
    (compute_mape var var_hat = Raise ValueError <->
     length var <> length var_hat /\ length var <> 1 /\ length var_hat <> 1) /\
    (compute_rmse var var_hat = Raise ValueError <->
     length var <> length var_hat /\ length var <> 1 /\ length var_hat <> 1) /\
    (length var = length var_hat ->
     compute_mape var var_hat = Ok (mape_of var var_hat) /\
     compute_rmse var var_hat = Ok (rmse_of var var_hat)).
Proof.
  intros F SF MF var var_hat.
  assert (Hmape : (exists x, compute_mape var var_hat = Ok x /\
                             ~ (length var <> length var_hat /\ length var <> 1 /\
                                length var_hat <> 1)) \/
                  (compute_mape var var_hat = Raise ValueError /\
                   length var <> length var_hat /\ length var <> 1 /\
                   length var_hat <> 1)).
  { unfold compute_mape, vsub.
    destruct (vbroadcast2_raises sub var var_hat) as [[e He]|[He Hl]].
    - left; rewrite He, bind_ok.
      pose proof (vbroadcast2_length _ _ _ _ He) as Hb.
      unfold vdiv, vbroadcast2; rewrite length_map, (bdim_back _ _ _ Hb), bind_ok.
      eexists; split; [reflexivity|].
      intro Hl; apply bdim_raises in Hl; rewrite Hb in Hl; discriminate Hl.
    - right; rewrite He; split; [reflexivity | exact Hl]. }
  assert (Hrmse : (exists x, compute_rmse var var_hat = Ok x /\
                             ~ (length var <> length var_hat /\ length var <> 1 /\
                                length var_hat <> 1)) \/
                  (compute_rmse var var_hat = Raise ValueError /\
                   length var <> length var_hat /\ length var <> 1 /\
                   length var_hat <> 1)).
  { unfold compute_rmse, vsub.
    destruct (vbroadcast2_raises sub var var_hat) as [[e He]|[He Hl]].
    - left; rewrite He, bind_ok.
      pose proof (vbroadcast2_length _ _ _ _ He) as Hb.
      eexists; split; [reflexivity|].
      intro Hl; apply bdim_raises in Hl; rewrite Hb in Hl; discriminate Hl.
    - right; rewrite He; split; [reflexivity | exact Hl]. }
  split; [destruct Hmape as [[x [Hx _]]|[Hx _]]; [left; exists x; exact Hx | right; exact Hx]|].
  split; [destruct Hrmse as [[x [Hx _]]|[Hx _]]; [left; exists x; exact Hx | right; exact Hx]|].
  split; [|split].
  - destruct Hmape as [[x [Hx Hn]]|[Hx Hl]].
    + split; [intro E; rewrite Hx in E; discriminate E | intro Hl; contradiction].
    + split; [intros _; exact Hl | intros _; exact Hx].
  - destruct Hrmse as [[x [Hx Hn]]|[Hx Hl]].
    + split; [intro E; rewrite Hx in E; discriminate E | intro Hl; contradiction].
    + split; [intros _; exact Hl | intros _; exact Hx].
  - apply metrics_on_equal_lengths.
Qed.

(** X13.  After a call of [rolling4cast] that returns, the two error
    measures it prints are computed without an exception, on the held-out
    entries that are neither zero nor NaN: every term of the MAPE divides
    by such an entry. *)
Theorem forecast_report_defined :
  forall (F : Type) (SF : Scalar F) (MF : Metric F) (LA : LinAlg F) (draws : nat -> F)
         (dense_mat sparse_mat : ndarray F) (pred_step delta rank d : Z)
         (lambda0 rho : F) (season maxiter : Z) (mat_hat W X A : ndarray F),
    NoTMF.rolling4cast draws dense_mat sparse_mat pred_step delta rank d lambda0 rho
      season maxiter = Ok (mat_hat, W, X, A) ->
    let T := Z.of_nat (ncols sparse_mat) in
    let small := slice_cols zero dense_mat (T - pred_step) T in
    exists B var var_hat,
      logical_and (nonzero small) (invert (isnan small)) = Ok B /\
      take_at zero small (np_where B) = Ok var /\
      take_at zero mat_hat (np_where B) = Ok var_hat /\
      length var = length var_hat /\
      (forall y, In y var -> is_zero y = false /\ is_nan y = false) /\
      forecast_report dense_mat mat_hat (T - pred_step) T
      = Ok (mape_of var var_hat, rmse_of var var_hat).
Proof.
  intros F SF MF LA draws dense_mat sparse_mat pred_step delta rank d lambda0 rho
    season maxiter mat_hat W X A H T small.
  unfold NoTMF.rolling4cast in H.
  apply bind_inv in H; destruct H as [c [_ H]].
  apply bind_inv in H; destruct H as [zeros [_ H]].
  apply bind_inv in H; destruct H as [st [_ H]].
  apply bind_inv in H; destruct H as [pos [Hpos H]].
  apply bind_inv in H; destruct H as [var [Hvar H]].
  apply bind_inv in H; destruct H as [var_hat [Hhat H]].
  apply bind_inv in H; destruct H as [W' [_ H]].
  apply bind_inv in H; destruct H as [X' [_ H]].
  apply bind_inv in H; destruct H as [A' [_ H]].
  injection H as Hmh _ _ _.
  apply bind_inv in Hpos; destruct Hpos as [B [HB Hpos]].
  injection Hpos as <-.
  fold T in HB, Hvar; fold small in HB, Hvar.
  rewrite Hmh in Hhat.
  exists B, var, var_hat.
  split; [exact HB|]; split; [exact Hvar|]; split; [exact Hhat|].
  assert (Hlen : length var = length var_hat).
  { unfold take_at in Hvar, Hhat.
    destruct (mapM_inv _ _ _ Hvar) as [-> _].
    destruct (mapM_inv _ _ _ Hhat) as [-> _]; reflexivity. }
  split; [exact Hlen|]; split.
  - intros y Hy.
    unfold take_at in Hvar.
    destruct (mapM_inv _ _ _ Hvar) as [_ Hin].
    destruct (Hin y Hy) as [[i j] [Hp Hget]].
    rewrite logical_and_same in HB by reflexivity.
    injection HB as <-.
    apply np_where_In in Hp; destruct Hp as (Hi & Hj & Hv).
    change (i < nrows small) in Hi; change (j < ncols small) in Hj.
    cbn [fst snd] in Hget.
    destruct (Nat.ltb_spec i (nrows small)) as [_|E]; [|lia].
    destruct (Nat.ltb_spec j (ncols small)) as [_|E]; [|lia].
    cbn [andb] in Hget; injection Hget as <-.
    rewrite get_tab in Hv by assumption.
    unfold nonzero, invert, isnan, map_array in Hv.
    rewrite !get_tab in Hv by assumption.
    apply andb_true_iff in Hv; destruct Hv as [Hz Hn].
    split; [apply negb_true_iff; exact Hz | apply negb_true_iff; exact Hn].
  - unfold forecast_report; fold small.
    rewrite HB, bind_ok; cbv zeta.
    destruct (metrics_on_equal_lengths var var_hat Hlen) as [Hmape Hrmse].
    rewrite Hvar, !bind_ok, Hhat, !bind_ok, Hmape, !bind_ok, Hrmse; reflexivity.
Qed.

(** ** What the fit and the rolling forecast do not read *)

Lemma for_each_ext_inv {I St : Type} (Inv : St -> Prop) (l : list I)
  (f g : I -> St -> result St) :
  (forall i s, In i l -> Inv s -> f i s = g i s) ->
  (forall i s s', In i l -> Inv s -> g i s = Ok s' -> Inv s') ->
  forall s, Inv s -> for_each l f s = for_each l g s.
Proof.
  induction l as [|i l IH]; intros Hfg Hinv s Hs; simpl; [reflexivity|].
  rewrite (Hfg i s) by (try left; auto).
  destruct (g i s) as [s'|e] eqn:E; [|reflexivity].
  apply IH.
  - intros j s1 Hj; apply Hfg; right; exact Hj.
  - intros j s1 s2 Hj; apply Hinv; right; exact Hj.
  - apply (Hinv i s s'); [left; reflexivity | exact Hs | exact E].
Qed.

(** The report inside the loop of [notmf] reads [mat_hat] at positions
    of the data: it changes nothing, and the pass is the one that holds
    nothing out. *)
Lemma notmf_body_report {F : Type} {SF : Scalar F} {LA : LinAlg F}
  (sparse_mat : ndarray F) (ind : ndarray bool) (pos_test : list (nat * nat))
  (Psi : list (ndarray F)) (rank d : Z) (lambda0 rho : F) (it : Z)
  (r dim1 dim2 : nat) (st : fit_state F) :
  (forall p, In p pos_test -> fst p < dim1 /\ snd p < dim2) ->
  fitted r dim1 dim2 st ->
  NoTMF.notmf_body sparse_mat ind pos_test Psi rank d lambda0 rho it st
  = NoTMF.notmf_body sparse_mat ind [] Psi rank d lambda0 rho it st.
Proof.
  destruct st as [[[[W X] A] temp] mh]; intros Hpos (HWr & HWc & HXr & HXc & _).
  unfold NoTMF.notmf_body.
  destruct (NoTMF.conj_grad_w sparse_mat ind W X rho 5) as [W'|e] eqn:EW; [|reflexivity].
  rewrite !bind_ok.
  destruct (NoTMF.conj_grad_x sparse_mat ind W' X A Psi d lambda0 rho 5) as [X'|e] eqn:EX;
    [|reflexivity].
  rewrite !bind_ok.
  destruct (fill_temp rank d Psi X' temp) as [temp'|e]; [|reflexivity].
  rewrite !bind_ok.
  destruct (list_index Psi 0) as [Psi0|e]; [|reflexivity].
  rewrite !bind_ok.
  destruct (matmul X' (transpose zero Psi0)) as [XP|e]; [|reflexivity].
  rewrite !bind_ok.
  destruct (pinv temp') as [P|e]; [|reflexivity].
  rewrite !bind_ok.
  destruct (matmul XP P) as [A'|e]; [|reflexivity].
  rewrite !bind_ok.
  destruct (matmul (transpose zero W') X') as [M|e] eqn:EM; [|reflexivity].
  rewrite !bind_ok.
  destruct ((it + 1) mod NoTMF.show_iter =? 0)%Z; [|reflexivity].
  apply conj_grad_w_shape in EW; destruct EW as (_ & HWr' & HWc').
  apply conj_grad_x_shape in EX; destruct EX as (_ & HXr' & HXc').
  apply matmul_inv in EM; destruct EM as [_ ->].
  destruct (take_at_ok zero (mat_product (transpose zero W') X') pos_test) as [v Hv].
  { intros p Hp; cbn [nrows ncols mat_product transpose tab].
    destruct (Hpos p Hp); lia. }
  rewrite Hv; reflexivity.
Qed.

(** [notmf] without its report: the fit itself, where [dense_mat] does
    not occur. *)
Lemma notmf_report_free {F : Type} {SF : Scalar F} {LA : LinAlg F} (draws : nat -> F)
  (dense_mat sparse_mat : ndarray F) (rank d : Z) (lambda0 rho : F) (season maxiter : Z) :
  nrows dense_mat = nrows sparse_mat -> ncols dense_mat = ncols sparse_mat ->
  NoTMF.notmf draws dense_mat sparse_mat rank d lambda0 rho season maxiter
  = (let dim1 := Z.of_nat (nrows sparse_mat) in
     let dim2 := Z.of_nat (ncols sparse_mat) in
     G1 <- randn draws 0 rank dim1 ;;
     G2 <- randn draws (Z.to_nat (rank * dim1)) rank dim2 ;;
     G3 <- randn draws (Z.to_nat (rank * dim1) + Z.to_nat (rank * dim2)) rank (d * rank) ;;
     Psi <- NoTMF.generate_Psi dim2 d season ;;
     temp <- np_zeros (d * rank) (dim2 - d - season) ;;
     st <- for_each (py_range 0 maxiter)
             (NoTMF.notmf_body (snd (NoTMF.observed_dic sparse_mat))
                (fst (NoTMF.observed_dic sparse_mat)) [] Psi rank d lambda0 rho)
             (scale hundredth G1, scale hundredth G2, scale hundredth G3, temp, None) ;;
     let '(W, X, A, _, mat_hat) := st in
     mat_hat <- read_local "mat_hat" mat_hat ;;
     Ok (mat_hat, W, X, A)).
Proof.
  intros Hr Hc; unfold NoTMF.notmf; cbv zeta.
  destruct (randn draws 0 rank (Z.of_nat (nrows sparse_mat))) as [G1|e] eqn:E1;
    [|reflexivity].
  rewrite !bind_ok.
  destruct (randn draws (Z.to_nat (rank * Z.of_nat (nrows sparse_mat))) rank
              (Z.of_nat (ncols sparse_mat))) as [G2|e] eqn:E2; [|reflexivity].
  rewrite !bind_ok.
  destruct (randn draws _ rank (d * rank)) as [G3|e]; [|reflexivity].
  rewrite !bind_ok.
  apply randn_inv in E1; destruct E1 as (_ & _ & HG1r & HG1c).
  apply randn_inv in E2; destruct E2 as (_ & _ & HG2r & HG2c).
  rewrite Nat2Z.id in HG1c, HG2c.
  assert (Hobs : exists pos_test dense_test,
            NoTMF.observed dense_mat sparse_mat
            = Ok (fst (NoTMF.observed_dic sparse_mat), pos_test,
                  snd (NoTMF.observed_dic sparse_mat)) /\
            take_at zero dense_mat pos_test = Ok dense_test /\
            forall p, In p pos_test ->
              fst p < nrows sparse_mat /\ snd p < ncols sparse_mat).
  { unfold NoTMF.observed, NoTMF.observed_dic.
    destruct (negb (any (isnan sparse_mat))); cbn [fst snd].
    - rewrite logical_and_same by (simpl; assumption); rewrite bind_ok.
      match goal with |- context [np_where ?B] =>
        destruct (take_at_ok zero dense_mat (np_where B)) as [v Hv];
        [intros p Hp; apply np_where_bounds in Hp; exact Hp|];
        exists (np_where B), v; split; [reflexivity|]; split; [exact Hv|];
        intros p Hp; apply np_where_bounds in Hp;
        cbn [nrows ncols nonzero map_array tab] in Hp; lia end.
    - rewrite logical_and_same by (simpl; assumption); rewrite bind_ok.
      match goal with |- context [np_where ?B] =>
        destruct (take_at_ok zero dense_mat (np_where B)) as [v Hv];
        [intros p Hp; apply np_where_bounds in Hp; exact Hp|];
        exists (np_where B), v; split; [reflexivity|]; split; [exact Hv|];
        intros p Hp; apply np_where_bounds in Hp;
        cbn [nrows ncols nonzero map_array tab] in Hp; lia end. }
  destruct Hobs as (pos_test & dense_test & -> & Htest & Hpos).
  rewrite bind_ok, Htest, bind_ok.
  destruct (NoTMF.generate_Psi (Z.of_nat (ncols sparse_mat)) d season) as [Psi|e];
    [|reflexivity].
  rewrite !bind_ok.
  destruct (np_zeros (d * rank) (Z.of_nat (ncols sparse_mat) - d - season)) as [temp|e];
    [|reflexivity].
  rewrite !bind_ok.
  rewrite (for_each_ext_inv
             (fitted (Z.to_nat rank) (nrows sparse_mat) (ncols sparse_mat)) _ _
             (NoTMF.notmf_body (snd (NoTMF.observed_dic sparse_mat))
                (fst (NoTMF.observed_dic sparse_mat)) [] Psi rank d lambda0 rho));
    [reflexivity | | |].
  - intros it s _ Hs; apply (notmf_body_report _ _ _ _ _ _ _ _ _ _ _ _ _ Hpos Hs).
  - intros it s s' _ Hs Hbody.
    exact (proj1 (notmf_body_fitted _ _ _ _ _ _ _ _ _ _ _ _ _ _ Hs Hbody)).
  - unfold fitted; cbn [nrows ncols scale map_array tab].
    repeat split; try assumption; discriminate.
Qed.

(** X14.  The data [dense_mat] that [notmf] is given for its report does
    not reach the fit: two calls that differ in [dense_mat] only, of the
    shape of [sparse_mat], return the same, or raise the same. *)
Theorem notmf_ignores_dense_mat :
  forall (F : Type) (SF : Scalar F) (LA : LinAlg F) (draws : nat -> F)
         (dense1 dense2 sparse_mat : ndarray F) (rank d : Z) (lambda0 rho : F)
         (season maxiter : Z),
    nrows dense1 = nrows sparse_mat -> ncols dense1 = ncols sparse_mat ->
    nrows dense2 = nrows sparse_mat -> ncols dense2 = ncols sparse_mat ->
    NoTMF.notmf draws dense1 sparse_mat rank d lambda0 rho season maxiter
    = NoTMF.notmf draws dense2 sparse_mat rank d lambda0 rho season maxiter.
Proof.
  intros F SF LA draws dense1 dense2 sparse_mat rank d lambda0 rho season maxiter
    Hr1 Hc1 Hr2 Hc2.
  rewrite (notmf_report_free draws dense1), (notmf_report_free draws dense2) by assumption.
  reflexivity.
Qed.

Lemma same_upto_eq {A : Type} (r1 r2 : result A) : same_upto eq r1 r2 <-> r1 = r2.
Proof.
  destruct r1, r2; simpl; split; intro H; try congruence; try contradiction.
Qed.

Lemma same_upto_bind {A B : Type} (R : A -> A -> Prop) (R' : B -> B -> Prop)
  (m1 m2 : result A) (k1 k2 : A -> result B) :
  same_upto R m1 m2 ->
  (forall a b, R a b -> same_upto R' (k1 a) (k2 b)) ->
  same_upto R' (bind m1 k1) (bind m2 k2).
Proof.
  destruct m1, m2; simpl; intros H Hk; try contradiction; [apply Hk; exact H | exact H].
Qed.

Lemma for_each_same {I St : Type} (R : St -> St -> Prop) (l : list I)
  (f g : I -> St -> result St) :
  (forall i a b, In i l -> R a b -> same_upto R (f i a) (g i b)) ->
  forall s1 s2, R s1 s2 -> same_upto R (for_each l f s1) (for_each l g s2).
Proof.
  induction l as [|i l IH]; intros H s1 s2 Hs; simpl; [exact Hs|].
  pose proof (H i s1 s2 (or_introl eq_refl) Hs) as Hi.
  destruct (f i s1) as [a1|e1], (g i s2) as [a2|e2]; simpl in Hi; try contradiction;
    [|exact Hi].
  apply IH; [|exact Hi].
  intros j a b Hj; apply H; right; exact Hj.
Qed.

Lemma slice_cols_to_agree {F : Type} {SF : Scalar F} (M N : ndarray F) (hi : Z) (B : nat) :
  nrows M = nrows N -> ncols M = ncols N ->
  (forall i j, i < nrows M -> j < ncols M -> j < B -> get zero M i j = get zero N i j) ->
  slice_bound (ncols M) hi <= B ->
  slice_cols_to zero M hi = slice_cols_to zero N hi.
Proof.
  intros Hr Hc H Hb; unfold slice_cols_to, cols_between.
  rewrite <- Hr, <- Hc.
  apply tab_ext; intros i j Hi Hj; simpl.
  apply H; [exact Hi | | lia].
  assert (slice_bound (ncols M) hi <= ncols M); [|lia].
  unfold slice_bound; destruct (Z.ltb_spec hi 0); lia.
Qed.

Lemma nan_cleared_agree {F : Type} {SF : Scalar F} (M N : ndarray F) (e B : nat) :
  nrows M = nrows N -> ncols M = ncols N ->
  (forall i j, i < nrows M -> j < ncols M -> j < B -> get zero M i j = get zero N i j) ->
  forall i j, i < nrows M -> j < ncols M -> j < B ->
    get zero (nan_cleared M e) i j = get zero (nan_cleared N e) i j.
Proof.
  intros Hr Hc H i j Hi Hj Hb; unfold nan_cleared.
  rewrite !get_tab by lia.
  rewrite (H i j Hi Hj Hb); reflexivity.
Qed.

Section StepAgree.
Context {F : Type} {SF : Scalar F} {LA : LinAlg F}.
Variables (draws : nat -> F) (dense1 dense2 : ndarray F).
Variables (start_time delta rank d : Z) (lambda0 rho : F) (season maxiter : Z).
Variables (dim1 T B : nat).
Hypothesis dense1_rows : nrows dense1 = dim1.
Hypothesis dense1_cols : ncols dense1 = T.
Hypothesis dense2_rows : nrows dense2 = dim1.
Hypothesis dense2_cols : ncols dense2 = T.

Let related (a b : NoTMF.rolling_state F) : Prop :=
  agree B a b /\ nrows (NoTMF.r_sparse a) = dim1 /\ ncols (NoTMF.r_sparse a) = T.

Lemma rolling_tail_agree (mh0 W X A sp1 sp2 : ndarray F) (t : Z) :
  nrows sp1 = dim1 -> ncols sp1 = T -> nrows sp2 = dim1 -> ncols sp2 = T ->
  (forall i j, i < dim1 -> j < T -> j < B -> get zero sp1 i j = get zero sp2 i j) ->
  same_upto related
    (X_new <- NoTMF.var4cast X A d delta season ;;
     V <- matmul (transpose zero W) (slice_cols_from zero X_new (- delta)) ;;
     mat_hat <- set_col_slice zero mh0 (t * delta) ((t + 1) * delta) V ;;
     Ok (NoTMF.mk_rolling mat_hat sp1 (Some W) (Some X) (Some A) (Some X_new)))
    (X_new <- NoTMF.var4cast X A d delta season ;;
     V <- matmul (transpose zero W) (slice_cols_from zero X_new (- delta)) ;;
     mat_hat <- set_col_slice zero mh0 (t * delta) ((t + 1) * delta) V ;;
     Ok (NoTMF.mk_rolling mat_hat sp2 (Some W) (Some X) (Some A) (Some X_new))).
Proof.
  intros Hr1 Hc1 Hr2 Hc2 Hget.
  destruct (NoTMF.var4cast X A d delta season) as [X_new|e]; [|reflexivity].
  rewrite !bind_ok.
  destruct (matmul (transpose zero W) (slice_cols_from zero X_new (- delta))) as [V|e];
    [|reflexivity].
  rewrite !bind_ok.
  destruct (set_col_slice zero mh0 (t * delta) ((t + 1) * delta) V) as [mat_hat|e];
    [|reflexivity].
  rewrite !bind_ok; simpl.
  unfold related, agree; cbn [NoTMF.r_mat_hat NoTMF.r_sparse NoTMF.r_W NoTMF.r_X NoTMF.r_A
                               NoTMF.r_X_new].
  repeat split; try reflexivity; try congruence.
  intros i j Hi Hj Hb; apply Hget; congruence.
Qed.

Lemma rolling_step_agree (t : Z) (s1 s2 : NoTMF.rolling_state F) :
  related s1 s2 ->
  slice_bound T (start_time + t * delta) <= B ->
  same_upto related
    (NoTMF.rolling_step draws dense1 start_time delta rank d lambda0 rho season maxiter t s1)
    (NoTMF.rolling_step draws dense2 start_time delta rank d lambda0 rho season maxiter t s2).
Proof.
  intros [(Hmh & HW & HX & HA & HXn & Hr & Hc & Hget) [Hr1 Hc1]] Hb.
  assert (Hview : slice_cols_to zero (NoTMF.r_sparse s2) (start_time + t * delta)
                  = slice_cols_to zero (NoTMF.r_sparse s1) (start_time + t * delta)).
  { symmetry; apply (slice_cols_to_agree _ _ _ B); try assumption.
    rewrite Hc1; exact Hb. }
  assert (Hsp : forall i j, i < dim1 -> j < T -> j < B ->
            get zero (nan_cleared (NoTMF.r_sparse s1)
                        (slice_bound (ncols (NoTMF.r_sparse s1)) (start_time + t * delta)))
              i j
            = get zero (nan_cleared (NoTMF.r_sparse s2)
                          (slice_bound (ncols (NoTMF.r_sparse s2)) (start_time + t * delta)))
                i j).
  { intros i j Hi Hj HjB; rewrite <- Hc.
    apply (nan_cleared_agree _ _ _ B); try assumption; congruence. }
  unfold NoTMF.rolling_step.
  rewrite <- Hmh, <- HW, <- HXn, <- HA.
  destruct (Z.eqb_spec t 0) as [->|Hne].
  - rewrite Z.mul_0_l, Z.add_0_r in Hview, Hsp.
    rewrite !set_nan_window, Hview.
    rewrite (notmf_report_free draws (slice_cols_to zero dense1 start_time)),
            (notmf_report_free draws (slice_cols_to zero dense2 start_time))
      by (unfold slice_cols_to, cols_between; cbn [nrows ncols tab]; congruence).
    match goal with |- same_upto _ (bind (bind ?N _) _) _ => destruct N as [[[[mh W] X] A]|e] end;
      [|reflexivity].
    rewrite !bind_ok.
    apply rolling_tail_agree; cbn [nrows ncols nan_cleared tab]; try congruence.
    exact Hsp.
  - rewrite !set_nan_window, Hview.
    destruct (NoTMF.r_W s1) as [W|]; [|reflexivity].
    destruct (NoTMF.r_X_new s1) as [X_new|]; [|reflexivity].
    destruct (NoTMF.r_A s1) as [A|]; [|reflexivity].
    cbn [read_local]; rewrite !bind_ok.
    match goal with |- same_upto _ (bind (bind ?N _) _) _ => destruct N as [[X' A']|e] end;
      [|reflexivity].
    rewrite !bind_ok.
    apply rolling_tail_agree; cbn [nrows ncols nan_cleared tab]; try congruence.
    exact Hsp.
Qed.

End StepAgree.

(** The indexing that feeds the report of [rolling4cast] stays within the
    arrays. *)
Lemma rolling_report_indices {F : Type} {SF : Scalar F} {C : Type}
  (dense_mat mat_hat : ndarray F) (lo hi : Z) (k : result C) :
  nrows mat_hat = nrows dense_mat ->
  slice_bound (ncols dense_mat) hi - slice_bound (ncols dense_mat) lo <= ncols mat_hat ->
  (pos <- (B <- logical_and (nonzero (slice_cols zero dense_mat lo hi))
                  (invert (isnan (slice_cols zero dense_mat lo hi))) ;;
           Ok (np_where B)) ;;
   _ <- take_at zero (slice_cols zero dense_mat lo hi) pos ;;
   _ <- take_at zero mat_hat pos ;;
   k) = k.
Proof.
  intros Hr Hc.
  set (small := slice_cols zero dense_mat lo hi).
  rewrite logical_and_same by reflexivity; rewrite !bind_ok.
  match goal with |- context [np_where ?B] => set (pos := np_where B) end.
  assert (Hpos : forall p, In p pos -> fst p < nrows small /\ snd p < ncols small).
  { intros p Hp; apply np_where_bounds in Hp; exact Hp. }
  destruct (take_at_ok zero small pos Hpos) as [v1 Hv1].
  destruct (take_at_ok zero mat_hat pos) as [v2 Hv2].
  { intros p Hp; destruct (Hpos p Hp) as [H1 H2].
    unfold small, slice_cols, cols_between in H1, H2; cbn [nrows ncols tab] in H1, H2.
    lia. }
  rewrite Hv1, bind_ok, Hv2, bind_ok; reflexivity.
Qed.

(** X15.  The rolling forecast does not look ahead.  What [rolling4cast]
    returns depends on [sparse_mat] through the columns of the last
    training window only, and not on [dense_mat]: two calls whose
    [sparse_mat] agree on the first [T - pred_step + (n - 1) * delta]
    columns, [n] being the number of steps, return the same, or raise the
    same. *)
Theorem rolling4cast_no_look_ahead :
  forall (F : Type) (SF : Scalar F) (LA : LinAlg F) (draws : nat -> F)
         (dense1 dense2 sparse1 sparse2 : ndarray F) (pred_step delta rank d : Z)
         (lambda0 rho : F) (season maxiter : Z) (n : nat),
    (1 <= delta)%Z -> (1 <= pred_step <= Z.of_nat (ncols sparse1))%Z ->
    ((Z.of_nat n - 1) * delta < pred_step <= Z.of_nat n * delta)%Z ->
    nrows sparse2 = nrows sparse1 -> ncols sparse2 = ncols sparse1 ->
    nrows dense1 = nrows sparse1 -> ncols dense1 = ncols sparse1 ->
    nrows dense2 = nrows sparse1 -> ncols dense2 = ncols sparse1 ->
    (forall i j, i < nrows sparse1 ->
       (Z.of_nat j < Z.of_nat (ncols sparse1) - pred_step + (Z.of_nat n - 1) * delta)%Z ->
       get zero sparse1 i j = get zero sparse2 i j) ->
    NoTMF.rolling4cast draws dense1 sparse1 pred_step delta rank d lambda0 rho season maxiter
    = NoTMF.rolling4cast draws dense2 sparse2 pred_step delta rank d lambda0 rho season
        maxiter.
Proof.
  intros F SF LA draws dense1 dense2 sparse1 sparse2 pred_step delta rank d lambda0 rho
    season maxiter n Hdelta Hp Hn Hr Hc Hr1 Hc1 Hr2 Hc2 Hsame.
  unfold NoTMF.rolling4cast; rewrite Hr, Hc.
  destruct (NoTMF.ceil_div pred_step delta) as [c|e] eqn:Ec; [|reflexivity].
  rewrite !bind_ok.
  pose proof (ceil_div_spec _ _ _ Hdelta Ec) as Hceil.
  assert (c = Z.of_nat n) by nia; subst c.
  destruct (np_zeros (Z.of_nat (nrows sparse1)) (Z.of_nat n * delta)) as [zeros|e] eqn:Ez;
    [|reflexivity].
  rewrite !bind_ok.
  set (start_time := (Z.of_nat (ncols sparse1) - pred_step)%Z).
  set (B := Z.to_nat (start_time + (Z.of_nat n - 1) * delta)).
  set (R := fun a b : NoTMF.rolling_state F =>
              agree B a b /\ nrows (NoTMF.r_sparse a) = nrows sparse1 /\
              ncols (NoTMF.r_sparse a) = ncols sparse1).
  assert (Hloop : same_upto R
            (for_each (py_range 0 (Z.of_nat n))
               (NoTMF.rolling_step draws dense1 start_time delta rank d lambda0 rho season
                  maxiter)
               (NoTMF.mk_rolling zeros sparse1 None None None None))
            (for_each (py_range 0 (Z.of_nat n))
               (NoTMF.rolling_step draws dense2 start_time delta rank d lambda0 rho season
                  maxiter)
               (NoTMF.mk_rolling zeros sparse2 None None None None))).
  { apply for_each_same.
    - intros t a b Ht Hab; apply py_range_In in Ht.
      apply (rolling_step_agree draws dense1 dense2 start_time delta rank d lambda0 rho
               season maxiter (nrows sparse1) (ncols sparse1) B Hr1 Hc1 Hr2 Hc2 t a b Hab).
      unfold B, start_time; rewrite slice_bound_nonneg by nia.
      pose proof (Z.le_min_l (Z.of_nat (ncols sparse1) - pred_step + t * delta)
                    (Z.of_nat (ncols sparse1))) as Hmin.
      apply Z2Nat.inj_le; nia.
    - unfold R, agree; cbn [NoTMF.r_mat_hat NoTMF.r_sparse NoTMF.r_W NoTMF.r_X NoTMF.r_A
                             NoTMF.r_X_new].
      repeat split; try reflexivity; try congruence.
      intros i j Hi Hj Hb; apply Hsame; [exact Hi | unfold B, start_time in Hb; lia]. }
  match type of Hloop with same_upto _ ?l1 ?l2 =>
    destruct l1 as [a|e1] eqn:E1; destruct l2 as [b|e2] eqn:E2 end;
    simpl in Hloop; try contradiction; [|rewrite Hloop; reflexivity].
  rewrite !bind_ok.
  destruct (rolling_steps_shape _ _ _ _ _ _ _ _ _ _ _ _ _ E1) as [Hmr Hmc].
  destruct (rolling_steps_shape _ _ _ _ _ _ _ _ _ _ _ _ _ E2) as [Hmr2 Hmc2].
  apply np_zeros_inv in Ez; destruct Ez as (_ & Hw & ->).
  cbn [NoTMF.r_mat_hat nrows ncols tab] in Hmr, Hmc, Hmr2, Hmc2.
  rewrite Nat2Z.id in Hmr, Hmr2.
  rewrite (rolling_report_indices dense1), (rolling_report_indices dense2).
  - destruct Hloop as [(Hmh & HW & HX & HA & _) _].
    rewrite Hmh, HW, HX, HA; reflexivity.
  - congruence.
  - rewrite Hmc2, Hc2, !slice_bound_nonneg by lia; nia.
  - congruence.
  - rewrite Hmc, Hc1, !slice_bound_nonneg by lia; nia.
Qed.

(** ** The solver in exact arithmetic *)

Lemma sum_to_ext {F : Type} {SF : Scalar F} (n : nat) (f g : nat -> F) :
  (forall k, k < n -> f k = g k) -> sum_to n f = sum_to n g.
Proof.
  intro H; unfold sum_to; f_equal.
  apply map_ext_in; intros k Hk; apply in_seq in Hk; apply H; lia.
Qed.

Lemma nth_vscale {F : Type} {SF : Scalar F} (a : F) (v : list F) (k : nat) :
  k < length v -> nth k (vscale a v) zero = mul a (nth k v zero).
Proof.
  intro H; unfold vscale.
  rewrite (nth_indep _ zero (mul a zero)) by (rewrite length_map; exact H).
  apply map_nth.
Qed.

Lemma nth_map_seq_default {B : Type} (f : nat -> B) (n k : nat) (dflt : B) :
  k < n -> nth k (map f (seq 0 n)) dflt = f k.
Proof.
  intro H.
  rewrite (nth_indep _ dflt (f 0)) by (rewrite length_map, length_seq; exact H).
  rewrite (map_nth f (seq 0 n) 0 k), seq_nth by exact H; reflexivity.
Qed.

Section ConjugateStep.
Context {F : Type} {SF : Scalar F}.
Hypothesis ring_laws : ring_theory zero one add mul sub opp (@eq F).
Hypothesis div_mul : forall a b : F, b <> zero -> mul (div a b) b = a.

Add Ring scalar_ring : ring_laws.

Lemma sum_to_combination (n : nat) (a b : F) (f g : nat -> F) :
  sum_to n (fun k => add (mul a (f k)) (mul b (g k)))
  = add (mul a (sum_to n f)) (mul b (sum_to n g)).
Proof.
  induction n as [|n IH].
  - unfold sum_to; simpl; ring.
  - rewrite !sum_to_S, IH; ring.
Qed.

(** One step of the solver in exact arithmetic, on a direction [q] with
    [q . L(q) <> 0] and [r . q = rold]. *)
Lemma update_cg_step (var r q Aq : list F) (rold x : F) (n : nat) :
  length var = n -> length r = n -> length q = n -> length Aq = n ->
  inner q Aq = Ok x -> x <> zero -> inner r q = Ok rold ->
  exists var' r' q' rnew,
    NoTMF.update_cg var r q Aq rold = Ok (var', r', q', rnew) /\
    vsub r (vscale (div rold x) Aq) = Ok r' /\
    inner r' q = Ok zero /\ inner r' r' = Ok rnew /\ inner r' q' = Ok rnew.
Proof.
  intros Hv Hr Hq HA Hx Hx0 Hrq.
  unfold NoTMF.update_cg; rewrite Hx, bind_ok.
  set (alpha := div rold x).
  unfold vadd, vsub.
  rewrite (vbroadcast2_equal add var) by (rewrite vscale_length; congruence).
  rewrite bind_ok.
  rewrite (vbroadcast2_equal sub r) by (rewrite vscale_length; congruence).
  rewrite bind_ok, Hr.
  set (r' := map (fun i => sub (nth i r zero) (nth i (vscale alpha Aq) zero)) (seq 0 n)).
  assert (Lr' : length r' = n) by (unfold r'; rewrite length_map, length_seq; reflexivity).
  assert (Nr' : forall k, k < n -> nth k r' zero
                                   = sub (nth k r zero) (mul alpha (nth k Aq zero))).
  { intros k Hk; unfold r'; rewrite nth_map_seq_default by exact Hk.
    rewrite nth_vscale by lia; reflexivity. }
  rewrite (inner_ok r' r') by reflexivity; rewrite bind_ok, Lr'.
  set (rnew := sum_to n (fun k => mul (nth k r' zero) (nth k r' zero))).
  rewrite (vbroadcast2_equal add r') by (rewrite vscale_length; congruence).
  rewrite bind_ok, Lr'.
  set (beta := div rnew rold).
  set (q' := map (fun i => add (nth i r' zero) (nth i (vscale beta q) zero)) (seq 0 n)).
  assert (Hxs : x = sum_to n (fun k => mul (nth k q zero) (nth k Aq zero))).
  { rewrite inner_ok in Hx by congruence; rewrite Hq in Hx; injection Hx as <-; reflexivity. }
  assert (Hrs : rold = sum_to n (fun k => mul (nth k r zero) (nth k q zero))).
  { rewrite inner_ok in Hrq by congruence; rewrite Hr in Hrq; injection Hrq as <-.
    reflexivity. }
  assert (Horth : sum_to n (fun k => mul (nth k r' zero) (nth k q zero)) = zero).
  { rewrite (sum_to_ext n _
               (fun k => add (mul one (mul (nth k r zero) (nth k q zero)))
                             (mul (opp alpha) (mul (nth k q zero) (nth k Aq zero))))).
    2:{ intros k Hk; rewrite Nr' by exact Hk; ring. }
    rewrite sum_to_combination, <- Hxs, <- Hrs.
    unfold alpha.
    transitivity (sub rold (mul (div rold x) x)); [ring|].
    rewrite div_mul by exact Hx0; ring. }
  eexists _, r', q', rnew; split; [reflexivity|]; split; [reflexivity|].
  split; [rewrite inner_ok, Lr', Horth by congruence; reflexivity|].
  split; [rewrite inner_ok, Lr' by reflexivity; reflexivity|].
  rewrite inner_ok, Lr' by (unfold q'; rewrite length_map, length_seq; exact Lr').
  f_equal.
  rewrite (sum_to_ext n _
             (fun k => add (mul one (mul (nth k r' zero) (nth k r' zero)))
                           (mul beta (mul (nth k r' zero) (nth k q zero))))).
  2:{ intros k Hk; unfold q'; rewrite nth_map_seq_default by exact Hk.
      rewrite nth_vscale by lia; ring. }
  rewrite sum_to_combination, Horth; fold rnew; ring.
Qed.

End ConjugateStep.

(** X16.  A step of the solver is a conjugate-gradient step.  In exact
    arithmetic, on a direction [q] with [q . L(q) <> 0] and [r . q = rold]
    (as at the first step, where [q = r]), [update_cg] returns a residual
    [r' = r - alpha L(q)] that is orthogonal to [q], its squared norm [rnew],
    and a direction [q'] with [r' . q' = rnew]: the condition on the
    direction holds again for the next step. *)
Theorem update_cg_conjugate_step :
  forall (F : Type) (SF : Scalar F),
    ring_theory zero one add mul sub opp (@eq F) ->
    (forall a b : F, b <> zero -> mul (div a b) b = a) ->
    forall (var r q Aq : list F) (rold x : F) (n : nat),
      length var = n -> length r = n -> length q = n -> length Aq = n ->
      inner q Aq = Ok x -> x <> zero -> inner r q = Ok rold ->
      exists var' r' q' rnew,
        NoTMF.update_cg var r q Aq rold = Ok (var', r', q', rnew) /\
        vsub r (vscale (div rold x) Aq) = Ok r' /\
        inner r' q = Ok zero /\ inner r' r' = Ok rnew /\ inner r' q' = Ok rnew.
Proof.
  intros F SF ring_laws div_mul var r q Aq rold x n.
  apply update_cg_step; assumption.
Qed.

(** ** Runs on binary64 and on the rationals *)

Import Exact.

Section RationalLaws.
Import Qcanon.

Lemma rational_exact_laws : exact_laws (SF := rational_scalar).
Proof.
  split; cbn [zero one add sub mul opp rational_scalar]; intros.
  - apply Qcanon.Qcplus_0_l.
  - apply Qcanon.Qcplus_0_r.
  - apply Qcanon.Qcmult_0_r.
  - apply Qcanon.Qcmult_1_r.
  - change (Qcmult x (Qcopp (Q2Qc (QArith_base.Qmake 1 1))) = Qcopp x); ring.
  - unfold Qcanon.Qcminus; apply Qcanon.Qcplus_comm.
Qed.

Lemma rational_sign_laws : sign_laws (SF := rational_scalar).
Proof.
  split; try (apply Qcanon.Qc_is_canon; reflexivity); intro H; discriminate H.
Qed.

End RationalLaws.

Lemma notmf_returns_reconstruction_witness :
  exists mat_hat W X A,
    NoTMF.notmf draws Y Y 1 1 1%float 5%float 2 2 = Ok (mat_hat, W, X, A) /\
    matmul (transpose zero W) X = Ok mat_hat.
Proof.
  destruct (NoTMF.notmf draws Y Y 1 1 1%float 5%float 2 2) as [[[[mat_hat W] X] A]|e] eqn:E;
    [|vm_compute in E; discriminate E].
  exists mat_hat, W, X, A; split; [reflexivity|].
  exact (proj1 (proj2 (proj2 (proj2 (proj2 (proj2
           (notmf_returns_reconstruction float float_scalar float_linalg draws Y Y 1 1
              1%float 5%float 2 2 mat_hat W X A E))))))).
Defined.

Lemma fit_without_pass_witness :
  NoTMF.notmf draws Y Y 1 1 1%float 5%float 2 0 = Raise (UnboundLocalError "mat_hat") /\
  TMF.tmf draws Y 1 1 1%float 5%float 0 = Raise (UnboundLocalError "mat_hat").
Proof.
  destruct (fit_without_pass float float_scalar float_linalg) as [H1 H2].
  split.
  - apply H1; simpl; lia.
  - apply H2; simpl; lia.
Defined.

Lemma masks_hide_what_is_missing_witness :
  masked Y (fst (NoTMF.observed_dic Y)) (snd (NoTMF.observed_dic Y)) /\
  NoTMF.observed Y Y = Ok (nonzero Y, [], Y).
Proof.
  destruct (masks_hide_what_is_missing float float_scalar eq_refl eq_refl)
    as (H1 & _ & H3).
  split; [apply H1 | apply H3; reflexivity].
Defined.

Lemma season_zero_degenerate_witness :
  NoTMF.generate_Psi (F := float) 4 1 0
  = Ok [tab 3 4 (fun _ _ => 0%float); tab 3 4 (fun _ _ => 0%float)] /\
  NoTMF.var4cast X3 A3 1 2 0 = Raise ValueError.
Proof.
  destruct (season_zero_degenerate float float_scalar eq_refl eq_refl) as [H1 H2].
  split.
  - exact (H1 4%Z 1%Z ltac:(lia)).
  - apply H2; simpl; lia.
Defined.

Lemma var4cast_seasonal_forecasts_witness :
  exists X_new,
    NoTMF.var4cast X4 A3 1 2 2 = Ok X_new /\ has_shape X_new 1 6.
Proof.
  destruct (var4cast_seasonal_forecasts float float_scalar X4 A3 1 2 2
              ltac:(lia) ltac:(lia) ltac:(simpl; lia) ltac:(lia) eq_refl eq_refl)
    as (X_hat & X_new & H1 & H2 & _).
  exists X_new; split; [exact H1 | exact H2].
Defined.

Lemma var4cast_order_unchecked_witness :
  TMF.var4cast X3 (of_rows [[2; 0; 0; 0; 0; 0; 0; 0; 0]]%float) 9 2 = Raise IndexError /\
  exists P, TMF.var4cast X3 (of_rows [[2; 0; 0; 0; 1]]%float) 5 2 = Ok P /\ has_shape P 1 2.
Proof.
  split.
  - apply (var4cast_order_unchecked float float_scalar X3
             (of_rows [[2; 0; 0; 0; 0; 0; 0; 0; 0]]%float) 9 2); simpl; lia.
  - apply (var4cast_order_unchecked float float_scalar X3
             (of_rows [[2; 0; 0; 0; 1]]%float) 5 2); simpl; lia.
Defined.

Lemma operators_take_lags_witness :
  exists Psi, TMF.generate_Psi (F := Qcanon.Qc) 5 2 = Ok Psi /\ length Psi = 3.
Proof.
  destruct (proj1 (operators_take_lags Qcanon.Qc rational_scalar rational_exact_laws)
              X5 2 ltac:(simpl; lia)) as (Psi & H1 & H2 & _).
  exists Psi; split; [exact H1 | exact H2].
Defined.

Lemma var_design_matrix_witness :
  exists Psi Z,
    TMF.generate_Psi (F := Qcanon.Qc) 5 2 = Ok Psi /\
    fill_temp 1 2 Psi X5 (tab 2 3 (fun _ _ => zero)) = Ok Z /\
    get zero Z 1 0 = get zero X5 0 0.
Proof.
  destruct (proj1 (var_design_matrix Qcanon.Qc rational_scalar rational_exact_laws)
              X5 (tab 2 3 (fun _ _ => zero)) 2 ltac:(simpl; lia) (tab_shape _ _ _))
    as (Psi & Z & H1 & H2 & _ & H3).
  exists Psi, Z; split; [exact H1|]; split; [exact H2|].
  exact (H3 2 0 0 ltac:(lia) ltac:(simpl; lia) ltac:(simpl; lia)).
Defined.


Lemma rolling4cast_outputs_witness :
  exists mat_hat W X A,
    NoTMF.rolling4cast draws Y Y 3 2 1 1 1%float 5%float 2 2 = Ok (mat_hat, W, X, A) /\
    has_shape W 1 2.
Proof.
  assert (E : exists r, NoTMF.rolling4cast draws Y Y 3 2 1 1 1%float 5%float 2 2 = Ok r)
    by (vm_compute; eexists; reflexivity).
  destruct E as [[[[mat_hat W] X] A] E].
  exists mat_hat, W, X, A; split; [exact E|].
  destruct (rolling4cast_outputs float _ _ draws Y Y 3 2 1 1 1%float 5%float 2 2
              mat_hat W X A E)
    as (_ & _ & _ & n & _ & _ & _ & HW & _).
  exact HW.
Defined.

Lemma rolling4cast_overwrites_nan_witness :
  exists mat_hat W X A st,
    NoTMF.rolling4cast draws Y Y_gaps 3 2 1 1 1%float 5%float 2 2
    = Ok (mat_hat, W, X, A) /\
    for_each (py_range 0 2)
      (NoTMF.rolling_step draws Y 5 2 1 1 1%float 5%float 2 2)
      (NoTMF.mk_rolling (tab 2 4 (fun _ _ => 0%float)) Y_gaps None None None None)
    = Ok st /\
    NoTMF.r_sparse st = Y_filled /\ Y_filled <> Y_gaps.
Proof.
  assert (E : exists r,
             NoTMF.rolling4cast draws Y Y_gaps 3 2 1 1 1%float 5%float 2 2 = Ok r)
    by (vm_compute; eexists; reflexivity).
  destruct E as [[[[mat_hat W] X] A] E].
  destruct (rolling4cast_overwrites_nan float _ _ draws Y Y_gaps 3 2 1 1 1%float 5%float
              2 2 mat_hat W X A E ltac:(simpl; lia))
    as (n & zeros & st & Hn & Hceil & Hz & Hrun & _ & Hsp).
  assert (n = 2) by lia; subst n.
  injection Hz as <-.
  exists mat_hat, W, X, A, st; split; [exact E|].
  split; [exact Hrun|].
  split; [rewrite Hsp; vm_compute; reflexivity | discriminate].
Defined.

Lemma metrics_raise_on_lengths_only_witness :
  compute_mape [1; 2]%float [1; 4]%float = Ok 0.5%float /\
  compute_rmse [1; 2]%float [1; 2; 3]%float = Raise ValueError.
Proof.
  destruct (metrics_raise_on_lengths_only float float_scalar float_metric
              [1; 2]%float [1; 4]%float) as (_ & _ & _ & _ & H).
  destruct (metrics_raise_on_lengths_only float float_scalar float_metric
              [1; 2]%float [1; 2; 3]%float) as (_ & _ & _ & H' & _).
  split.
  - exact (proj1 (H eq_refl)).
  - apply H'; simpl; lia.
Defined.

Lemma forecast_report_defined_witness :
  exists mat_hat W X A mape rmse,
    NoTMF.rolling4cast draws Y Y 3 2 1 1 1%float 5%float 2 2 = Ok (mat_hat, W, X, A) /\
    forecast_report Y mat_hat 5 8 = Ok (mape, rmse).
Proof.
  assert (E : exists r, NoTMF.rolling4cast draws Y Y 3 2 1 1 1%float 5%float 2 2 = Ok r)
    by (vm_compute; eexists; reflexivity).
  destruct E as [[[[mat_hat W] X] A] E].
  destruct (forecast_report_defined float _ float_metric _ draws Y Y 3 2 1 1 1%float 5%float
              2 2 mat_hat W X A E) as (B & var & var_hat & _ & _ & _ & _ & _ & H).
  exists mat_hat, W, X, A, (mape_of var var_hat), (rmse_of var var_hat).
  split; [exact E | exact H].
Defined.

Section RationalField.
Import Qcanon.

Lemma rational_ring_laws :
  ring_theory (zero (F := Qc)) one add mul sub opp (@eq Qc).
Proof. exact Qcrt. Qed.

Lemma rational_div_mul (a b : Qc) : b <> zero -> mul (div a b) b = a.
Proof.
  intro H; cbn [zero mul div rational_scalar] in *.
  rewrite Qcmult_comm; apply Qcmult_div_r; exact H.
Qed.

End RationalField.

Lemma notmf_ignores_dense_mat_witness :
  NoTMF.notmf draws Y Y 1 1 1%float 5%float 2 2
  = NoTMF.notmf draws (tab 2 8 (fun _ _ => 1%float)) Y 1 1 1%float 5%float 2 2.
Proof.
  apply (notmf_ignores_dense_mat float float_scalar float_linalg draws Y
           (tab 2 8 (fun _ _ => 1%float)) Y); reflexivity.
Defined.

Lemma rolling4cast_no_look_ahead_witness :
  NoTMF.rolling4cast draws Y Y 3 2 1 1 1%float 5%float 2 2
  = NoTMF.rolling4cast draws Y_last Y_last 3 2 1 1 1%float 5%float 2 2.
Proof.
  apply (rolling4cast_no_look_ahead float float_scalar float_linalg draws Y Y_last Y Y_last
           3 2 1 1 1%float 5%float 2 2 2); try reflexivity; try (simpl; lia).
  intros i j Hi Hj; simpl in Hi, Hj.
  do 2 (destruct i as [|i]; [do 7 (destruct j as [|j]; [reflexivity|]); lia|]); lia.
Defined.

Lemma update_cg_conjugate_step_witness :
  exists var' r' q' rnew,
    NoTMF.update_cg [of_Z 0] [of_Z 1] [of_Z 1] [of_Z 2] (sum_to 1 (fun _ => mul (of_Z 1) (of_Z 1)))
    = Ok (var', r', q', rnew) /\
    inner r' [of_Z 1] = Ok zero.
Proof.
  destruct (update_cg_conjugate_step Qcanon.Qc rational_scalar rational_ring_laws
              rational_div_mul [of_Z 0] [of_Z 1] [of_Z 1] [of_Z 2]
              (sum_to 1 (fun _ => mul (of_Z 1) (of_Z 1)))
              (sum_to 1 (fun _ => mul (of_Z 1) (of_Z 2))) 1
              eq_refl eq_refl eq_refl eq_refl eq_refl)
    as (var' & r' & q' & rnew & H1 & _ & H2 & _).
  - intro H; apply (f_equal Qcanon.this) in H; vm_compute in H; discriminate H.
  - reflexivity.
  - exists var', r', q', rnew; split; [exact H1 | exact H2].
Defined.
